(** * FASTA / GenBank parser: a shallow embedding of [src/FastaGenbankParser.jsx]

    The three functions of the component that do the parsing,
    [detectFormat], [parseFasta] and [parseGenBank], are embedded together
    with the part of the JavaScript runtime they rely on: strings as
    sequences of UTF-16 code units, [String.prototype.trim], regular
    expressions with backtracking and capture groups, [split], [replace],
    [search], [indexOf], [substring], and ordinary objects with their
    prototype chain and their own-key order. *)

From Stdlib Require Import Ascii String DecimalString.
From Stdlib Require Import NArith ZArith Bool Lia Arith List.
Import ListNotations.

(** ** Strings *)

(** A JavaScript string is a sequence of UTF-16 code units. *)
Definition char := N.
Definition jsstring := list char.

(** Code units of a literal. *)
Definition str (s : String.string) : jsstring :=
  List.map N_of_ascii (String.list_ascii_of_string s).

Definition TAB : char := 9%N.
Definition LF : char := 10%N.
Definition CR : char := 13%N.
Definition SP : char := 32%N.
Definition DQUOTE : char := 34%N.
Definition GT : char := 62%N.

(** [text_of_lines] writes each line followed by a line feed. *)
Definition text_of_lines (ls : list jsstring) : jsstring :=
  concat (List.map (fun l => l ++ [LF]) ls).

(** [n] space characters. *)
Definition spaces (n : nat) : jsstring := repeat SP n.

Fixpoint jsstring_eqb (a b : jsstring) : bool :=
  match a, b with
  | [], [] => true
  | x :: a', y :: b' => N.eqb x y && jsstring_eqb a' b'
  | _, _ => false
  end.

(** ECMAScript LineTerminator: LF, CR, LS, PS. *)
Definition isLineTerminator (c : char) : bool :=
  (c =? 10)%N || (c =? 13)%N || (c =? 8232)%N || (c =? 8233)%N.

(** ECMAScript WhiteSpace and LineTerminator: what [\s] matches and what
    [trim] removes. *)
Definition isWhiteSpace (c : char) : bool :=
  ((9 <=? c)%N && (c <=? 13)%N) || (c =? 32)%N || (c =? 160)%N
  || (c =? 5760)%N || ((8192 <=? c)%N && (c <=? 8202)%N)
  || (c =? 8232)%N || (c =? 8233)%N || (c =? 8239)%N || (c =? 8287)%N
  || (c =? 12288)%N || (c =? 65279)%N.

Fixpoint trimStart (s : jsstring) : jsstring :=
  match s with
  | c :: s' => if isWhiteSpace c then trimStart s' else s
  | [] => []
  end.

Definition trimEnd (s : jsstring) : jsstring := rev (trimStart (rev s)).

(** [String.prototype.trim]. *)
Definition trim (s : jsstring) : jsstring := trimEnd (trimStart s).

Fixpoint isPrefix (p s : jsstring) : bool :=
  match p, s with
  | [], _ => true
  | x :: p', y :: s' => N.eqb x y && isPrefix p' s'
  | _ :: _, [] => false
  end.

Fixpoint indexOfFrom (needle s : jsstring) (i : nat) : Z :=
  if isPrefix needle s then Z.of_nat i
  else match s with
       | [] => (-1)%Z
       | _ :: s' => indexOfFrom needle s' (S i)
       end.

(** Clamp an index to [0 .. len]. *)
Definition clampIndex (len : nat) (i : Z) : nat :=
  Nat.min (Z.to_nat i) len.

(** [s.indexOf(needle, from)]. *)
Definition indexOf (needle : jsstring) (from : Z) (s : jsstring) : Z :=
  let f := clampIndex (List.length s) from in
  indexOfFrom needle (skipn f s) f.

(** [s.substring(start, end)]; [None] is an [undefined] end.  Both bounds
    are clamped to the string and swapped when [start] exceeds [end]. *)
Definition substring (s : jsstring) (start : Z) (end_ : option Z) : jsstring :=
  let len := List.length s in
  let a := clampIndex len start in
  let b := match end_ with Some e => clampIndex len e | None => len end in
  let lo := Nat.min a b in
  let hi := Nat.max a b in
  firstn (hi - lo) (skipn lo s).

(** ** Exceptions *)

(** The only exception the three functions could raise is the [TypeError]
    of a method call on [undefined]. *)
Inductive result (A : Type) : Type :=
| Ok (a : A)
| TypeError.
Arguments Ok {A} a.
Arguments TypeError {A}.

Definition bind {A B} (r : result A) (f : A -> result B) : result B :=
  match r with
  | Ok a => f a
  | TypeError => TypeError
  end.

Notation "x <- c ;; k" := (bind c (fun x => k))
  (at level 61, c at next level, right associativity).

Fixpoint mapM {A B} (f : A -> result B) (l : list A) : result (list B) :=
  match l with
  | [] => Ok []
  | a :: l' => b <- f a ;; bs <- mapM f l' ;; Ok (b :: bs)
  end.

Fixpoint foldM {A S} (f : S -> A -> result S) (l : list A) (s : S) : result S :=
  match l with
  | [] => Ok s
  | a :: l' => s' <- f s a ;; foldM f l' s'
  end.

(** [x.trim()] where [x] may be [undefined]. *)
Definition trimU (x : option jsstring) : result jsstring :=
  match x with
  | Some s => Ok (trim s)
  | None => TypeError
  end.

(** ** Regular expressions *)

Module Regex.

(** The fragment of the regular-expression language the source uses.
    Quantifiers only ever apply to a single character class there (a run
    of [\s], of [\S], of [.], of key characters, of non-quotes, an
    optional carriage return), so repetition is [Rep] over a class.  The
    one optional group, [Opt], begins with a literal and so never matches
    the empty string. *)
Inductive regex : Type :=
| Bol                                                   (* ^ *)
| Eol                                                   (* $ *)
| Lit (s : jsstring)                                    (* literal text *)
| Rep (cls : char -> bool) (lo : nat) (hi : option nat) (* greedy cls{lo,hi} *)
| Cat (r1 r2 : regex)
| Alt (r1 r2 : regex)                                   (* r1|r2 *)
| Opt (r : regex)                                       (* (?:r)? *)
| Grp (i : nat) (r : regex).                            (* capture group i *)

Definition captures := list (nat * jsstring).

(** A position of the matcher: the code unit before it ([None] at index
    0), the input from it on, and the captures so far. *)
Record mstate : Type := MState {
  prev : option char;
  rest : jsstring;
  caps : captures
}.

Definition setCap (i : nat) (s : jsstring) (c : captures) : captures :=
  (i, s) :: c.

Fixpoint getCap (i : nat) (c : captures) : option jsstring :=
  match c with
  | [] => None
  | (j, s) :: c' => if Nat.eqb i j then Some s else getCap i c'
  end.

Definition atBol (m : bool) (st : mstate) : bool :=
  match prev st with
  | None => true
  | Some c => m && isLineTerminator c
  end.

Definition atEol (m : bool) (st : mstate) : bool :=
  match rest st with
  | [] => true
  | c :: _ => m && isLineTerminator c
  end.

Fixpoint lit (l : jsstring) (p : option char) (s : jsstring)
  : option (option char * jsstring) :=
  match l with
  | [] => Some (p, s)
  | x :: l' =>
      match s with
      | y :: s' => if N.eqb x y then lit l' (Some y) s' else None
      | [] => None
      end
  end.

Definition hiAllows (hi : option nat) : bool :=
  match hi with
  | Some O => false
  | _ => true
  end.

(** Greedy repetition of a class: take one more while allowed, and fall
    back to stopping here when the continuation fails further on. *)
Fixpoint rep (cls : char -> bool) (k : mstate -> option mstate) (cps : captures)
    (lo : nat) (hi : option nat) (p : option char) (s : jsstring)
  : option mstate :=
  let stop := match lo with
              | O => k (MState p s cps)
              | S _ => None
              end in
  match s with
  | c :: s' =>
      if cls c && hiAllows hi then
        match rep cls k cps (Nat.pred lo) (option_map Nat.pred hi) (Some c) s' with
        | Some r => Some r
        | None => stop
        end
      else stop
  | [] => stop
  end.

(** What was consumed between two positions of the same input. *)
Definition consumed (st st1 : mstate) : jsstring :=
  firstn (List.length (rest st) - List.length (rest st1)) (rest st).

(** Backtracking matcher in continuation-passing style; [m] is the
    multiline flag. *)
Fixpoint exec (m : bool) (r : regex) (st : mstate)
    (k : mstate -> option mstate) : option mstate :=
  match r with
  | Bol => if atBol m st then k st else None
  | Eol => if atEol m st then k st else None
  | Lit l =>
      match lit l (prev st) (rest st) with
      | Some (p, s) => k (MState p s (caps st))
      | None => None
      end
  | Rep cls lo hi => rep cls k (caps st) lo hi (prev st) (rest st)
  | Cat r1 r2 => exec m r1 st (fun st1 => exec m r2 st1 k)
  | Alt r1 r2 =>
      match exec m r1 st k with
      | Some res => Some res
      | None => exec m r2 st k
      end
  | Opt r1 =>
      match exec m r1 st k with
      | Some res => Some res
      | None => k st
      end
  | Grp i r1 =>
      exec m r1 st (fun st1 =>
        k (MState (prev st1) (rest st1) (setCap i (consumed st st1) (caps st1))))
  end.

(** A match anchored at the current position: its length and captures. *)
Definition matchAt (m : bool) (r : regex) (p : option char) (s : jsstring)
  : option (nat * captures) :=
  match exec m r (MState p s []) (fun st => Some st) with
  | Some st => Some (List.length s - List.length (rest st), caps st)
  | None => None
  end.

(** The match array of [RegExp.prototype.exec]. *)
Record jsmatch : Type := JsMatch {
  index : nat;
  matched : jsstring;      (* element 0 *)
  groups : captures
}.

(** Element [i] of the match array; [None] is [undefined]. *)
Definition group (mt : jsmatch) (i : nat) : option jsstring :=
  getCap i (groups mt).

Fixpoint searchFrom (m : bool) (r : regex) (i : nat) (p : option char)
    (s : jsstring) : option jsmatch :=
  match matchAt m r p s with
  | Some (n, cps) => Some (JsMatch i (firstn n s) cps)
  | None =>
      match s with
      | [] => None
      | c :: s' => searchFrom m r (S i) (Some c) s'
      end
  end.

(** [s.match(re)] for a regular expression without the [g] flag: the
    leftmost match. *)
Definition jsMatch (m : bool) (r : regex) (s : jsstring) : option jsmatch :=
  searchFrom m r 0 None s.

(** [re.test(s)]. *)
Definition test (m : bool) (r : regex) (s : jsstring) : bool :=
  match jsMatch m r s with
  | Some _ => true
  | None => false
  end.

(** [s.search(re)]. *)
Definition search (m : bool) (r : regex) (s : jsstring) : Z :=
  match jsMatch m r s with
  | Some mt => Z.of_nat (index mt)
  | None => (-1)%Z
  end.

(** [s.split(re)] for a separator without capture groups.  [skip] counts
    the code units of a separator still to be passed over, [cur] is the
    piece being collected, reversed.  An empty match splits only when the
    current piece is not empty. *)
Fixpoint splitGo (m : bool) (r : regex) (p : option char) (s : jsstring)
    (skip : nat) (cur : jsstring) : list jsstring :=
  match s with
  | [] => [rev cur]
  | c :: s' =>
      match skip with
      | S n => splitGo m r (Some c) s' n cur
      | O =>
          match matchAt m r p s with
          | Some (S n, _) => rev cur :: splitGo m r (Some c) s' n []
          | Some (O, _) =>
              match cur with
              | [] => splitGo m r (Some c) s' 0 [c]
              | _ :: _ => rev cur :: splitGo m r (Some c) s' 0 [c]
              end
          | None => splitGo m r (Some c) s' 0 (c :: cur)
          end
      end
  end.

Definition split (m : bool) (r : regex) (s : jsstring) : list jsstring :=
  match s with
  | [] => match matchAt m r None [] with
          | Some _ => []
          | None => [[]]
          end
  | _ :: _ => splitGo m r None s 0 []
  end.

(** [s.replace(re, by)] for a regular expression with the [g] flag and a
    replacement text without [$] patterns. *)
Fixpoint replaceGo (m : bool) (r : regex) (by_ : jsstring) (p : option char)
    (s : jsstring) (skip : nat) : jsstring :=
  match s with
  | [] =>
      match skip with
      | S _ => []
      | O => match matchAt m r p [] with
             | Some _ => by_
             | None => []
             end
      end
  | c :: s' =>
      match skip with
      | S n => replaceGo m r by_ (Some c) s' n
      | O =>
          match matchAt m r p s with
          | Some (S n, _) => by_ ++ replaceGo m r by_ (Some c) s' n
          | Some (O, _) => by_ ++ c :: replaceGo m r by_ (Some c) s' 0
          | None => c :: replaceGo m r by_ (Some c) s' 0
          end
      end
  end.

Definition replaceAll (m : bool) (r : regex) (by_ : jsstring) (s : jsstring)
  : jsstring :=
  replaceGo m r by_ None s 0.

(** Character classes. *)
Definition ws (c : char) : bool := isWhiteSpace c.            (* \s *)
Definition nonws (c : char) : bool := negb (isWhiteSpace c).  (* \S *)
Definition dot (c : char) : bool := negb (isLineTerminator c). (* . *)
Definition notQuote (c : char) : bool := negb (N.eqb c 34).   (* any but the double quote *)
(** [[A-Za-z0-9_\-]] *)
Definition keyChar (c : char) : bool :=
  ((65 <=? c)%N && (c <=? 90)%N) || ((97 <=? c)%N && (c <=? 122)%N)
  || ((48 <=? c)%N && (c <=? 57)%N) || (c =? 95)%N || (c =? 45)%N.
Definition isChar (x : char) (c : char) : bool := N.eqb c x.

Definition plus (cls : char -> bool) : regex := Rep cls 1 None.
Definition star (cls : char -> bool) : regex := Rep cls 0 None.
Definition exactly (n : nat) (cls : char -> bool) : regex := Rep cls n (Some n).

End Regex.
Import Regex.

Declare Scope regex_scope.
Delimit Scope regex_scope with re.
Bind Scope regex_scope with regex.
Notation "r1 +++ r2" := (Cat r1 r2)
  (at level 60, right associativity) : regex_scope.

(** ** Objects *)

Module Obj.

(** The values that end up in a qualifier object.  An array never holds
    an array here (the source wraps a value only when [Array.isArray] has
    said no), so the elements are kept apart as [atom].  [ABuiltin] is an
    object or function of the runtime reached through the prototype
    chain, named by where it lives. *)
Inductive atom : Type :=
| AStr (s : jsstring)
| ATrue
| ANum (n : N)
| ABuiltin (name : jsstring).

Inductive value : Type :=
| VAtom (a : atom)
| VArr (l : list atom).

(** An object created by the literal [{}]: its own properties in creation
    order, and its prototype, which is [Object.prototype] ([None]) until
    the inherited [__proto__] setter replaces it by an array
    ([Some elements]; the array's own prototype is [Array.prototype]). *)
Record object : Type := Object {
  own : list (jsstring * value);
  proto : option (list atom)
}.

Definition empty : object := Object [] None.

Fixpoint assoc (k : jsstring) (l : list (jsstring * value)) : option value :=
  match l with
  | [] => None
  | (k', v) :: l' => if jsstring_eqb k k' then Some v else assoc k l'
  end.

Fixpoint update (k : jsstring) (v : value) (l : list (jsstring * value))
  : list (jsstring * value) :=
  match l with
  | [] => []
  | (k', v') :: l' =>
      if jsstring_eqb k k' then (k', v) :: l' else (k', v') :: update k v l'
  end.

Definition memStr (k : jsstring) (l : list jsstring) : bool :=
  existsb (jsstring_eqb k) l.

(** The data properties of [Object.prototype] (ECMAScript, with Annex B). *)
Definition objectPrototypeNames : list jsstring :=
  List.map str
    [ "constructor"; "__defineGetter__"; "__defineSetter__"; "hasOwnProperty";
      "__lookupGetter__"; "__lookupSetter__"; "isPrototypeOf";
      "propertyIsEnumerable"; "toString"; "valueOf"; "toLocaleString" ]%string.

(** The properties of [Array.prototype] (ECMAScript 2023). *)
Definition arrayPrototypeNames : list jsstring :=
  List.map str
    [ "length"; "constructor"; "at"; "concat"; "copyWithin"; "fill"; "find";
      "findIndex"; "findLast"; "findLastIndex"; "lastIndexOf"; "pop"; "push";
      "reverse"; "shift"; "unshift"; "slice"; "sort"; "splice"; "includes";
      "indexOf"; "join"; "keys"; "entries"; "values"; "forEach"; "filter";
      "flat"; "flatMap"; "map"; "every"; "some"; "reduce"; "reduceRight";
      "toLocaleString"; "toString"; "toReversed"; "toSorted"; "toSpliced";
      "with" ]%string.

Definition isDigit (c : char) : bool := (48 <=? c)%N && (c <=? 57)%N.

Fixpoint digitsValue (acc : N) (s : jsstring) : option N :=
  match s with
  | [] => Some acc
  | c :: s' =>
      if isDigit c then digitsValue (acc * 10 + (c - 48))%N s' else None
  end.

(** A property key that is an array index: the canonical decimal form of
    an integer below 2^32 - 1. *)
Definition arrayIndex (k : jsstring) : option N :=
  match k with
  | [] => None
  | c :: k' =>
      if (c =? 48)%N && negb (Nat.eqb (List.length k') 0) then None
      else match digitsValue 0 k with
           | Some n => if (n <? 4294967295)%N then Some n else None
           | None => None
           end
  end.

(** What [Object.prototype] answers for [k] on behalf of [o]. *)
Definition objectPrototypeGet (o : object) (k : jsstring) : option value :=
  if jsstring_eqb k (str "__proto__") then
    match proto o with
    | None => Some (VAtom (ABuiltin (str "Object.prototype")))
    | Some l => Some (VArr l)
    end
  else if memStr k objectPrototypeNames then
    Some (VAtom (ABuiltin (str "Object.prototype." ++ k)))
  else None.

(** What an array with elements [l] answers, before [Array.prototype] and
    [Object.prototype] are asked. *)
Definition arrayOwnGet (l : list atom) (k : jsstring) : option value :=
  match arrayIndex k with
  | Some i =>
      match nth_error l (N.to_nat i) with
      | Some a => Some (VAtom a)
      | None => None
      end
  | None =>
      if jsstring_eqb k (str "length")
      then Some (VAtom (ANum (N.of_nat (List.length l))))
      else None
  end.

(** [o[k]]; [None] is [undefined]. *)
Definition get (o : object) (k : jsstring) : option value :=
  match assoc k (own o) with
  | Some v => Some v
  | None =>
      match proto o with
      | None => objectPrototypeGet o k
      | Some l =>
          match arrayOwnGet l k with
          | Some v => Some v
          | None =>
              if memStr k arrayPrototypeNames
              then Some (VAtom (ABuiltin (str "Array.prototype." ++ k)))
              else objectPrototypeGet o k
          end
      end
  end.

(** [o[k] = v].  An own property is overwritten in place.  Otherwise the
    only accessor on the chain is [__proto__], whose setter replaces the
    prototype when given an object and ignores a primitive; every other
    inherited property is a writable data property, so the assignment
    creates an own property, last in creation order. *)
Definition set (o : object) (k : jsstring) (v : value) : object :=
  match assoc k (own o) with
  | Some _ => Object (update k v (own o)) (proto o)
  | None =>
      if jsstring_eqb k (str "__proto__") then
        match v with
        | VArr l => Object (own o) (Some l)
        | VAtom _ => o
        end
      else Object (own o ++ [(k, v)]) (proto o)
  end.

(** [o[k].push(a)] where [o[k]] was read as an array: the own value when
    [k] is an own key, else the prototype array itself, which is the only
    array the chain can answer with (through [__proto__]). *)
Definition push (o : object) (k : jsstring) (a : atom) : object :=
  match assoc k (own o) with
  | Some (VArr l) => Object (update k (VArr (l ++ [a])) (own o)) (proto o)
  | Some (VAtom _) => o
  | None =>
      match proto o with
      | Some l => Object (own o) (Some (l ++ [a]))
      | None => o
      end
  end.

Fixpoint insertIndex (x : N * jsstring) (l : list (N * jsstring))
  : list (N * jsstring) :=
  match l with
  | [] => [x]
  | y :: l' => if (fst x <? fst y)%N then x :: l else y :: insertIndex x l'
  end.

Definition indexKeys (ks : list jsstring) : list (N * jsstring) :=
  fold_left
    (fun acc k => match arrayIndex k with
                  | Some i => insertIndex (i, k) acc
                  | None => acc
                  end) ks [].

Definition isStringKey (k : jsstring) : bool :=
  match arrayIndex k with
  | Some _ => false
  | None => true
  end.

(** [Object.keys(o)]: the own keys, array indices first in ascending
    order, then the other keys in creation order. *)
Definition keys (o : object) : list jsstring :=
  let ks := List.map fst (own o) in
  List.map snd (indexKeys ks) ++ filter isStringKey ks.

Definition decimal (n : N) : jsstring :=
  str (DecimalString.NilZero.string_of_uint (N.to_uint n)).

(** [ToString] of an element.  The text of a built-in is left to the
    implementation by the language; no array the parser appends to ends
    in one. *)
Definition toStr (a : atom) : jsstring :=
  match a with
  | AStr s => s
  | ATrue => str "true"
  | ANum n => decimal n
  | ABuiltin name => str "[" ++ name ++ str "]"
  end.

(** [arr[arr.length - 1] += s]. *)
Definition appendLast (l : list atom) (s : jsstring) : list atom :=
  match rev l with
  | [] => l
  | a :: front => rev front ++ [AStr (toStr a ++ s)]
  end.

End Obj.
Import Obj.

(** ** The regular expressions of the source *)

(** [/^LOCUS/m] (line 5) *)
Definition re_LOCUS : regex := (Bol +++ Lit (str "LOCUS"))%re.
(** [/^>/m] (lines 6 and 12) *)
Definition re_gt : regex := (Bol +++ Lit [GT])%re.
(** [/\r?\n/] (lines 14 and 35) *)
Definition re_newline : regex := (Rep (isChar CR) 0 (Some 1) +++ Lit [LF])%re.
(** [/\s+/g] (line 16) *)
Definition re_spaces : regex := plus ws.
(** [/^LOCUS\s+(.+)$/m] (line 25) *)
Definition re_locusLine : regex :=
  (Bol +++ Lit (str "LOCUS") +++ plus ws +++ Grp 1 (plus dot) +++ Eol)%re.
(** [/^FEATURES/m] (line 29) *)
Definition re_FEATURES : regex := (Bol +++ Lit (str "FEATURES"))%re.
(** [/^ORIGIN/m] (line 31) *)
Definition re_ORIGIN : regex := (Bol +++ Lit (str "ORIGIN"))%re.
(** [/^\s{5}(\S+)\s+(.+)/] (line 40) *)
Definition re_feat : regex :=
  (Bol +++ exactly 5 ws +++ Grp 1 (plus nonws) +++ plus ws +++ Grp 2 (plus dot))%re.
(** The qualifier pattern of line 48: start of input, 21 of [\s], a
    slash, group 1 a run of key characters, then optionally an equals sign
    followed by either a quoted run of non-quotes (group 2) or a run of
    [\S] (group 3). *)
Definition re_qual : regex :=
  (Bol +++ exactly 21 ws +++ Lit (str "/") +++ Grp 1 (plus keyChar) +++
   Opt (Lit (str "=") +++
        Alt (Lit [DQUOTE] +++ Grp 2 (star notQuote) +++ Lit [DQUOTE])
            (Grp 3 (plus nonws))))%re.
(** [/^\s{21}(.+)/] (line 60) *)
Definition re_cont : regex := (Bol +++ exactly 21 ws +++ Grp 1 (plus dot))%re.

(** ** detectFormat (lines 3-8) *)

Inductive format : Type := genbank | fasta | unknown.

Definition detectFormat (text : jsstring) : format :=
  let trimmed := trim text in
  if test true re_LOCUS text then genbank
  else if test true re_gt trimmed then fasta
  else unknown.

(** ** parseFasta (lines 10-19) *)

Record FastaRecord : Type := mkFastaRecord {
  header : jsstring;
  sequence : jsstring;
  length : nat
}.

(** [filter(Boolean)] on strings keeps the non-empty ones. *)
Definition truthy (s : jsstring) : bool :=
  match s with
  | [] => false
  | _ :: _ => true
  end.

(** The callback of [records.map]: [lines.shift()] is [undefined] on an
    empty array, and [.trim()] on it raises. *)
Definition fastaRecord (rec : jsstring) : result FastaRecord :=
  let lines := split false re_newline rec in
  let shifted := match lines with
                 | [] => (None, [])
                 | l :: ls => (Some l, ls)
                 end in
  header <- trimU (fst shifted) ;;
  let sequence := replaceAll false re_spaces [] (concat (snd shifted)) in
  Ok (mkFastaRecord header sequence (List.length sequence)).

Definition parseFasta (text : jsstring) : result (list FastaRecord) :=
  let records := filter truthy (List.map trim (split true re_gt text)) in
  mapM fastaRecord records.

(** ** parseGenBank (lines 21-76) *)

Record Feature : Type := mkFeature {
  key : option jsstring;          (* featMatch[1] *)
  location : jsstring;
  qualifiers : object
}.

Record GenBankDocument : Type := mkGenBank {
  locus : option jsstring;        (* [None] is null *)
  features : list Feature
}.

(** The state of the loop over the lines: [result.features] and [current]. *)
Record loopState : Type := mkLoop {
  done : list Feature;
  current : option Feature
}.

(** Lines 50-55: the value of the qualifier and where it goes. *)
Definition qualifierValue (qm : jsmatch) : atom :=
  match group qm 2 with
  | Some s => AStr s
  | None =>
      match group qm 3 with
      | Some s => AStr s
      | None => ATrue
      end
  end.

(** A property key made from [qualMatch[1]]. *)
Definition propertyKey (g : option jsstring) : jsstring :=
  match g with
  | Some k => k
  | None => str "undefined"
  end.

Definition addQualifier (q : object) (qKey : jsstring) (qVal : atom) : object :=
  match get q qKey with
  | None => set q qKey (VAtom qVal)
  | Some (VArr _) => push q qKey qVal
  | Some (VAtom a) => set q qKey (VArr [a; qVal])
  end.

(** [Object.keys(q).slice(-1)[0]] (line 63); [None] is [undefined]. *)
Definition lastKeyOf (q : object) : option jsstring :=
  last (List.map Some (keys q)) None.

(** Lines 65-68: the continuation text goes to the value under [lastKey]
    when that value is a string or an array, and nowhere otherwise. *)
Definition appendContinuation (q : object) (lastKey addition : jsstring)
  : object :=
  match get q lastKey with
  | Some (VAtom (AStr prev)) =>
      set q lastKey (VAtom (AStr (trim (prev ++ str " " ++ addition))))
  | Some (VArr l) =>
      set q lastKey (VArr (appendLast l (str " " ++ addition)))
  | _ => q
  end.

Definition withQualifiers (f : Feature) (q : object) : Feature :=
  mkFeature (key f) (location f) q.

(** The callback of [lines.forEach] (lines 38-72). *)
Definition step (st : loopState) (line : jsstring) : result loopState :=
  match jsMatch false re_feat line with
  | Some featMatch =>
      let done' := match current st with
                   | Some c => done st ++ [c]
                   | None => done st
                   end in
      loc <- trimU (group featMatch 2) ;;
      Ok (mkLoop done' (Some (mkFeature (group featMatch 1) loc Obj.empty)))
  | None =>
      match jsMatch false re_qual line, current st with
      | Some qualMatch, Some cur =>
          let qKey := propertyKey (group qualMatch 1) in
          let qVal := qualifierValue qualMatch in
          Ok (mkLoop (done st)
                (Some (withQualifiers cur (addQualifier (qualifiers cur) qKey qVal))))
      | _, _ =>
          match jsMatch false re_cont line, current st with
          | Some contMatch, Some cur =>
              match lastKeyOf (qualifiers cur) with
              | Some lastKey =>
                  if truthy lastKey then
                    addition <- trimU (group contMatch 1) ;;
                    Ok (mkLoop (done st)
                          (Some (withQualifiers cur
                                   (appendContinuation (qualifiers cur)
                                      lastKey addition))))
                  else Ok st
              | None => Ok st
              end
          | _, _ => Ok st
          end
      end
  end.

(** Lines 29-33: the text of the feature table, when there is a line
    starting with FEATURES. *)
Definition featuresText (text : jsstring) : option jsstring :=
  let featuresStart := search true re_FEATURES text in
  if (featuresStart =? -1)%Z then None
  else
    let originIndex := search true re_ORIGIN text in
    let endIndex := if negb (originIndex =? -1)%Z then originIndex
                    else indexOf (LF :: str "//") featuresStart text in
    Some (substring text featuresStart
            (if (endIndex =? -1)%Z then None else Some endIndex)).

(** Lines 25-26: the locus; [None] is the initial [null]. *)
Definition locusOf (text : jsstring) : option jsstring :=
  match jsMatch true re_locusLine text with
  | Some locusMatch => Some (trim (matched locusMatch))
  | None => None
  end.

(** Lines 29-75: [result.features] at the return. *)
Definition featureList (text : jsstring) : result (list Feature) :=
  match featuresText text with
  | None => Ok []
  | Some ft =>
      let lines := split false re_newline ft in
      st <- foldM step lines (mkLoop [] None) ;;
      Ok (match current st with
          | Some c => done st ++ [c]
          | None => done st
          end)
  end.

Definition parseGenBank (text : jsstring) : result GenBankDocument :=
  let locus := locusOf text in
  fs <- featureList text ;;
  Ok (mkGenBank locus fs).

(** ** Reference definitions

    Direct, regex-free descriptions of what the pieces above compute,
    against which the embedded code is compared below. *)

Module Spec.

(** The text cut at every [>] that begins a line.  [lineStart] says
    whether the position is index 0 or follows a line terminator. *)
Fixpoint gtChunksFrom (lineStart : bool) (s : jsstring) : list jsstring :=
  match s with
  | [] => [[]]
  | c :: s' =>
      if lineStart && (c =? GT)%N then [] :: gtChunksFrom false s'
      else match gtChunksFrom (isLineTerminator c) s' with
           | ch :: chs => (c :: ch) :: chs
           | [] => [[c]]
           end
  end.

Definition gtChunks (text : jsstring) : list jsstring :=
  gtChunksFrom true text.

(** The lines of a text: cut at every line feed, a carriage return just
    before the line feed going with it. *)
Fixpoint linesOf (s : jsstring) : list jsstring :=
  match s with
  | [] => [[]]
  | c :: s' =>
      if (c =? LF)%N then [] :: linesOf s'
      else
        match s' with
        | d :: s'' =>
            if (c =? CR)%N && (d =? LF)%N then [] :: linesOf s''
            else match linesOf s' with
                 | l :: ls => (c :: l) :: ls
                 | [] => [[c]]
                 end
        | [] => [[c]]
        end
  end.

(** The index at which the first line that begins with [w] starts.
    [ls] says whether the position begins a line, [i] is its index. *)
Fixpoint firstLineFrom (w : jsstring) (ls : bool) (i : nat) (s : jsstring)
  : option nat :=
  if ls && isPrefix w s then Some i
  else match s with
       | [] => None
       | c :: s' => firstLineFrom w (isLineTerminator c) (S i) s'
       end.

Definition firstLineWith (w : jsstring) (text : jsstring) : option nat :=
  firstLineFrom w true 0 text.

(** All white space removed. *)
Definition stripWhitespace (s : jsstring) : jsstring := filter nonws s.

(** A chunk is blank when nothing is left of it after trimming. *)
Definition notBlank (chunk : jsstring) : bool := truthy (trim chunk).

(** The record of a chunk as the specification words it: the header is
    the chunk's first line, trimmed; the sequence is the remaining lines
    joined and stripped of white space. *)
Definition recordOfChunk (chunk : jsstring) : FastaRecord :=
  let ls := linesOf chunk in
  let sequence := stripWhitespace (concat (tl ls)) in
  mkFastaRecord (trim (hd [] ls)) sequence (List.length sequence).

(** The record the code builds: as above, but from the trimmed chunk. *)
Definition recordOfTrimmedChunk (chunk : jsstring) : FastaRecord :=
  recordOfChunk (trim chunk).

(** [s] with a line feed put in after every [w] code units that are
    followed by more; [room] is what is left of the current line. *)
Fixpoint rewrapGo (w : nat) (room : nat) (s : jsstring) : jsstring :=
  match s with
  | [] => []
  | c :: s' =>
      match room with
      | O => LF :: c :: rewrapGo w (Nat.pred w) s'
      | S n => c :: rewrapGo w n s'
      end
  end.

Definition rewrap (w : nat) (s : jsstring) : jsstring := rewrapGo w w s.

(** A record written out as FASTA text: the header after [>], then the
    sequence in lines of [w] code units. *)
Definition fastaText (r : FastaRecord) (w : nat) : jsstring :=
  GT :: header r ++ [LF] ++ rewrap w (sequence r) ++ [LF].

(** No [>] at the beginning of a line; [ls] says whether the text
    itself begins a line. *)
Fixpoint noGtAtLineStart (ls : bool) (s : jsstring) : bool :=
  match s with
  | [] => true
  | c :: s' =>
      negb (ls && (c =? GT)%N) && noGtAtLineStart (isLineTerminator c) s'
  end.

(** A text that begins, or ends, with something other than white space. *)
Definition headNonws (x : jsstring) : bool :=
  match x with
  | c :: _ => nonws c
  | [] => false
  end.

Definition lastNonws (x : jsstring) : bool := headNonws (rev x).

Definition notLF (c : char) : bool := negb (c =? LF)%N.

(** Whether a position, given the code unit before it, begins a line. *)
Definition lineStart (p : option char) : bool :=
  match p with
  | None => true
  | Some c => isLineTerminator c
  end.

(** A text that is at its end or at a line terminator. *)
Definition lineEnds (post : jsstring) : bool :=
  match post with
  | [] => true
  | x :: _ => isLineTerminator x
  end.

(** The length of the leading run of a class. *)
Fixpoint leadingRun (cls : char -> bool) (s : jsstring) : nat :=
  match s with
  | c :: s' => if cls c then S (leadingRun cls s') else 0
  | [] => 0
  end.

(** The length of the leading run of white space of a line. *)
Definition leadingWs (s : jsstring) : nat := leadingRun ws s.

End Spec.
Import Spec.

(** The position reached from [p] after the code units [w]. *)
Definition advance (p : option char) (w : jsstring) : option char :=
  fold_left (fun _ c => Some c) w p.


(** ** Sample inputs *)

Module Samples.

(** A line indented by the 21 columns of a qualifier. *)
Definition qualifierLine (s : jsstring) : jsstring := spaces 21 ++ s.

(** A feature table with one CDS feature followed by the given lines. *)
Definition featureTable (ls : list jsstring) : jsstring :=
  text_of_lines
    ([str "FEATURES             Location/Qualifiers";
      spaces 5 ++ str "CDS             1..100"] ++ ls).

(** The CDS feature of [featureTable] with the given own qualifiers. *)
Definition cds (q : list (jsstring * value)) : Feature :=
  mkFeature (Some (str "CDS")) (str "1..100") (Object q None).

Definition scalar (s : String.string) : value := VAtom (AStr (str s)).

(** Two keys, the first repeated after the second, then a continuation. *)
Definition repeatedEarlierKey : jsstring :=
  featureTable
    [qualifierLine (str "/a=1"); qualifierLine (str "/b=2");
     qualifierLine (str "/a=3"); qualifierLine (str "cont")].

(** A key that is an array index, added after an ordinary key. *)
Definition indexKeyAfterName : jsstring :=
  featureTable
    [qualifierLine (str "/gene=x"); qualifierLine (str "/1=y");
     qualifierLine (str "cont")].



(** An ORIGIN line above the FEATURES line. *)
Definition originFirst : jsstring :=
  text_of_lines
    [str "ORIGIN";
     spaces 5 ++ str "gene            1..5";
     str "FEATURES             Location/Qualifiers";
     spaces 5 ++ str "CDS             1..100"].

(** A line that begins with two slashes and goes on, in the middle of
    the table. *)
Definition slashComment : jsstring :=
  featureTable
    [str "//x"; spaces 5 ++ str "gene            3..4"; str "//"].

(** Tables that end at an ORIGIN line, at two slashes, and at the end of
    the text. *)
Definition withOrigin : jsstring :=
  text_of_lines
    [str "LOCUS x"; str "FEATURES"; spaces 5 ++ str "CDS 1..2";
     str "ORIGIN"; str "//"].
Definition withSlashes : jsstring :=
  text_of_lines [str "FEATURES"; spaces 5 ++ str "CDS 1..2"; str "//"].
Definition withNeither : jsstring :=
  text_of_lines [str "FEATURES"; spaces 5 ++ str "CDS 1..2"].

(** A continuation indented by 22 spaces, and the table without it. *)
Definition quotedGene : jsstring :=
  qualifierLine (str "/gene=" ++ [DQUOTE] ++ str "abc" ++ [DQUOTE]).
Definition deeperLine : jsstring := spaces 22 ++ str "def".
Definition tabbedFeature : jsstring := repeat TAB 5 ++ str "gene 7..9".

(** A flag qualifier followed by a continuation line. *)
Definition flagThenText : jsstring :=
  featureTable [qualifierLine (str "/pseudo"); qualifierLine (str "more text")].

(** A FASTA record whose header line is empty. *)
Definition emptyHeaderChunk : jsstring := LF :: str "ACGT" ++ [LF].
Definition emptyHeader : jsstring := GT :: emptyHeaderChunk.

(** A qualifier named like a member of [Object.prototype]. *)
Definition inheritedName : jsstring :=
  featureTable
    [qualifierLine (str "/constructor=a"); qualifierLine (str "/constructor=b")].
Definition inheritedNameOnce : jsstring :=
  featureTable [qualifierLine (str "/constructor=a")].

(** A LOCUS line with nothing after the keyword, alone and followed by
    another line. *)
Definition bareLocus : jsstring := text_of_lines [str "LOCUS"].
Definition bareLocusThenLine : jsstring :=
  text_of_lines [str "LOCUS"; str "DEFINITION x"].

(** A sequence with a [>] in it. *)
Definition gtInSequence : jsstring :=
  text_of_lines [str ">h"; str "AC>GT"].
Definition gtRecord : FastaRecord := mkFastaRecord (str "h") (str "AC>GT") 5.

(** An opening quote that is never closed. *)
Definition openQuoteLine : jsstring :=
  qualifierLine (str "/gene=" ++ [DQUOTE] ++ str "abc def").

(** A LOCUS line of the usual shape, below a comment line. *)
Definition locusSample : jsstring :=
  text_of_lines [str "# note"; str "LOCUS   NC_001 5 bp"; str "FEATURES"].

(** Two records, as in the example of the specification. *)
Definition twoRecords : jsstring :=
  text_of_lines [str ">seq1"; str "ACGT"; str "ACGT"; str ">seq2"; str "TTTT"].

Definition inFeature (q : list (jsstring * value)) : loopState :=
  mkLoop [] (Some (cds q)).

End Samples.
Import Samples.

(** ** handleFile (lines 78-115)

    The state of the component and the three things that change it: the
    synchronous part of [handleFile], and the [onload] and [onerror]
    callbacks of the reader.  Each [setX(v)] is a write to the field. *)

Module Facade.

(** [parsed]: [{ fasta: data }] or [{ genbank: data }]. *)
Inductive parsedData : Type :=
| PFasta (data : list FastaRecord)
| PGenbank (data : GenBankDocument).

(** The four [useState] cells; [type] is [None] for the initial empty
    string and [parsed] is [None] for [null]. *)
Record uiState : Type := mkUi {
  filename : jsstring;
  type : option format;
  parsed : option parsedData;
  error : jsstring
}.

Definition initial : uiState := mkUi [] None None [].

Definition setFilename (v : jsstring) (st : uiState) : uiState :=
  mkUi v (type st) (parsed st) (error st).
Definition setType (v : format) (st : uiState) : uiState :=
  mkUi (filename st) (Some v) (parsed st) (error st).
Definition setParsed (v : option parsedData) (st : uiState) : uiState :=
  mkUi (filename st) (type st) v (error st).
Definition setError (v : jsstring) (st : uiState) : uiState :=
  mkUi (filename st) (type st) (parsed st) v.

(** Lines 84-89 and 114: [file] is the name of [e.target.files[0]], or
    [None] when there is no such file. *)
Definition handleFile (st : uiState) (file : option jsstring) : uiState :=
  let st1 := setError [] st in
  let st2 := setParsed None st1 in
  match file with
  | None => st2
  | Some name => setFilename name st2
  end.

(** Lines 91-112: the reader has the text.  [message] is [err.message]
    of the exception caught, whose wording is the engine's. *)
Definition onload (message : jsstring) (st : uiState) (text : jsstring)
  : uiState :=
  let fmt := detectFormat text in
  let st1 := setType fmt st in
  match fmt with
  | fasta =>
      match parseFasta text with
      | Ok data => setParsed (Some (PFasta data)) st1
      | TypeError => setError (str "Failed to parse FASTA: " ++ message) st1
      end
  | genbank =>
      match parseGenBank text with
      | Ok data => setParsed (Some (PGenbank data)) st1
      | TypeError => setError (str "Failed to parse GenBank: " ++ message) st1
      end
  | unknown => setError (str "Unknown or unsupported file format") st1
  end.

(** Line 113. *)
Definition onerror (st : uiState) : uiState :=
  setError (str "Failed to read file") st.

End Facade.

(** ** Further reference definitions *)

(** A line that starts a feature, and the key and location it gives. *)
Definition isFeatureLine (line : jsstring) : bool :=
  match jsMatch false re_feat line with
  | Some _ => true
  | None => false
  end.

Definition featureHead (line : jsstring) : option jsstring * jsstring :=
  match jsMatch false re_feat line with
  | Some m => (group m 1, match group m 2 with
                          | Some g => trim g
                          | None => []
                          end)
  | None => (None, [])
  end.

Definition headOf (f : Feature) : option jsstring * jsstring :=
  (key f, location f).

(** [result.features] as it would be returned from the state. *)
Definition openFeatures (st : loopState) : list Feature :=
  match current st with
  | Some c => done st ++ [c]
  | None => done st
  end.

(** A text that is empty or ends with a line terminator. *)
Definition endsLine (a : jsstring) : bool := lineEnds (rev a).

(** What may follow the key of a qualifier written without a value:
    nothing that continues the key, and no equals sign unless it is
    followed by white space or by the end of the line. *)
Definition flagTail (tail : jsstring) : bool :=
  match tail with
  | [] => true
  | c :: tail' =>
      negb (keyChar c) &&
      (if (c =? 61)%N then Nat.eqb (leadingRun nonws tail') 0 else true)
  end.

(** The qualifier object after the values [vs] have been added under
    [k], one after the other. *)
Definition addAll (q : object) (k : jsstring) (vs : list atom) : object :=
  fold_left (fun q' v => addQualifier q' k v) vs q.

(** Own keys as the qualifier pattern writes them. *)
Definition wellFormedKey (k : jsstring) : bool :=
  truthy k && forallb keyChar k.

(** A feature whose qualifier object has only own keys of that form,
    none of them [__proto__]. *)
Definition namedWell (f : Feature) : Prop :=
  forall k, In k (List.map fst (own (qualifiers f))) ->
            wellFormedKey k = true /\ k <> str "__proto__".

(** A qualifier line with its value in double quotes, and the entry it
    stands for. *)
Definition quotedQualifier (kv : jsstring * jsstring) : jsstring :=
  spaces 21 ++ str "/" ++ fst kv ++ str "=" ++ [DQUOTE] ++ snd kv ++ [DQUOTE].

Definition scalarEntry (kv : jsstring * jsstring) : jsstring * value :=
  (fst kv, VAtom (AStr (snd kv))).



(** ** Facts about the matcher *)

Lemma advance_app p a b : advance p (a ++ b) = advance (advance p a) b.
Proof. unfold advance. apply fold_left_app. Qed.

Lemma advance_cons p c w : advance p (c :: w) = advance (Some c) w.
Proof. reflexivity. Qed.

Lemma advance_snoc p w c : advance p (w ++ [c]) = Some c.
Proof. rewrite advance_app. reflexivity. Qed.

(** A successful repetition consumed a run of the class, within its
    bounds, and handed the position after it to the continuation. *)
Lemma rep_inv cls k cps : forall s lo hi p res,
  rep cls k cps lo hi p s = Some res ->
  exists w s', s = w ++ s' /\ forallb cls w = true /\ lo <= List.length w /\
               k (MState (advance p w) s' cps) = Some res.
Proof.
  induction s as [|c s IH]; intros lo hi p res H; simpl in H.
  - destruct lo; [|discriminate].
    exists [], []. repeat split; auto.
  - destruct (cls c && hiAllows hi) eqn:E.
    + destruct (rep cls k cps (Nat.pred lo) (option_map Nat.pred hi) (Some c) s)
        as [r|] eqn:R.
      * inversion H; subst r. apply IH in R.
        destruct R as (w & s' & -> & Hw & Hlo & Hk).
        apply andb_prop in E. destruct E as [Ec _].
        exists (c :: w), s'. repeat split; simpl; auto.
        -- rewrite Ec. exact Hw.
        -- lia.
      * destruct lo; [|discriminate].
        exists [], (c :: s). repeat split; auto.
    + destruct lo; [|discriminate].
      exists [], (c :: s). repeat split; auto.
Qed.

Lemma lit_inv : forall l p s p' s',
  lit l p s = Some (p', s') -> s = l ++ s' /\ p' = advance p l.
Proof.
  induction l as [|x l IH]; intros p s p' s' H; simpl in H.
  - inversion H; subst. split; reflexivity.
  - destruct s as [|y s]; [discriminate|].
    destruct (N.eqb x y) eqn:E; [|discriminate].
    apply N.eqb_eq in E. subst y.
    apply IH in H. destruct H as [-> ->]. split; reflexivity.
Qed.

Lemma lit_app : forall l p s, lit l p (l ++ s) = Some (advance p l, s).
Proof.
  induction l as [|x l IH]; intros p s; simpl.
  - reflexivity.
  - rewrite N.eqb_refl. apply IH.
Qed.

(** Whatever a successful match returns came out of its continuation. *)
Lemma exec_sound m : forall r st k res,
  exec m r st k = Some res -> exists st1, k st1 = Some res.
Proof.
  induction r; intros st k res H; simpl in H.
  - destruct (atBol m st); [eauto|discriminate].
  - destruct (atEol m st); [eauto|discriminate].
  - destruct (lit s (prev st) (rest st)) as [[p s']|]; [eauto|discriminate].
  - apply rep_inv in H. destruct H as (w & s' & _ & _ & _ & Hk). eauto.
  - apply IHr1 in H. destruct H as [st1 H]. apply IHr2 in H. exact H.
  - destruct (exec m r1 st k) eqn:E.
    + inversion H; subst. apply IHr1 in E. exact E.
    + apply IHr2 in H. exact H.
  - destruct (exec m r st k) eqn:E.
    + inversion H; subst. apply IHr in E. exact E.
    + eauto.
  - apply IHr in H. destruct H as [st1 H]. eauto.
Qed.

(** A match found by the search is a match at some position. *)
Lemma searchFrom_inv m r : forall s i p mt,
  searchFrom m r i p s = Some mt ->
  exists p' s' n, matchAt m r p' s' = Some (n, groups mt).
Proof.
  induction s as [|c s IH]; intros i p mt H; simpl in H.
  - destruct (matchAt m r p []) as [[n cps]|] eqn:E; [|discriminate].
    inversion H; subst. simpl. eauto.
  - destruct (matchAt m r p (c :: s)) as [[n cps]|] eqn:E.
    + inversion H; subst. simpl. eauto.
    + eapply IH. exact H.
Qed.

(** Without the multiline flag a pattern that starts with [^] can only
    match at index 0. *)
Lemma matchAt_Bol_inner r c s : matchAt false (Bol +++ r) (Some c) s = None.
Proof. reflexivity. Qed.

Lemma searchFrom_Bol_inner r : forall s i c,
  searchFrom false (Bol +++ r) i (Some c) s = None.
Proof.
  induction s as [|d s IH]; intros i c; cbn [searchFrom].
  - reflexivity.
  - rewrite matchAt_Bol_inner. apply IH.
Qed.

Lemma jsMatch_anchored r s :
  jsMatch false (Bol +++ r) s =
  match matchAt false (Bol +++ r) None s with
  | Some (n, cps) => Some (JsMatch 0 (firstn n s) cps)
  | None => None
  end.
Proof.
  unfold jsMatch. destruct s as [|c s]; cbn [searchFrom].
  - destruct (matchAt false (Bol +++ r) None []) as [[n cps]|]; reflexivity.
  - destruct (matchAt false (Bol +++ r) None (c :: s)) as [[n cps]|];
      [reflexivity|]. apply searchFrom_Bol_inner.
Qed.

(** Walk through one repetition of a successful match. *)
Ltac rep_step H :=
  apply rep_inv in H;
  let w := fresh "w" in
  let s := fresh "s" in
  destruct H as (w & s & ? & ? & ? & H).

(** The last group of a pattern is set whenever the pattern matches. *)
Lemma matchAt_feat_group2 p s n cps :
  matchAt false re_feat p s = Some (n, cps) -> exists g, getCap 2 cps = Some g.
Proof.
  unfold matchAt, re_feat. intros H.
  destruct (exec _ _ _ _) as [res|] eqn:E; [|discriminate].
  inversion H; subst; clear H.
  simpl in E. destruct (atBol false _); [|discriminate].
  rep_step E.
  rep_step E.
  rep_step E.
  rep_step E.
  inversion E; subst. simpl. eauto.
Qed.

Lemma matchAt_cont_group1 p s n cps :
  matchAt false re_cont p s = Some (n, cps) -> exists g, getCap 1 cps = Some g.
Proof.
  unfold matchAt, re_cont. intros H.
  destruct (exec _ _ _ _) as [res|] eqn:E; [|discriminate].
  inversion H; subst; clear H.
  simpl in E. destruct (atBol false _); [|discriminate].
  rep_step E.
  rep_step E.
  inversion E; subst. simpl. eauto.
Qed.

Lemma featMatch_group2 line fm :
  jsMatch false re_feat line = Some fm -> exists g, group fm 2 = Some g.
Proof.
  intros H. apply searchFrom_inv in H. destruct H as (p & s & n & H).
  eapply matchAt_feat_group2; eauto.
Qed.

Lemma contMatch_group1 line cm :
  jsMatch false re_cont line = Some cm -> exists g, group cm 1 = Some g.
Proof.
  intros H. apply searchFrom_inv in H. destruct H as (p & s & n & H).
  eapply matchAt_cont_group1; eauto.
Qed.

(** [split] always returns at least one piece when the separator cannot
    match the empty string. *)
Lemma splitGo_nonempty m r : forall s p skip cur, splitGo m r p s skip cur <> [].
Proof.
  induction s as [|c s IH]; intros p skip cur; simpl.
  - discriminate.
  - destruct skip; [|apply IH].
    destruct (matchAt m r p (c :: s)) as [[[|n] cps]|].
    + destruct cur; [apply IH|discriminate].
    + discriminate.
    + apply IH.
Qed.

Lemma split_newline_nonempty s : split false re_newline s <> [].
Proof.
  unfold split. destruct s.
  - vm_compute. discriminate.
  - apply splitGo_nonempty.
Qed.

(** ** The parsers return *)

Lemma fastaRecord_ok rec : exists r, fastaRecord rec = Ok r.
Proof.
  unfold fastaRecord.
  destruct (split false re_newline rec) as [|l ls] eqn:E.
  - exfalso. eapply split_newline_nonempty; eauto.
  - simpl. eauto.
Qed.

Lemma mapM_ok {A B} (f : A -> result B) :
  (forall a, exists b, f a = Ok b) ->
  forall l, exists bs, mapM f l = Ok bs.
Proof.
  intros Hf. induction l as [|a l [bs IH]]; simpl.
  - eauto.
  - destruct (Hf a) as [b ->]. simpl. rewrite IH. simpl. eauto.
Qed.

Lemma step_ok st line : exists st', step st line = Ok st'.
Proof.
  unfold step.
  destruct (jsMatch false re_feat line) as [fm|] eqn:F.
  - destruct (featMatch_group2 _ _ F) as [g ->]. simpl. eauto.
  - destruct (jsMatch false re_qual line) as [qm|], (current st) as [cur|];
      try (now eauto);
      destruct (jsMatch false re_cont line) as [cm|] eqn:C; eauto;
      destruct (lastKeyOf (qualifiers cur)); eauto;
      destruct (truthy j); eauto;
      destruct (contMatch_group1 _ _ C) as [g ->]; simpl; eauto.
Qed.

Lemma foldM_ok {A S} (f : S -> A -> result S) :
  (forall s a, exists s', f s a = Ok s') ->
  forall l s, exists s', foldM f l s = Ok s'.
Proof.
  intros Hf. induction l as [|a l IH]; intros s; simpl.
  - eauto.
  - destruct (Hf s a) as [s' ->]. simpl. apply IH.
Qed.

Lemma featureList_ok text : exists fs, featureList text = Ok fs.
Proof.
  unfold featureList.
  destruct (featuresText text) as [ft|]; [|eauto].
  destruct (foldM_ok step step_ok (split false re_newline ft) (mkLoop [] None))
    as [st ->].
  simpl. eauto.
Qed.

(** ** The code at particular inputs *)


(** A defect in the choice of the target.  After [/a=1], [/b=2], [/a=3]
    the value inserted last is the "3" under [a], yet the continuation
    text lands in the value of the earlier qualifier [b]: the target is
    the last own key of the object, not the qualifier added last. *)
Example continuation_after_repeated_key :
  parseGenBank repeatedEarlierKey =
  Ok (mkGenBank None
        [cds [(str "a", VArr [AStr (str "1"); AStr (str "3")]);
              (str "b", scalar "2 cont")]]).
Proof. vm_compute. reflexivity. Qed.

(** The same defect through the key order of objects: an array-index key
    is listed before the names, so the continuation after [/1=y] lands in
    [gene]. *)
Example continuation_after_index_key :
  parseGenBank indexKeyAfterName =
  Ok (mkGenBank None
        [cds [(str "gene", scalar "x cont"); (str "1", scalar "y")]]).
Proof. vm_compute. reflexivity. Qed.

(** C2, counterexample. A line that begins with two slashes but does
    not consist of them ends the slice: the feature below it is lost,
    although the first line that is just two slashes comes later. *)
Lemma C2_counterexample_slashes_with_text :
  featuresText slashComment =
    Some (str "FEATURES             Location/Qualifiers" ++ [LF] ++
          spaces 5 ++ str "CDS             1..100") /\
  parseGenBank slashComment = Ok (mkGenBank None [cds []]).
Proof. split; vm_compute; reflexivity. Qed.

(** A defect in the search for ORIGIN.  It starts at the beginning of
    the text, not at the FEATURES line: with an ORIGIN line above the
    FEATURES line the slice runs from ORIGIN to FEATURES, the feature
    table proper is lost and the lines above it are parsed in its
    place. *)
Example origin_above_features :
  featuresText originFirst =
    Some (text_of_lines [str "ORIGIN"; spaces 5 ++ str "gene            1..5"]) /\
  parseGenBank originFirst =
    Ok (mkGenBank None [mkFeature (Some (str "gene")) (str "1..5") Obj.empty]).
Proof. split; vm_compute; reflexivity. Qed.

(** C6 (defect in the code). A key that names a member of
    [Object.prototype] is taken for a repeated key at its first
    occurrence: the stored value is an array that starts with the
    inherited member, after one occurrence and after two. *)
Theorem C6_inherited_name_taken_for_repeated_key :
  parseGenBank inheritedNameOnce =
    Ok (mkGenBank None
          [cds [(str "constructor",
                 VArr [ABuiltin (str "Object.prototype.constructor");
                       AStr (str "a")])]]) /\
  parseGenBank inheritedName =
    Ok (mkGenBank None
          [cds [(str "constructor",
                 VArr [ABuiltin (str "Object.prototype.constructor");
                       AStr (str "a"); AStr (str "b")])]]).
Proof. split; vm_compute; reflexivity. Qed.

(** C3, counterexample. A line indented by 22 spaces is taken as a
    continuation: with it the qualifier reads "abc def", without it
    "abc". *)
Lemma C3_counterexample_deeper_indentation :
  leadingWs deeperLine = 22 /\
  parseGenBank (featureTable [quotedGene; deeperLine]) =
    Ok (mkGenBank None [cds [(str "gene", scalar "abc def")]]) /\
  parseGenBank (featureTable [quotedGene]) =
    Ok (mkGenBank None [cds [(str "gene", scalar "abc")]]).
Proof. repeat split; vm_compute; reflexivity. Qed.

(** Five tabs indent a feature line as well as five spaces do. *)
Example tab_indented_feature :
  parseGenBank (featureTable [tabbedFeature]) =
  Ok (mkGenBank None
        [cds []; mkFeature (Some (str "gene")) (str "7..9") Obj.empty]).
Proof. vm_compute. reflexivity. Qed.

(** C4, counterexample. After [/pseudo] and a continuation line the
    value is still the flag, not the continuation text. *)
Lemma C4_counterexample_flag_not_promoted :
  parseGenBank flagThenText =
    Ok (mkGenBank None [cds [(str "pseudo", VAtom ATrue)]]) /\
  parseGenBank flagThenText <>
    Ok (mkGenBank None [cds [(str "pseudo", scalar "more text")]]).
Proof. split; vm_compute; [reflexivity|discriminate]. Qed.

(** C5, counterexample. The chunk after a lone [>] starts with an empty
    line; its first line trimmed is empty and the rest is ACGT, but the
    record emitted has ACGT for a header and no sequence. *)
Lemma C5_counterexample_empty_header_line :
  split true re_gt emptyHeader = [[]; emptyHeaderChunk] /\
  recordOfChunk emptyHeaderChunk = mkFastaRecord [] (str "ACGT") 4 /\
  parseFasta emptyHeader = Ok [mkFastaRecord (str "ACGT") [] 0].
Proof. repeat split; vm_compute; reflexivity. Qed.

(** C7, counterexample. A line that is just LOCUS makes the input
    GenBank for the detector, yet no locus is stored. *)
Lemma C7_counterexample_bare_locus :
  firstLineWith (str "LOCUS") bareLocus = Some 0 /\
  detectFormat bareLocus = genbank /\
  parseGenBank bareLocus = Ok (mkGenBank None []).
Proof. repeat split; vm_compute; reflexivity. Qed.

(** With a line after it, the white space the pattern asks for after
    LOCUS is the line break, and two lines are stored. *)
Example bare_locus_swallows_next_line :
  parseGenBank bareLocusThenLine =
  Ok (mkGenBank (Some (str "LOCUS" ++ [LF] ++ str "DEFINITION x")) []).
Proof. vm_compute. reflexivity. Qed.

(** C8, counterexample. The sequence AC>GT re-wrapped at width 2 has a
    line that starts with [>], and parses back as two records. *)
Lemma C8_counterexample_gt_in_sequence :
  parseFasta gtInSequence = Ok [gtRecord] /\
  fastaText gtRecord 2 = text_of_lines [str ">h"; str "AC"; str ">G"; str "T"] /\
  parseFasta (fastaText gtRecord 2) =
    Ok [mkFastaRecord (str "h") (str "AC") 2; mkFastaRecord (str "G") (str "T") 1].
Proof. repeat split; vm_compute; reflexivity. Qed.

(** ** Runs of a class *)

Lemma rep_short cls k cps : forall s lo hi p,
  leadingRun cls s < lo -> rep cls k cps lo hi p s = None.
Proof.
  induction s as [|c s IH]; intros lo hi p H; simpl in *.
  - destruct lo; [lia|reflexivity].
  - destruct (cls c); simpl.
    + destruct lo as [|lo]; [lia|].
      destruct (hiAllows hi); [|reflexivity].
      rewrite IH; [reflexivity|simpl; lia].
    + destruct lo; [lia|reflexivity].
Qed.

Lemma rep_exact cls k cps : forall n s p,
  n <= leadingRun cls s ->
  rep cls k cps n (Some n) p s =
  k (MState (advance p (firstn n s)) (skipn n s) cps).
Proof.
  induction n as [|n IH]; intros s p H.
  - destruct s as [|c s]; simpl; [reflexivity|].
    rewrite andb_false_r. reflexivity.
  - destruct s as [|c s]; simpl in H; [lia|].
    destruct (cls c) eqn:E; [|lia].
    simpl. rewrite E. simpl. rewrite IH by lia.
    destruct (k _); reflexivity.
Qed.

Lemma leadingRun_skipn_nonws : forall n s,
  n < leadingRun ws s -> leadingRun nonws (skipn n s) = 0.
Proof.
  induction n as [|n IH]; intros s H; destruct s as [|c s]; simpl in *;
    try lia.
  - unfold nonws. unfold ws in H. destruct (isWhiteSpace c); simpl; [reflexivity|lia].
  - destruct (ws c); [|lia]. apply IH. lia.
Qed.

Lemma matchAt_none m r p s :
  exec m r (MState p s []) (fun st => Some st) = None -> matchAt m r p s = None.
Proof. unfold matchAt. intros ->. reflexivity. Qed.

(** A line whose leading white space is not exactly five long is no
    feature line. *)
Lemma featMatch_needs_5 line :
  leadingWs line <> 5 -> jsMatch false re_feat line = None.
Proof.
  intros H. unfold re_feat. rewrite jsMatch_anchored.
  rewrite matchAt_none; [reflexivity|].
  cbn [exec atBol prev rest caps exactly plus].
  destruct (Nat.lt_ge_cases (leadingWs line) 5) as [L|L].
  - apply rep_short. exact L.
  - rewrite rep_exact by exact L.
    cbn [exec atBol prev rest caps exactly plus].
    apply rep_short. rewrite leadingRun_skipn_nonws; [lia|].
    unfold leadingWs in *. lia.
Qed.

(** A line with fewer than 21 leading white-space characters is neither
    a qualifier line nor a continuation line. *)
Lemma qualMatch_needs_21 line :
  leadingWs line < 21 -> jsMatch false re_qual line = None.
Proof.
  intros H. unfold re_qual. rewrite jsMatch_anchored.
  rewrite matchAt_none; [reflexivity|].
  cbn [exec atBol prev rest caps exactly plus].
  apply rep_short. exact H.
Qed.

Lemma contMatch_needs_21 line :
  leadingWs line < 21 -> jsMatch false re_cont line = None.
Proof.
  intros H. unfold re_cont. rewrite jsMatch_anchored.
  rewrite matchAt_none; [reflexivity|].
  cbn [exec atBol prev rest caps exactly plus].
  apply rep_short. exact H.
Qed.

(** C3, amended. The widths count white-space characters of any kind;
    a line whose leading run of white space is neither exactly 5 long nor
    at least 21 long is inert: the loop state after it is the state
    before it. *)
Theorem C3_inert_lines (st : loopState) (line : jsstring) :
  leadingWs line <> 5 -> leadingWs line < 21 -> step st line = Ok st.
Proof.
  intros H5 H21. unfold step.
  rewrite featMatch_needs_5 by exact H5.
  rewrite qualMatch_needs_21 by exact H21.
  rewrite contMatch_needs_21 by exact H21.
  reflexivity.
Qed.

(** The theorem above at a sample input. *)
Lemma C3_inert_lines_witness :
  leadingWs (spaces 20 ++ str "def") <> 5 /\
  leadingWs (spaces 20 ++ str "def") < 21 /\
  step (inFeature [(str "gene", scalar "abc")]) (spaces 20 ++ str "def") =
  Ok (inFeature [(str "gene", scalar "abc")]).
Proof.
  assert (H5 : leadingWs (spaces 20 ++ str "def") <> 5)
    by (vm_compute; discriminate).
  assert (H21 : leadingWs (spaces 20 ++ str "def") < 21)
    by (vm_compute; lia).
  split; [exact H5|]. split; [exact H21|].
  apply (C3_inert_lines _ _ H5 H21).
Defined.

(** ** Own properties *)

Lemma jsstring_eqb_eq : forall a b, jsstring_eqb a b = true <-> a = b.
Proof.
  induction a as [|x a IH]; destruct b as [|y b]; simpl; split; intros H;
    try reflexivity; try discriminate.
  - apply andb_prop in H. destruct H as [Hx Hab].
    apply N.eqb_eq in Hx. apply IH in Hab. subst. reflexivity.
  - inversion H; subst. rewrite N.eqb_refl. simpl. apply IH. reflexivity.
Qed.

Lemma jsstring_eqb_refl a : jsstring_eqb a a = true.
Proof. apply jsstring_eqb_eq. reflexivity. Qed.

Lemma jsstring_eqb_neq a b : jsstring_eqb a b = false <-> a <> b.
Proof.
  split; intros H.
  - intros ->. rewrite jsstring_eqb_refl in H. discriminate.
  - destruct (jsstring_eqb a b) eqn:E; [|reflexivity].
    apply jsstring_eqb_eq in E. contradiction.
Qed.

Lemma assoc_update_other k k' v : forall l,
  k <> k' -> assoc k (update k' v l) = assoc k l.
Proof.
  intros l Hk. induction l as [|[k0 v0] l IH]; simpl.
  - reflexivity.
  - destruct (jsstring_eqb k' k0) eqn:E; simpl.
    + apply jsstring_eqb_eq in E. subst k0.
      apply jsstring_eqb_neq in Hk. rewrite Hk. reflexivity.
    + rewrite IH. reflexivity.
Qed.

Lemma assoc_update_same k v : forall l v0,
  assoc k l = Some v0 -> assoc k (update k v l) = Some v.
Proof.
  induction l as [|[k0 v1] l IH]; intros v0 H; simpl in *.
  - discriminate.
  - destruct (jsstring_eqb k k0) eqn:E; simpl; rewrite E.
    + reflexivity.
    + eapply IH. exact H.
Qed.

Lemma assoc_app_found k : forall l l' v,
  assoc k l = Some v -> assoc k (l ++ l') = Some v.
Proof.
  induction l as [|[k0 v0] l IH]; intros l' v H; simpl in *.
  - discriminate.
  - destruct (jsstring_eqb k k0); [exact H|]. apply IH. exact H.
Qed.

(** Writing under one key leaves the own value under another key as it
    is. *)
Lemma set_keeps_other q k k' v v0 :
  k <> k' -> assoc k (own q) = Some v0 -> assoc k (own (set q k' v)) = Some v0.
Proof.
  intros Hk H. unfold set.
  destruct (assoc k' (own q)) eqn:E; simpl.
  - rewrite assoc_update_other by exact Hk. exact H.
  - destruct (jsstring_eqb k' (str "__proto__")).
    + destruct v; simpl; exact H.
    + simpl. apply assoc_app_found. exact H.
Qed.

Lemma get_own q k v : assoc k (own q) = Some v -> get q k = Some v.
Proof. unfold get. intros ->. reflexivity. Qed.

Lemma withQualifiers_same f : withQualifiers f (qualifiers f) = f.
Proof. destruct f. reflexivity. Qed.

(** The continuation never touches a flag. *)
Lemma appendContinuation_keeps_flag q lastKey addition k :
  assoc k (own q) = Some (VAtom ATrue) ->
  assoc k (own (appendContinuation q lastKey addition)) = Some (VAtom ATrue) /\
  (lastKey = k -> appendContinuation q lastKey addition = q).
Proof.
  intros H. unfold appendContinuation. split.
  - destruct (get q lastKey) as [[[prev| | |]|l]|] eqn:G; try exact H.
    + apply set_keeps_other; [|exact H].
      intros ->. rewrite (get_own _ _ _ H) in G. discriminate.
    + apply set_keeps_other; [|exact H].
      intros ->. rewrite (get_own _ _ _ H) in G. discriminate.
  - intros ->. rewrite (get_own _ _ _ H). reflexivity.
Qed.

(** C4, amended. A continuation line leaves a flag-valued qualifier as
    it is: the value under its key is still the flag after the line, and
    when that key is the last of the object's keys the line changes
    nothing at all. *)
Theorem C4_flag_left_as_is (st : loopState) (cur : Feature)
    (line : jsstring) (cm : jsmatch) (k : jsstring) :
  current st = Some cur ->
  jsMatch false re_feat line = None ->
  jsMatch false re_qual line = None ->
  jsMatch false re_cont line = Some cm ->
  assoc k (own (qualifiers cur)) = Some (VAtom ATrue) ->
  exists cur',
    step st line = Ok (mkLoop (done st) (Some cur')) /\
    key cur' = key cur /\ location cur' = location cur /\
    assoc k (own (qualifiers cur')) = Some (VAtom ATrue) /\
    (lastKeyOf (qualifiers cur) = Some k -> cur' = cur).
Proof.
  intros Hcur Hf Hq Hc Hk. unfold step. rewrite Hf, Hq, Hc, Hcur.
  assert (Same : Ok st = Ok (mkLoop (done st) (Some cur))).
  { destruct st as [d c]. simpl in *. subst c. reflexivity. }
  destruct (lastKeyOf (qualifiers cur)) as [lastKey|] eqn:L.
  - destruct (truthy lastKey).
    + destruct (contMatch_group1 _ _ Hc) as [g ->]. simpl.
      destruct (appendContinuation_keeps_flag (qualifiers cur) lastKey (trim g) k Hk)
        as [Keep Last].
      eexists. split; [reflexivity|]. simpl. repeat split; auto.
      intros E. inversion E; subst. rewrite Last by reflexivity.
      apply withQualifiers_same.
    + exists cur. repeat split; auto.
  - exists cur. repeat split; auto.
Qed.

(** The theorem above at a sample input. *)
Lemma C4_flag_left_as_is_witness :
  exists cur',
    step (inFeature [(str "pseudo", VAtom ATrue)]) (qualifierLine (str "more text")) =
      Ok (mkLoop [] (Some cur')) /\
    key cur' = Some (str "CDS") /\ location cur' = str "1..100" /\
    assoc (str "pseudo") (own (qualifiers cur')) = Some (VAtom ATrue) /\
    (lastKeyOf (Object [(str "pseudo", VAtom ATrue)] None) = Some (str "pseudo") ->
     cur' = cds [(str "pseudo", VAtom ATrue)]).
Proof.
  apply (C4_flag_left_as_is
           (inFeature [(str "pseudo", VAtom ATrue)])
           (cds [(str "pseudo", VAtom ATrue)])
           (qualifierLine (str "more text"))
           (JsMatch 0 (qualifierLine (str "more text"))
              [(1, str "more text")])
           (str "pseudo"));
    vm_compute; reflexivity.
Defined.

(** ** Greedy runs *)

Lemma rep_greedy cls k cps : forall w s lo p res,
  forallb cls w = true -> lo <= List.length w -> leadingRun cls s = 0 ->
  k (MState (advance p w) s cps) = Some res ->
  rep cls k cps lo None p (w ++ s) = Some res.
Proof.
  induction w as [|c w IH]; intros s lo p res Hw Hlo Hs Hk; simpl in *.
  - assert (lo = 0) by lia. subst lo.
    destruct s as [|c s]; simpl; [exact Hk|].
    simpl in Hs. destruct (cls c); [discriminate|]. simpl. exact Hk.
  - apply andb_prop in Hw. destruct Hw as [Hc Hw].
    rewrite Hc. simpl.
    rewrite (IH s (Nat.pred lo) (Some c) res); auto. lia.
Qed.

Lemma rep_all_fail cls k cps : forall s lo hi p,
  (forall w s' p', s = w ++ s' -> forallb cls w = true ->
                   k (MState p' s' cps) = None) ->
  rep cls k cps lo hi p s = None.
Proof.
  induction s as [|c s IH]; intros lo hi p H; simpl.
  - destruct lo; [|reflexivity]. apply (H [] []); reflexivity.
  - assert (Stop : match lo with 0 => k (MState p (c :: s) cps) | S _ => None end = None).
    { destruct lo; [|reflexivity]. apply (H [] (c :: s)); reflexivity. }
    destruct (cls c && hiAllows hi) eqn:E; [|exact Stop].
    rewrite IH; [exact Stop|].
    intros w s' p' -> Hw. apply (H (c :: w) s' p'); [reflexivity|].
    simpl. apply andb_prop in E. destruct E as [-> _]. exact Hw.
Qed.

Lemma firstn_len_app {A} (a b : list A) n : List.length a = n -> firstn n (a ++ b) = a.
Proof. intros <-. rewrite firstn_app, Nat.sub_diag, firstn_all. simpl. apply app_nil_r. Qed.

Lemma skipn_len_app {A} (a b : list A) n : List.length a = n -> skipn n (a ++ b) = b.
Proof. intros <-. rewrite skipn_app, Nat.sub_diag, skipn_all. reflexivity. Qed.

Lemma consumed_app p p' a b c c' :
  consumed (MState p (a ++ b) c) (MState p' b c') = a.
Proof.
  unfold consumed. simpl. rewrite length_app.
  replace (List.length a + List.length b - List.length b) with (List.length a) by lia.
  apply firstn_len_app. reflexivity.
Qed.

Lemma leadingRun_app cls : forall a b,
  forallb cls a = true -> leadingRun cls (a ++ b) = List.length a + leadingRun cls b.
Proof.
  induction a as [|c a IH]; intros b H; simpl in *; [reflexivity|].
  apply andb_prop in H. destruct H as [-> H]. rewrite IH by exact H. reflexivity.
Qed.

Lemma leadingRun_firstn cls : forall s, forallb cls (firstn (leadingRun cls s) s) = true.
Proof.
  induction s as [|c s IH]; simpl; [reflexivity|].
  destruct (cls c) eqn:E; simpl; [rewrite E; exact IH|reflexivity].
Qed.

Lemma leadingRun_skipn cls : forall s, leadingRun cls (skipn (leadingRun cls s) s) = 0.
Proof.
  induction s as [|c s IH]; simpl; [reflexivity|].
  destruct (cls c) eqn:E; simpl; [exact IH|rewrite E; reflexivity].
Qed.


Lemma lit1 x p s : lit [x] p (x :: s) = Some (Some x, s).
Proof. simpl. rewrite N.eqb_refl. reflexivity. Qed.

Lemma lit1_neq x y p s : x <> y -> lit [x] p (y :: s) = None.
Proof. intros H. simpl. apply N.eqb_neq in H. rewrite H. reflexivity. Qed.

Lemma forallb_app_r {A} (f : A -> bool) a b : forallb f (a ++ b) = true -> forallb f b = true.
Proof. rewrite forallb_app. intros H. apply andb_prop in H. tauto. Qed.

(** The qualifier pattern on a line whose quote is not closed: the
    quoted alternative fails wherever the run of non-quotes stops, and the
    run of [\S] starting at the quote is what group 3 takes. *)
Lemma qualMatch_unclosed_parts (indent key a b : jsstring) :
  List.length indent = 21 -> forallb ws indent = true ->
  key <> [] -> forallb keyChar key = true ->
  forallb notQuote (a ++ b) = true ->
  forallb nonws a = true -> leadingRun nonws b = 0 ->
  exists n,
    matchAt false re_qual None
      (indent ++ str "/" ++ key ++ str "=" ++ (DQUOTE :: a) ++ b) =
    Some (n, [(3, DQUOTE :: a); (1, key)]).
Proof.
  intros Hlen Hws Hkey Hkc Hnq Ha Hb.
  unfold matchAt, re_qual.
  cbn [exec atBol prev rest caps exactly plus star].
  rewrite rep_exact.
  2:{ rewrite leadingRun_app by exact Hws. lia. }
  rewrite skipn_len_app by exact Hlen.
  rewrite firstn_len_app by exact Hlen.
  cbn [exec atBol prev rest caps exactly plus star].
  rewrite lit_app.
  cbn [exec atBol prev rest caps exactly plus star].
  erewrite rep_greedy; cycle 1.
  - exact Hkc.
  - destruct key; [contradiction|simpl; lia].
  - reflexivity.
  - cbn [prev rest caps]. rewrite lit_app.
    change ((DQUOTE :: a) ++ b) with (DQUOTE :: (a ++ b)).
    rewrite lit1.
    rewrite rep_all_fail.
    2:{ intros w s' p' E Hw. cbn [prev rest caps].
        destruct s' as [|y s']; [reflexivity|].
        rewrite E in Hnq. apply forallb_app_r in Hnq. simpl in Hnq.
        apply andb_prop in Hnq. destruct Hnq as [Hy _].
        unfold notQuote in Hy. apply negb_true_iff, N.eqb_neq in Hy.
        rewrite lit1_neq; [reflexivity|]. intros Q. apply Hy. symmetry. exact Q. }
    change (DQUOTE :: (a ++ b)) with ((DQUOTE :: a) ++ b).
    erewrite rep_greedy; cycle 1.
    + simpl. exact Ha.
    + simpl. lia.
    + exact Hb.
    + cbn [prev rest caps]. rewrite !consumed_app. reflexivity.
    + reflexivity.
  - cbn [prev rest caps setCap]. eexists. reflexivity.
Qed.

Lemma jsMatch_qual s :
  jsMatch false re_qual s =
  match matchAt false re_qual None s with
  | Some (n, cps) => Some (JsMatch 0 (firstn n s) cps)
  | None => None
  end.
Proof. unfold re_qual. apply jsMatch_anchored. Qed.

Lemma assoc_app_new k v : forall l,
  assoc k l = None -> assoc k (l ++ [(k, v)]) = Some v.
Proof.
  induction l as [|[k0 v0] l IH]; intros H; simpl in *.
  - rewrite jsstring_eqb_refl. reflexivity.
  - destruct (jsstring_eqb k k0); [discriminate|]. apply IH. exact H.
Qed.

(** A key the object does not answer for gets the value as it is. *)
Lemma addQualifier_new q k a :
  get q k = None -> get (addQualifier q k a) k = Some (VAtom a).
Proof.
  intros H. unfold addQualifier. rewrite H.
  unfold get in H. destruct (assoc k (own q)) eqn:E; [discriminate|].
  assert (P : jsstring_eqb k (str "__proto__") = false).
  { destruct (jsstring_eqb k (str "__proto__")) eqn:P; [|reflexivity].
    exfalso. unfold objectPrototypeGet in H. rewrite P in H.
    destruct (proto q) as [l|].
    - destruct (arrayOwnGet l k); [discriminate|].
      destruct (memStr k arrayPrototypeNames); discriminate.
    - discriminate. }
  unfold set. rewrite E, P. unfold get. simpl.
  rewrite assoc_app_new by exact E. reflexivity.
Qed.

(** C10. On a qualifier line whose equals sign is followed by a double
    quote that is not closed on the line, the value taken is the bare
    token that starts at the quote and runs to the next white space; the
    line is handled as any qualifier line with that token, and the loop
    state keeps no trace of the open quote, so the lines after it are
    classified as they would be after any other qualifier. *)
Theorem C10_unclosed_quote_gives_bare_token (st : loopState) (cur : Feature)
    (indent key txt : jsstring) :
  current st = Some cur ->
  List.length indent = 21 -> forallb ws indent = true ->
  key <> [] -> forallb keyChar key = true ->
  forallb notQuote txt = true ->
  step st (indent ++ str "/" ++ key ++ str "=" ++ [DQUOTE] ++ txt) =
    Ok (mkLoop (done st)
          (Some (withQualifiers cur
                   (addQualifier (qualifiers cur) key
                      (AStr (DQUOTE :: firstn (leadingRun nonws txt) txt)))))) /\
  (get (qualifiers cur) key = None ->
   get (addQualifier (qualifiers cur) key
          (AStr (DQUOTE :: firstn (leadingRun nonws txt) txt))) key =
   Some (VAtom (AStr (DQUOTE :: firstn (leadingRun nonws txt) txt)))).
Proof.
  intros Hcur Hlen Hws Hkey Hkc Hnq.
  split; [|apply addQualifier_new].
  pose proof (leadingRun_firstn nonws txt) as Ha.
  pose proof (leadingRun_skipn nonws txt) as Hb.
  pose proof (firstn_skipn (leadingRun nonws txt) txt) as E.
  revert Ha Hb E.
  generalize (firstn (leadingRun nonws txt) txt) as a.
  generalize (skipn (leadingRun nonws txt) txt) as b.
  intros b a Ha Hb E. subst txt.
  destruct (qualMatch_unclosed_parts indent key a b Hlen Hws Hkey Hkc Hnq Ha Hb)
    as [n M].
  change ((DQUOTE :: a) ++ b) with ([DQUOTE] ++ a ++ b) in M.
  unfold step.
  rewrite featMatch_needs_5.
  2:{ unfold leadingWs. rewrite leadingRun_app by exact Hws.
      rewrite Hlen. simpl. lia. }
  rewrite jsMatch_qual, M, Hcur. reflexivity.
Qed.

(** The theorem above at a sample input. *)
Lemma C10_unclosed_quote_gives_bare_token_witness :
  step (inFeature []) openQuoteLine =
    Ok (inFeature [(str "gene", VAtom (AStr (DQUOTE :: str "abc")))]).
Proof.
  refine (proj1 (C10_unclosed_quote_gives_bare_token
                   (inFeature []) (cds []) (spaces 21) (str "gene")
                   (str "abc def") _ _ _ _ _ _));
    vm_compute; try reflexivity; discriminate.
Defined.

(** After the unclosed quote the next indented line is an ordinary
    continuation: its text is appended to the bare token. *)
Example continuation_after_unclosed_quote :
  parseGenBank
    (featureTable [openQuoteLine; qualifierLine (str "ghi" ++ [DQUOTE])]) =
  Ok (mkGenBank None
        [cds [(str "gene",
               VAtom (AStr (DQUOTE :: str "abc ghi" ++ [DQUOTE])))]]).
Proof. vm_compute. reflexivity. Qed.

(** ** Lines that begin with a keyword *)

Lemma lit_isPrefix : forall w p s,
  lit w p s = if isPrefix w s
              then Some (advance p w, skipn (List.length w) s) else None.
Proof.
  induction w as [|x w IH]; intros p s; simpl.
  - reflexivity.
  - destruct s as [|y s]; [reflexivity|].
    destruct (N.eqb x y) eqn:E; simpl; [|reflexivity].
    rewrite IH. apply N.eqb_eq in E. subst y. reflexivity.
Qed.

Lemma matchAt_keyword w p s :
  matchAt true (Bol +++ Lit w) p s =
  if lineStart p && isPrefix w s then Some (List.length w, []) else None.
Proof.
  unfold matchAt. cbn [exec prev rest caps]. unfold atBol. cbn [prev].
  assert (L : match p with None => true | Some c => true && isLineTerminator c end
              = lineStart p) by (destruct p; reflexivity).
  rewrite L. destruct (lineStart p); cbn [andb]; [|reflexivity].
  rewrite lit_isPrefix. destruct (isPrefix w s) eqn:E; [|reflexivity].
  cbn [rest caps]. rewrite length_skipn.
  assert (List.length w <= List.length s).
  { clear -E. revert s E. induction w as [|x w IH]; intros s E; simpl; [lia|].
    destruct s as [|y s]; [discriminate|]. simpl in E.
    apply andb_prop in E. destruct E as [_ E]. apply IH in E. simpl. lia. }
  replace (List.length s - (List.length s - List.length w)) with (List.length w) by lia.
  reflexivity.
Qed.

Lemma searchFrom_keyword w : forall s i p,
  option_map index (searchFrom true (Bol +++ Lit w) i p s) =
  firstLineFrom w (lineStart p) i s.
Proof.
  induction s as [|c s IH]; intros i p; cbn [searchFrom firstLineFrom];
    rewrite matchAt_keyword.
  - destruct (lineStart p && isPrefix w []); reflexivity.
  - destruct (lineStart p && isPrefix w (c :: s)); [reflexivity|].
    rewrite IH. reflexivity.
Qed.

(** [text.search(/^W/m)] is the start of the first line beginning with
    [W], or -1. *)
Lemma search_keyword w text :
  search true (Bol +++ Lit w) text =
  match firstLineWith w text with
  | Some n => Z.of_nat n
  | None => (-1)%Z
  end.
Proof.
  unfold search, firstLineWith, jsMatch.
  change (firstLineFrom w true 0 text)
    with (firstLineFrom w (lineStart None) 0 text).
  rewrite <- (searchFrom_keyword w text 0 None).
  destruct (searchFrom true (Bol +++ Lit w) 0 None text); reflexivity.
Qed.

(** ** The leftmost match *)

(** The search returns the match at the first position that has one. *)
Lemma searchFrom_intro m r : forall a b i p n cps,
  (forall a1 c a2, a = a1 ++ c :: a2 ->
     matchAt m r (advance p a1) (c :: a2 ++ b) = None) ->
  matchAt m r (advance p a) b = Some (n, cps) ->
  searchFrom m r i p (a ++ b) = Some (JsMatch (i + List.length a) (firstn n b) cps).
Proof.
  induction a as [|x a IH]; intros b i p n cps Hno Hm.
  - simpl in *. rewrite Nat.add_0_r.
    destruct b as [|y b]; cbn [searchFrom]; rewrite Hm; reflexivity.
  - cbn [app searchFrom].
    pose proof (Hno [] x a eq_refl) as H0.
    change (advance p []) with p in H0. rewrite H0.
    rewrite (IH b (S i) (Some x) n cps).
    + simpl. rewrite Nat.add_succ_r. reflexivity.
    + intros a1 c a2 E. apply (Hno (x :: a1) c a2). rewrite E. reflexivity.
    + exact Hm.
Qed.

Lemma searchFrom_elim m r : forall s i p mt,
  searchFrom m r i p s = Some mt ->
  exists a b n, s = a ++ b /\ index mt = i + List.length a /\
    matchAt m r (advance p a) b = Some (n, groups mt) /\
    matched mt = firstn n b /\
    (forall a1 c a2, a = a1 ++ c :: a2 ->
       matchAt m r (advance p a1) (c :: a2 ++ b) = None).
Proof.
  induction s as [|x s IH]; intros i p mt H; cbn [searchFrom] in H.
  - destruct (matchAt m r p []) as [[n cps]|] eqn:E; [|discriminate].
    inversion H; subst; clear H.
    exists [], [], n. simpl. repeat split; auto.
    intros a1 c a2 E'. destruct a1; discriminate.
  - destruct (matchAt m r p (x :: s)) as [[n cps]|] eqn:E.
    + inversion H; subst; clear H.
      exists [], (x :: s), n. simpl. repeat split; auto.
      intros a1 c a2 E'. destruct a1; discriminate.
    + apply IH in H. destruct H as (a & b & n & -> & Hi & Hm & Hmt & Hno).
      exists (x :: a), b, n. simpl. repeat split; auto; try lia.
      intros a1 c a2 E'. destruct a1 as [|y a1]; simpl in E'.
      * inversion E'; subst. simpl. exact E.
      * inversion E'; subst. simpl. apply Hno. reflexivity.
Qed.

Lemma searchFrom_none m r : forall s i p,
  searchFrom m r i p s = None ->
  forall a b, s = a ++ b -> matchAt m r (advance p a) b = None.
Proof.
  induction s as [|x s IH]; intros i p H a b E; cbn [searchFrom] in H.
  - destruct (matchAt m r p []) as [[n cps]|] eqn:M; [discriminate|].
    destruct a; [|discriminate]. simpl in E. subst b. exact M.
  - destruct (matchAt m r p (x :: s)) as [[n cps]|] eqn:M; [discriminate|].
    destruct a as [|y a]; simpl in E.
    + subst b. exact M.
    + inversion E; subst. simpl. eapply IH; eauto.
Qed.

Lemma searchFrom_none_intro m r : forall s i p,
  (forall a b, s = a ++ b -> matchAt m r (advance p a) b = None) ->
  searchFrom m r i p s = None.
Proof.
  induction s as [|x s IH]; intros i p H; cbn [searchFrom].
  - pose proof (H [] [] eq_refl) as H0.
    change (advance p []) with p in H0. rewrite H0. reflexivity.
  - pose proof (H [] (x :: s) eq_refl) as H0.
    change (advance p []) with p in H0. rewrite H0. apply IH.
    intros a b E. apply (H (x :: a) b). rewrite E. reflexivity.
Qed.

(** Where [/^LOCUS/m] has no match, the locus pattern has none either. *)
Lemma locusLine_needs_LOCUS p s :
  matchAt true re_LOCUS p s = None -> matchAt true re_locusLine p s = None.
Proof.
  unfold matchAt, re_LOCUS, re_locusLine.
  cbn [exec prev rest caps].
  destruct (atBol true _); [|reflexivity].
  destruct (lit (str "LOCUS") p s) as [[p' s']|]; [discriminate|reflexivity].
Qed.

Lemma LOCUS_match_bol p s n cps :
  matchAt true re_LOCUS p s = Some (n, cps) -> atBol true (MState p s []) = true.
Proof.
  unfold matchAt, re_LOCUS. cbn [exec prev rest caps].
  destruct (atBol true _); [reflexivity|discriminate].
Qed.

Lemma lineTerminator_is_ws c : isLineTerminator c = true -> isWhiteSpace c = true.
Proof.
  unfold isLineTerminator, isWhiteSpace. intros H.
  repeat (apply orb_prop in H; destruct H as [H|H]);
    apply N.eqb_eq in H; subst c; reflexivity.
Qed.

Lemma nonws_is_dot c : nonws c = true -> dot c = true.
Proof.
  unfold nonws, dot. intros H. destruct (isLineTerminator c) eqn:E; [|reflexivity].
  apply lineTerminator_is_ws in E. rewrite E in H. discriminate.
Qed.

Lemma app_eq_length {A} : forall (a a' b b' : list A),
  a ++ b = a' ++ b' -> List.length a = List.length a' -> a = a' /\ b = b'.
Proof.
  induction a as [|x a IH]; destruct a' as [|y a']; intros b b' E L;
    simpl in *; try discriminate.
  - split; [reflexivity|exact E].
  - inversion E; subst. destruct (IH a' b b') as [-> ->]; auto.
Qed.

Lemma atEol_lineEnds p post cps :
  lineEnds post = true -> atEol true (MState p post cps) = true.
Proof. destruct post; simpl; auto. Qed.

(** The locus pattern at the start of a line that reads LOCUS, white
    space, then text that starts with a non-space and runs to the end of
    the line: the match is that line. *)
Lemma locusLine_match p w c r post :
  atBol true (MState p [] []) = true ->
  w <> [] -> forallb ws w = true ->
  nonws c = true -> forallb dot r = true -> lineEnds post = true ->
  matchAt true re_locusLine p (str "LOCUS" ++ w ++ (c :: r) ++ post) =
  Some (List.length (str "LOCUS" ++ w ++ (c :: r) ++ post) - List.length post,
        [(1, c :: r)]).
Proof.
  intros Hbol Hw Hws Hc Hr Hpost.
  unfold matchAt, re_locusLine.
  cbn [exec prev rest caps plus].
  replace (atBol true (MState p (str "LOCUS" ++ w ++ (c :: r) ++ post) []))
    with true by (symmetry; exact Hbol).
  rewrite lit_app.
  erewrite rep_greedy; cycle 1.
  - exact Hws.
  - destruct w; [contradiction|simpl; lia].
  - simpl. unfold nonws in Hc. unfold ws.
    destruct (isWhiteSpace c); [discriminate|reflexivity].
  - cbn [exec prev rest caps plus].
    erewrite rep_greedy; cycle 1.
    + simpl. rewrite (nonws_is_dot _ Hc). exact Hr.
    + simpl. lia.
    + destruct post as [|x post]; [reflexivity|].
      simpl in *. unfold dot. rewrite Hpost. reflexivity.
    + cbn [exec prev rest caps].
      rewrite consumed_app, atEol_lineEnds by exact Hpost. reflexivity.
    + reflexivity.
  - reflexivity.
Qed.

Lemma search_index m r text n :
  search m r text = Z.of_nat n ->
  exists mt, jsMatch m r text = Some mt /\ index mt = n.
Proof.
  unfold search. destruct (jsMatch m r text) as [mt|]; intros H.
  - exists mt. split; [reflexivity|]. apply Nat2Z.inj. exact H.
  - lia.
Qed.

Lemma search_none m r text :
  search m r text = (-1)%Z -> jsMatch m r text = None.
Proof.
  unfold search. destruct (jsMatch m r text) as [mt|]; intros H; [lia|reflexivity].
Qed.

Lemma locusOf_line text pre w c r post :
  text = pre ++ (str "LOCUS" ++ w ++ c :: r) ++ post ->
  search true re_LOCUS text = Z.of_nat (List.length pre) ->
  w <> [] -> forallb ws w = true ->
  nonws c = true -> forallb dot r = true -> lineEnds post = true ->
  locusOf text = Some (trim (str "LOCUS" ++ w ++ c :: r)).
Proof.
  intros Ht Hs Hw Hws Hc Hr Hpost.
  destruct (search_index _ _ _ _ Hs) as (mt & Hm & Hi).
  unfold jsMatch in Hm. apply searchFrom_elim in Hm.
  destruct Hm as (a & b & n & E & Hidx & Hat & _ & Hno).
  rewrite Ht in E. rewrite Hi in Hidx. simpl in Hidx.
  symmetry in E. apply app_eq_length in E; [|lia].
  destruct E as [-> ->].
  apply LOCUS_match_bol in Hat.
  unfold locusOf, jsMatch. rewrite Ht.
  erewrite searchFrom_intro; cycle 1.
  - intros a1 x a2 E. apply locusLine_needs_LOCUS. apply Hno. exact E.
  - rewrite <- !app_assoc. apply locusLine_match; auto.
  - cbn [matched]. f_equal. f_equal.
    rewrite !length_app.
    replace (List.length (str "LOCUS") + (List.length w + (List.length (c :: r) + List.length post)) - List.length post)
      with (List.length (str "LOCUS" ++ w ++ c :: r))
      by (rewrite !length_app; lia).
    apply firstn_len_app. reflexivity.
Qed.

Lemma locusOf_absent text :
  search true re_LOCUS text = (-1)%Z -> locusOf text = None.
Proof.
  intros H. apply search_none in H. unfold jsMatch in H.
  unfold locusOf, jsMatch.
  rewrite searchFrom_none_intro; [reflexivity|].
  intros a b E. apply locusLine_needs_LOCUS.
  eapply searchFrom_none; eauto.
Qed.

(** C7, amended. When the first line that begins with LOCUS goes on,
    on the same line, with white space and then text that starts with a
    non-space, the locus is that whole line, trimmed; when no line begins
    with LOCUS the locus is absent; in both cases the document is returned
    with the features of the feature table. *)
Theorem C7_locus_of_well_formed_line (text : jsstring) :
  (forall pre w c r post,
     text = pre ++ (str "LOCUS" ++ w ++ c :: r) ++ post ->
     firstLineWith (str "LOCUS") text = Some (List.length pre) ->
     w <> [] -> forallb ws w = true -> forallb dot w = true ->
     nonws c = true -> forallb dot r = true -> lineEnds post = true ->
     exists doc, parseGenBank text = Ok doc /\
                 locus doc = Some (trim (str "LOCUS" ++ w ++ c :: r)) /\
                 featureList text = Ok (features doc)) /\
  (firstLineWith (str "LOCUS") text = None ->
   exists doc, parseGenBank text = Ok doc /\ locus doc = None /\
               featureList text = Ok (features doc)).
Proof.
  split.
  - intros pre w c r post Ht Hl Hw Hws _ Hc Hr Hpost.
    assert (Hs : search true re_LOCUS text = Z.of_nat (List.length pre))
      by (unfold re_LOCUS; rewrite search_keyword, Hl; reflexivity).
    unfold parseGenBank.
    rewrite (locusOf_line _ _ _ _ _ _ Ht Hs Hw Hws Hc Hr Hpost).
    destruct (featureList_ok text) as [fs ->]. simpl. eauto.
  - intros Hl.
    assert (Hs : search true re_LOCUS text = (-1)%Z)
      by (unfold re_LOCUS; rewrite search_keyword, Hl; reflexivity).
    unfold parseGenBank. rewrite (locusOf_absent _ Hs).
    destruct (featureList_ok text) as [fs ->]. simpl. eauto.
Qed.

(** The theorem above at a sample input. *)
Lemma C7_locus_of_well_formed_line_witness :
  (exists doc, parseGenBank locusSample = Ok doc /\
               locus doc = Some (trim (str "LOCUS" ++ str "   " ++ str "NC_001 5 bp")) /\
               featureList locusSample = Ok (features doc)) /\
  (exists doc, parseGenBank (str "no such line") = Ok doc /\ locus doc = None /\
               featureList (str "no such line") = Ok (features doc)).
Proof.
  split.
  - apply (proj1 (C7_locus_of_well_formed_line locusSample)
             (str "# note" ++ [LF]) (str "   ") 78%N (str "C_001 5 bp")
             (LF :: str "FEATURES" ++ [LF]));
      vm_compute; try reflexivity; discriminate.
  - apply (proj2 (C7_locus_of_well_formed_line (str "no such line"))).
    vm_compute. reflexivity.
Defined.

(** ** The string operations of parseFasta *)

Lemma matchAt_gt p s :
  matchAt true re_gt p s =
  match s with
  | c :: _ => if lineStart p && (c =? GT)%N then Some (1, []) else None
  | [] => None
  end.
Proof.
  unfold matchAt, re_gt. cbn [exec prev rest caps]. unfold atBol. cbn [prev].
  destruct p as [x|]; cbn [lineStart andb].
  - destruct (isLineTerminator x); [|destruct s; reflexivity].
    destruct s as [|c s]; [reflexivity|]. cbn [lit].
    rewrite N.eqb_sym. destruct (c =? GT)%N; [|reflexivity].
    cbn [rest caps List.length]. rewrite Nat.sub_succ_l, Nat.sub_diag by lia. reflexivity.
  - destruct s as [|c s]; [reflexivity|]. cbn [lit].
    rewrite N.eqb_sym. destruct (c =? GT)%N; [|reflexivity].
    cbn [rest caps List.length]. rewrite Nat.sub_succ_l, Nat.sub_diag by lia. reflexivity.
Qed.

Lemma gtChunksFrom_nonempty : forall s ls, gtChunksFrom ls s <> [].
Proof.
  induction s as [|c s IH]; intros ls; simpl.
  - discriminate.
  - destruct (ls && (c =? GT)%N); [discriminate|].
    destruct (gtChunksFrom (isLineTerminator c) s); discriminate.
Qed.

Lemma splitGo_gt : forall s p cur,
  splitGo true re_gt p s 0 cur =
  match gtChunksFrom (lineStart p) s with
  | ch :: chs => (rev cur ++ ch) :: chs
  | [] => [rev cur]
  end.
Proof.
  induction s as [|c s IH]; intros p cur.
  - simpl. rewrite app_nil_r. reflexivity.
  - cbn [splitGo gtChunksFrom]. rewrite matchAt_gt.
    destruct (lineStart p && (c =? GT)%N) eqn:E.
    + rewrite app_nil_r. f_equal. rewrite IH.
      apply andb_prop in E. destruct E as [_ E]. apply N.eqb_eq in E. subst c.
      cbn [lineStart]. change (isLineTerminator GT) with false.
      destruct (gtChunksFrom false s) eqn:G; [|reflexivity].
      exfalso. eapply gtChunksFrom_nonempty; eauto.
    + rewrite IH. cbn [lineStart].
      destruct (gtChunksFrom (isLineTerminator c) s) as [|ch chs] eqn:G.
      * exfalso. eapply gtChunksFrom_nonempty; eauto.
      * cbn [rev]. rewrite <- app_assoc. reflexivity.
Qed.

(** [text.split(/^>/m)] cuts the text at every [>] that begins a line. *)
Lemma split_gt text : split true re_gt text = gtChunks text.
Proof.
  unfold split, gtChunks. destruct text as [|c s].
  - reflexivity.
  - rewrite splitGo_gt. cbn [lineStart rev app].
    destruct (gtChunksFrom true (c :: s)) eqn:G; [|reflexivity].
    exfalso. eapply gtChunksFrom_nonempty; eauto.
Qed.

Lemma matchAt_newline p s :
  matchAt false re_newline p s =
  match s with
  | c :: s' =>
      if (c =? LF)%N then Some (1, [])
      else match s' with
           | d :: _ => if (c =? CR)%N && (d =? LF)%N then Some (2, []) else None
           | [] => None
           end
  | [] => None
  end.
Proof.
  unfold matchAt, re_newline. cbn [exec prev rest caps].
  destruct s as [|c s]; [reflexivity|].
  cbn [rep hiAllows option_map Nat.pred exec prev rest caps lit].
  change (isChar CR c) with (c =? CR)%N.
  rewrite andb_true_r, (N.eqb_sym LF c).
  destruct (c =? LF)%N eqn:ELF.
  - apply N.eqb_eq in ELF. subst c. change (LF =? CR)%N with false.
    cbn iota. cbn [rest caps List.length].
    rewrite Nat.sub_succ_l, Nat.sub_diag by lia. reflexivity.
  - destruct (c =? CR)%N eqn:ECR; cbn [andb].
    + destruct s as [|d s]; [reflexivity|].
      cbn [rep hiAllows option_map Nat.pred exec prev rest caps lit].
      rewrite andb_false_r. rewrite (N.eqb_sym LF d).
      destruct (d =? LF)%N eqn:EL.
      * cbn [rest caps List.length].
        replace (S (S (List.length s)) - List.length s) with 2 by lia. reflexivity.
      * reflexivity.
    + destruct s; reflexivity.
Qed.

Lemma linesOf_nonempty : forall s, linesOf s <> [].
Proof.
  assert (H : forall n s, List.length s <= n -> linesOf s <> []).
  { induction n as [|n IH]; intros s L.
    - destruct s; [simpl; discriminate|simpl in L; lia].
    - destruct s as [|c s]; [simpl; discriminate|].
      simpl. destruct (c =? LF)%N; [discriminate|].
      destruct s as [|d s]; [discriminate|].
      destruct ((c =? CR)%N && (d =? LF)%N); [discriminate|].
      destruct (linesOf (d :: s)); discriminate. }
  intros s. apply (H (List.length s)). lia.
Qed.

Lemma splitGo_newline : forall n s p cur, List.length s <= n ->
  splitGo false re_newline p s 0 cur =
  match linesOf s with
  | l :: ls => (rev cur ++ l) :: ls
  | [] => [rev cur]
  end.
Proof.
  induction n as [|n IH]; intros s p cur L.
  - destruct s; [|simpl in L; lia]. simpl. rewrite app_nil_r. reflexivity.
  - destruct s as [|c s]; [simpl; rewrite app_nil_r; reflexivity|].
    simpl in L. cbn [splitGo]. rewrite matchAt_newline. cbn [linesOf].
    destruct (c =? LF)%N.
    + rewrite app_nil_r. f_equal. rewrite IH by lia. cbn [rev app].
      destruct (linesOf s) eqn:G; [|reflexivity].
      exfalso. eapply linesOf_nonempty; eauto.
    + destruct s as [|d s].
      * simpl. reflexivity.
      * destruct ((c =? CR)%N && (d =? LF)%N).
        -- rewrite app_nil_r. f_equal. cbn [splitGo].
           simpl in L. rewrite IH by lia. cbn [rev app].
           destruct (linesOf s) eqn:G; [|reflexivity].
           exfalso. eapply linesOf_nonempty; eauto.
        -- rewrite IH by lia.
           destruct (linesOf (d :: s)) as [|l ls] eqn:G.
           ++ exfalso. eapply linesOf_nonempty; eauto.
           ++ cbn [rev]. rewrite <- app_assoc. reflexivity.
Qed.

(** [rec.split(/\r?\n/)] gives the lines. *)
Lemma split_newline s : split false re_newline s = linesOf s.
Proof.
  unfold split. destruct s as [|c s].
  - reflexivity.
  - rewrite (splitGo_newline (List.length (c :: s))) by lia.
    cbn [rev app].
    destruct (linesOf (c :: s)) eqn:G; [|reflexivity].
    exfalso. eapply linesOf_nonempty; eauto.
Qed.

Lemma leadingRun_le cls : forall s, leadingRun cls s <= List.length s.
Proof.
  induction s as [|c s IH]; simpl; [lia|]. destruct (cls c); simpl; lia.
Qed.

(** The run pattern [\s+] matches the whole leading run of white space. *)
Lemma matchAt_spaces p s :
  matchAt false re_spaces p s =
  match leadingRun ws s with
  | 0 => None
  | S n => Some (S n, [])
  end.
Proof.
  unfold matchAt, re_spaces, plus. cbn [exec prev rest caps].
  destruct (leadingRun ws s) as [|n] eqn:E.
  - rewrite rep_short; [reflexivity|lia].
  - rewrite <- (firstn_skipn (leadingRun ws s) s) at 1.
    erewrite rep_greedy; cycle 1.
    + apply leadingRun_firstn.
    + rewrite length_firstn. pose proof (leadingRun_le ws s). lia.
    + apply leadingRun_skipn.
    + reflexivity.
    + cbn [rest caps]. rewrite length_skipn.
      pose proof (leadingRun_le ws s).
      replace (List.length s - (List.length s - leadingRun ws s)) with (S n) by lia.
      reflexivity.
Qed.

Lemma nonws_of_ws c : nonws c = negb (ws c).
Proof. reflexivity. Qed.

Lemma filter_nonws_run : forall n s,
  n <= leadingRun ws s -> filter nonws (skipn n s) = filter nonws s.
Proof.
  induction n as [|n IH]; intros s H; [reflexivity|].
  destruct s as [|c s]; [reflexivity|].
  cbn [leadingRun] in H. cbn [skipn filter]. rewrite nonws_of_ws.
  destruct (ws c); cbn [negb]; [apply IH; lia|lia].
Qed.

Lemma replaceGo_spaces : forall s p skip,
  skip <= leadingRun ws s ->
  replaceGo false re_spaces [] p s skip = filter nonws s.
Proof.
  induction s as [|c s IH]; intros p skip H.
  - simpl in H. assert (skip = 0) by lia. subst skip. reflexivity.
  - cbn [replaceGo]. cbn [leadingRun] in H. destruct skip as [|n].
    + rewrite matchAt_spaces. cbn [leadingRun filter]. rewrite nonws_of_ws.
      destruct (ws c) eqn:W; cbn [negb app].
      * rewrite IH by lia. reflexivity.
      * rewrite IH by lia. reflexivity.
    + cbn [filter]. rewrite nonws_of_ws.
      destruct (ws c); cbn [negb]; [|lia].
      apply IH. lia.
Qed.

(** [replace(/\s+/g, '')] removes every white-space character. *)
Lemma replaceAll_spaces s :
  replaceAll false re_spaces [] s = stripWhitespace s.
Proof. unfold replaceAll. apply replaceGo_spaces. lia. Qed.

(** ** parseFasta against its description *)

Lemma fastaRecord_spec rec : fastaRecord rec = Ok (recordOfChunk rec).
Proof.
  unfold fastaRecord, recordOfChunk. rewrite split_newline.
  destruct (linesOf rec) as [|l ls] eqn:E.
  - exfalso. eapply linesOf_nonempty; eauto.
  - cbn [fst snd trimU bind hd tl]. rewrite replaceAll_spaces. reflexivity.
Qed.

Lemma mapM_pure {A B} (f : A -> result B) (g : A -> B) :
  (forall a, f a = Ok (g a)) -> forall l, mapM f l = Ok (List.map g l).
Proof.
  intros H. induction l as [|a l IH]; simpl; [reflexivity|].
  rewrite H, IH. reflexivity.
Qed.

Lemma filter_map_trim : forall chunks,
  List.map recordOfChunk (filter truthy (List.map trim chunks)) =
  List.map recordOfTrimmedChunk (filter notBlank chunks).
Proof.
  induction chunks as [|c chunks IH]; simpl; [reflexivity|].
  unfold notBlank at 1. destruct (truthy (trim c)); simpl; rewrite IH; reflexivity.
Qed.

(** The records are those of the non-blank chunks, in order, each built
    from its trimmed chunk. *)
Lemma parseFasta_spec text :
  parseFasta text =
  Ok (List.map recordOfTrimmedChunk (filter notBlank (gtChunks text))).
Proof.
  unfold parseFasta. rewrite split_gt.
  rewrite (mapM_pure fastaRecord recordOfChunk fastaRecord_spec).
  rewrite filter_map_trim. reflexivity.
Qed.

Lemma stripWhitespace_clean s : forallb nonws (stripWhitespace s) = true.
Proof.
  unfold stripWhitespace. apply forallb_forall. intros x H.
  apply filter_In in H. tauto.
Qed.

(** C5, amended. [parseFasta] emits one record per chunk that is not
    blank, in order of appearance; each record is built from the chunk
    after the whole chunk has been trimmed: the header is the first line
    of the trimmed chunk, trimmed again, the sequence is its remaining
    lines joined with all white space removed, and the length is the
    number of code units of the sequence; a trimmed chunk of a single line
    gives an empty sequence of length 0. *)
Theorem C5_records_of_trimmed_chunks (text : jsstring) :
  parseFasta text =
    Ok (List.map recordOfTrimmedChunk (filter notBlank (gtChunks text))) /\
  Forall
    (fun chunk =>
       let r := recordOfTrimmedChunk chunk in
       header r = trim (hd [] (linesOf (trim chunk))) /\
       sequence r = stripWhitespace (concat (tl (linesOf (trim chunk)))) /\
       forallb nonws (sequence r) = true /\
       length r = List.length (sequence r) /\
       match linesOf (trim chunk) with
       | [l] => r = mkFastaRecord (trim l) [] 0
       | _ => True
       end)
    (filter notBlank (gtChunks text)).
Proof.
  split; [apply parseFasta_spec|].
  apply Forall_forall. intros chunk _. cbv zeta.
  unfold recordOfTrimmedChunk, recordOfChunk. cbn [header sequence length].
  repeat split.
  - apply stripWhitespace_clean.
  - destruct (linesOf (trim chunk)) as [|l [|l2 ls]]; auto.
Qed.

(** ** Trimmed texts *)

Lemma trimStart_suffix : forall x, exists a, x = a ++ trimStart x.
Proof.
  induction x as [|c x [a IH]]; simpl.
  - exists []. reflexivity.
  - destruct (isWhiteSpace c).
    + exists (c :: a). simpl. rewrite <- IH. reflexivity.
    + exists []. reflexivity.
Qed.

Lemma trimStart_head : forall x, trimStart x = [] \/ headNonws (trimStart x) = true.
Proof.
  induction x as [|c x IH]; simpl.
  - left. reflexivity.
  - destruct (isWhiteSpace c) eqn:E; [exact IH|].
    right. simpl. unfold nonws. rewrite E. reflexivity.
Qed.

Lemma trimStart_id x : headNonws x = true -> trimStart x = x.
Proof.
  destruct x as [|c x]; simpl; [reflexivity|].
  unfold nonws. destruct (isWhiteSpace c); [discriminate|reflexivity].
Qed.

Lemma trimStart_snoc c : nonws c = true ->
  forall y, exists z, trimStart (y ++ [c]) = z ++ [c].
Proof.
  intros Hc. induction y as [|d y [z IH]]; simpl.
  - unfold nonws in Hc. destruct (isWhiteSpace c); [discriminate|].
    exists []. reflexivity.
  - destruct (isWhiteSpace d).
    + exists z. exact IH.
    + exists (d :: y). reflexivity.
Qed.

Lemma trimEnd_prefix x : exists b, x = trimEnd x ++ b.
Proof.
  unfold trimEnd. destruct (trimStart_suffix (rev x)) as [a E].
  exists (rev a). rewrite <- rev_app_distr, <- E, rev_involutive. reflexivity.
Qed.

Lemma trimEnd_last x : trimEnd x = [] \/ lastNonws (trimEnd x) = true.
Proof.
  unfold trimEnd, lastNonws. rewrite rev_involutive.
  destruct (trimStart_head (rev x)) as [E|E].
  - left. rewrite E. reflexivity.
  - right. exact E.
Qed.

Lemma trimEnd_id x : lastNonws x = true -> trimEnd x = x.
Proof.
  unfold trimEnd, lastNonws. intros H.
  rewrite trimStart_id by exact H. apply rev_involutive.
Qed.

Lemma trimEnd_head x : headNonws x = true -> headNonws (trimEnd x) = true.
Proof.
  destruct x as [|c x]; simpl; [discriminate|]. intros Hc.
  unfold trimEnd. simpl.
  destruct (trimStart_snoc c Hc (rev x)) as [z ->].
  rewrite rev_app_distr. simpl. exact Hc.
Qed.

Lemma trimEnd_snoc_ws y c : ws c = true -> trimEnd (y ++ [c]) = trimEnd y.
Proof.
  intros H. unfold trimEnd. rewrite rev_app_distr. simpl.
  unfold ws in H. rewrite H. reflexivity.
Qed.

Lemma headNonws_nonempty x : headNonws x = true -> x <> [].
Proof. destruct x; [discriminate|discriminate]. Qed.

(** What is left after trimming, if anything, begins and ends with
    something other than white space. *)
Lemma trim_shape x :
  truthy (trim x) = true ->
  headNonws (trim x) = true /\ lastNonws (trim x) = true.
Proof.
  unfold trim. intros H.
  destruct (trimStart_head x) as [E|E].
  - rewrite E in H. discriminate.
  - split.
    + apply trimEnd_head. exact E.
    + destruct (trimEnd_last (trimStart x)) as [L|L]; [|exact L].
      rewrite L in H. discriminate.
Qed.

Lemma trim_id x : headNonws x = true -> lastNonws x = true -> trim x = x.
Proof.
  intros H L. unfold trim. rewrite trimStart_id by exact H.
  apply trimEnd_id. exact L.
Qed.

Lemma trim_sub x : exists a b, x = a ++ trim x ++ b.
Proof.
  unfold trim. destruct (trimStart_suffix x) as [a Ea].
  destruct (trimEnd_prefix (trimStart x)) as [b Eb].
  exists a, b. rewrite <- Eb. exact Ea.
Qed.

Lemma trim_head x : headNonws x = true -> headNonws (trim x) = true.
Proof.
  intros H. unfold trim. rewrite trimStart_id by exact H.
  apply trimEnd_head. exact H.
Qed.

Lemma lastNonws_app y z : z <> [] -> lastNonws (y ++ z) = lastNonws z.
Proof.
  intros H. unfold lastNonws. rewrite rev_app_distr.
  destruct (rev z) as [|c r] eqn:E.
  - apply (f_equal (@rev char)) in E. rewrite rev_involutive in E.
    simpl in E. contradiction.
  - reflexivity.
Qed.

(** ** Texts without a [>] at the beginning of a line *)

Lemma noGt_weaken : forall s ls,
  noGtAtLineStart ls s = true -> noGtAtLineStart false s = true.
Proof.
  destruct s as [|c s]; intros ls H; simpl in *; [reflexivity|].
  apply andb_prop in H. destruct H as [_ H]. exact H.
Qed.

Lemma noGt_app : forall a b ls,
  noGtAtLineStart ls (a ++ b) = true ->
  noGtAtLineStart ls a = true /\ noGtAtLineStart false b = true.
Proof.
  induction a as [|c a IH]; intros b ls H; simpl in *.
  - split; [reflexivity|]. eapply noGt_weaken. exact H.
  - apply andb_prop in H. destruct H as [H1 H2].
    apply IH in H2. destruct H2 as [H2 H3].
    rewrite H1, H2. split; [reflexivity|exact H3].
Qed.

Lemma noGt_sub a x b :
  noGtAtLineStart false (a ++ x ++ b) = true -> noGtAtLineStart false x = true.
Proof.
  intros H. apply noGt_app in H. destruct H as [_ H].
  apply noGt_app in H. tauto.
Qed.

Lemma noGt_line : forall h x ls,
  noGtAtLineStart ls (h ++ LF :: x) =
  noGtAtLineStart ls h && noGtAtLineStart true x.
Proof.
  induction h as [|c h IH]; intros x ls; simpl.
  - rewrite andb_false_r. reflexivity.
  - rewrite IH, andb_assoc. reflexivity.
Qed.

Lemma gtChunksFrom_single : forall s ls,
  noGtAtLineStart ls s = true -> gtChunksFrom ls s = [s].
Proof.
  induction s as [|c s IH]; intros ls H; simpl in *; [reflexivity|].
  apply andb_prop in H. destruct H as [H1 H2].
  apply negb_true_iff in H1. rewrite H1. rewrite IH by exact H2. reflexivity.
Qed.

(** No chunk has a [>] at the beginning of a line inside it. *)
Lemma gtChunksFrom_noGt : forall s ls,
  match gtChunksFrom ls s with
  | ch :: chs =>
      noGtAtLineStart ls ch = true /\
      Forall (fun c => noGtAtLineStart false c = true) chs
  | [] => False
  end.
Proof.
  induction s as [|c s IH]; intros ls; simpl.
  - split; [reflexivity|constructor].
  - destruct (ls && (c =? GT)%N) eqn:E.
    + split; [reflexivity|].
      specialize (IH false). destruct (gtChunksFrom false s) as [|ch chs];
        [contradiction|].
      destruct IH as [H1 H2]. constructor; assumption.
    + specialize (IH (isLineTerminator c)).
      destruct (gtChunksFrom (isLineTerminator c) s) as [|ch chs];
        [contradiction|].
      destruct IH as [H1 H2]. split; [|exact H2].
      simpl. rewrite E, H1. reflexivity.
Qed.

Lemma gtChunks_noGt text chunk :
  In chunk (gtChunks text) -> noGtAtLineStart false chunk = true.
Proof.
  unfold gtChunks. intros H.
  pose proof (gtChunksFrom_noGt text true) as G.
  destruct (gtChunksFrom true text) as [|ch chs]; [contradiction|].
  destruct G as [G1 G2]. destruct H as [<-|H].
  - eapply noGt_weaken. exact G1.
  - rewrite Forall_forall in G2. apply G2. exact H.
Qed.


(** ** Lines *)

Lemma nonws_not_LF c : nonws c = true -> (c =? LF)%N = false.
Proof.
  intros H. destruct (c =? LF)%N eqn:E; [|reflexivity].
  apply N.eqb_eq in E. subst c. discriminate.
Qed.

Lemma nonws_not_CR c : nonws c = true -> (c =? CR)%N = false.
Proof.
  intros H. destruct (c =? CR)%N eqn:E; [|reflexivity].
  apply N.eqb_eq in E. subst c. discriminate.
Qed.

Lemma nonws_not_lt c : nonws c = true -> isLineTerminator c = false.
Proof.
  intros H. destruct (isLineTerminator c) eqn:E; [|reflexivity].
  apply lineTerminator_is_ws in E. unfold nonws in H. rewrite E in H.
  discriminate.
Qed.

(** The first line is the beginning of the text and has no line feed. *)
Lemma linesOf_first : forall n x l ls, List.length x <= n ->
  linesOf x = l :: ls ->
  (exists more, x = l ++ more) /\ forallb notLF l = true.
Proof.
  induction n as [|n IH]; intros x l ls L H.
  - destruct x; [|simpl in L; lia]. simpl in H. inversion H; subst.
    split; [exists []; reflexivity|reflexivity].
  - destruct x as [|c x].
    { simpl in H. inversion H; subst.
      split; [exists []; reflexivity|reflexivity]. }
    simpl in L. cbn [linesOf] in H.
    destruct (c =? LF)%N eqn:ELF.
    { inversion H; subst. split; [exists (c :: x); reflexivity|reflexivity]. }
    destruct x as [|d x].
    { inversion H; subst. split; [exists []; reflexivity|].
      simpl. unfold notLF. rewrite ELF. reflexivity. }
    destruct ((c =? CR)%N && (d =? LF)%N).
    { inversion H; subst. split; [exists (c :: d :: x); reflexivity|reflexivity]. }
    destruct (linesOf (d :: x)) as [|l' ls'] eqn:G.
    { exfalso. eapply linesOf_nonempty; eauto. }
    inversion H; subst.
    destruct (IH (d :: x) l' ls) as [[more E] F]; [simpl in *; lia|exact G|].
    split.
    + exists more. simpl. rewrite E. reflexivity.
    + simpl. unfold notLF at 1. rewrite ELF. exact F.
Qed.

Lemma linesOf_head x : headNonws x = true ->
  exists l ls, linesOf x = l :: ls /\ headNonws l = true.
Proof.
  destruct x as [|c x]; simpl; [discriminate|]. intros Hc.
  rewrite (nonws_not_LF c Hc), (nonws_not_CR c Hc). simpl.
  destruct x as [|d x].
  - exists [c], []. split; [reflexivity|exact Hc].
  - destruct (linesOf (d :: x)) as [|l ls].
    + exists [c], []. split; [reflexivity|exact Hc].
    + exists (c :: l), ls. split; [reflexivity|exact Hc].
Qed.

(** A text without a line feed is one line. *)
Lemma linesOf_single : forall h, forallb notLF h = true -> linesOf h = [h].
Proof.
  induction h as [|c h IH]; intros H; [reflexivity|].
  simpl in H. apply andb_prop in H. destruct H as [Hc Hh].
  cbn [linesOf]. unfold notLF in Hc. apply negb_true_iff in Hc. rewrite Hc.
  destruct h as [|d h]; [reflexivity|].
  assert (Hd : (d =? LF)%N = false).
  { simpl in Hh. apply andb_prop in Hh. destruct Hh as [Hd _].
    unfold notLF in Hd. apply negb_true_iff in Hd. exact Hd. }
  rewrite Hd, andb_false_r. rewrite IH by exact Hh. reflexivity.
Qed.

(** A line that does not end in white space, followed by a line feed. *)
Lemma linesOf_line : forall h x,
  forallb notLF h = true -> lastNonws h = true ->
  linesOf (h ++ LF :: x) = h :: linesOf x.
Proof.
  induction h as [|c h IH]; intros x H L; [discriminate|].
  simpl in H. apply andb_prop in H. destruct H as [Hc Hh].
  unfold notLF in Hc. apply negb_true_iff in Hc.
  cbn [app linesOf]. rewrite Hc.
  destruct h as [|d h].
  - cbn [app]. unfold lastNonws in L. simpl in L.
    rewrite (nonws_not_CR c L). cbn [andb].
    change (LF =? LF)%N with true. cbn iota.
    destruct (linesOf x) as [|l ls] eqn:G.
    { exfalso. eapply linesOf_nonempty; eauto. }
    assert (E : linesOf (LF :: x) = [] :: l :: ls) by (simpl; rewrite G; reflexivity).
    rewrite E. reflexivity.
  - cbn [app].
    assert (Hd : (d =? LF)%N = false).
    { simpl in Hh. apply andb_prop in Hh. destruct Hh as [Hd _].
      unfold notLF in Hd. apply negb_true_iff in Hd. exact Hd. }
    rewrite Hd, andb_false_r.
    change (d :: h ++ LF :: x) with ((d :: h) ++ LF :: x).
    rewrite IH; [reflexivity|exact Hh|].
    rewrite <- L. change (c :: d :: h) with ([c] ++ d :: h).
    symmetry. apply lastNonws_app. discriminate.
Qed.

(** Cutting into lines loses white space only. *)
Lemma strip_lines : forall n x, List.length x <= n ->
  stripWhitespace (concat (linesOf x)) = stripWhitespace x.
Proof.
  unfold stripWhitespace.
  induction n as [|n IH]; intros x L.
  - destruct x; [reflexivity|simpl in L; lia].
  - destruct x as [|c x]; [reflexivity|]. simpl in L.
    cbn [linesOf].
    destruct (c =? LF)%N eqn:ELF.
    { apply N.eqb_eq in ELF. subst c. cbn [concat app filter].
      change (nonws LF) with false. cbn iota. apply IH. lia. }
    destruct x as [|d x].
    { simpl. reflexivity. }
    destruct ((c =? CR)%N && (d =? LF)%N) eqn:E.
    { apply andb_prop in E. destruct E as [E1 E2].
      apply N.eqb_eq in E1, E2. subst c d. cbn [concat app filter].
      change (nonws CR) with false. change (nonws LF) with false. cbn iota.
      apply IH. simpl in L. lia. }
    pose proof (IH (d :: x) ltac:(simpl in *; lia)) as H.
    destruct (linesOf (d :: x)) as [|l ls] eqn:G.
    { exfalso. eapply linesOf_nonempty; eauto. }
    cbn [concat app filter] in *. rewrite H. reflexivity.
Qed.

(** ** Re-wrapped sequences *)

Lemma strip_rewrap w : forall s room,
  forallb nonws s = true -> stripWhitespace (rewrapGo w room s) = s.
Proof.
  unfold stripWhitespace.
  induction s as [|c s IH]; intros room H; [reflexivity|].
  simpl in H. apply andb_prop in H. destruct H as [Hc Hs].
  destruct room; cbn [rewrapGo filter].
  - change (nonws LF) with false. cbn iota. rewrite Hc, IH by exact Hs.
    reflexivity.
  - rewrite Hc, IH by exact Hs. reflexivity.
Qed.

Lemma rewrapGo_0 w c s :
  rewrapGo w 0 (c :: s) = [LF; c] ++ rewrapGo w (Nat.pred w) s.
Proof. reflexivity. Qed.

Lemma rewrapGo_S w n c s :
  rewrapGo w (S n) (c :: s) = [c] ++ rewrapGo w n s.
Proof. reflexivity. Qed.

Lemma rewrapGo_nonempty w : forall s room, s <> [] -> rewrapGo w room s <> [].
Proof. destruct s; intros room H; [contradiction|]. destruct room; discriminate. Qed.

Lemma rewrapGo_last w : forall s room,
  s <> [] -> forallb nonws s = true -> lastNonws (rewrapGo w room s) = true.
Proof.
  induction s as [|c s IH]; intros room Hne H; [contradiction|].
  simpl in H. apply andb_prop in H. destruct H as [Hc Hs].
  destruct s as [|d s].
  - destruct room; simpl; unfold lastNonws; simpl; exact Hc.
  - assert (R : forall room', lastNonws (rewrapGo w room' (d :: s)) = true)
      by (intros; apply IH; [discriminate|exact Hs]).
    destruct room.
    + rewrite rewrapGo_0.
      rewrite lastNonws_app; [apply R|apply rewrapGo_nonempty; discriminate].
    + rewrite rewrapGo_S.
      rewrite lastNonws_app; [apply R|apply rewrapGo_nonempty; discriminate].
Qed.

(** When no line of the re-wrapped sequence begins with [>], the
    re-wrapped text has no [>] at a line start. *)
Lemma rewrapGo_noGt w : 0 < w -> forall s room ls,
  forallb nonws s = true ->
  (forall i, nth_error s (room + i * w) <> Some GT) ->
  (ls = true -> nth_error s 0 <> Some GT) ->
  noGtAtLineStart ls (rewrapGo w room s ++ [LF]) = true.
Proof.
  intros Hw. induction s as [|c s IH]; intros room ls H Hi H0.
  - simpl. rewrite andb_false_r. reflexivity.
  - simpl in H. apply andb_prop in H. destruct H as [Hc Hs].
    destruct room as [|room]; cbn [rewrapGo app noGtAtLineStart].
    + change (LF =? GT)%N with false. rewrite andb_false_r.
      change (isLineTerminator LF) with true. cbn [negb andb].
      assert (Cg : (c =? GT)%N = false).
      { destruct (c =? GT)%N eqn:E; [|reflexivity].
        apply N.eqb_eq in E. subst c. exfalso. apply (Hi 0). reflexivity. }
      rewrite Cg, (nonws_not_lt c Hc). cbn [negb andb].
      apply IH; [exact Hs| |discriminate].
      intros i. specialize (Hi (S i)).
      replace (0 + S i * w) with (S (Nat.pred w + i * w)) in Hi by lia.
      exact Hi.
    + rewrite (nonws_not_lt c Hc).
      assert (Cg : ls && (c =? GT)%N = false).
      { destruct ls; [|reflexivity]. simpl.
        destruct (c =? GT)%N eqn:E; [|reflexivity].
        apply N.eqb_eq in E. subst c. exfalso. apply H0; reflexivity. }
      rewrite Cg. cbn [negb andb].
      apply IH; [exact Hs| |discriminate].
      intros i. specialize (Hi i). exact Hi.
Qed.

Lemma rewrap_noGt w s :
  0 < w -> forallb nonws s = true ->
  (forall i, nth_error s (i * w) <> Some GT) ->
  noGtAtLineStart true (rewrap w s ++ [LF]) = true.
Proof.
  intros Hw Hs Hi. unfold rewrap. apply rewrapGo_noGt; auto.
  - intros i. specialize (Hi (S i)).
    replace (w + i * w) with (S i * w) by lia. exact Hi.
  - intros _. apply (Hi 0).
Qed.

(** ** Writing a record out and reading it back *)

(** What every record that [parseFasta] emits looks like. *)
Lemma record_shape text chunk :
  In chunk (gtChunks text) -> notBlank chunk = true ->
  headNonws (header (recordOfTrimmedChunk chunk)) = true /\
  lastNonws (header (recordOfTrimmedChunk chunk)) = true /\
  forallb notLF (header (recordOfTrimmedChunk chunk)) = true /\
  noGtAtLineStart false (header (recordOfTrimmedChunk chunk)) = true /\
  forallb nonws (sequence (recordOfTrimmedChunk chunk)) = true /\
  length (recordOfTrimmedChunk chunk) =
    List.length (sequence (recordOfTrimmedChunk chunk)).
Proof.
  intros Hin Hnb. unfold notBlank in Hnb.
  destruct (trim_shape chunk Hnb) as [Th Tl].
  assert (Tg : noGtAtLineStart false (trim chunk) = true).
  { destruct (trim_sub chunk) as (a & b & E).
    apply (noGt_sub a (trim chunk) b). rewrite <- E.
    eapply gtChunks_noGt. exact Hin. }
  unfold recordOfTrimmedChunk, recordOfChunk. cbn [header sequence length].
  destruct (linesOf_head (trim chunk) Th) as (l & ls & El & Hl).
  rewrite El. cbn [hd tl].
  destruct (linesOf_first (List.length (trim chunk)) (trim chunk) l ls
              (Nat.le_refl _) El) as [[more Em] Fl].
  assert (Hh : headNonws (trim l) = true) by (apply trim_head; exact Hl).
  assert (Ht : truthy (trim l) = true).
  { destruct (trim l); [discriminate|reflexivity]. }
  destruct (trim_shape l Ht) as [_ Ll].
  destruct (trim_sub l) as (a & b & E).
  repeat split.
  - exact Hh.
  - exact Ll.
  - rewrite E in Fl. rewrite !forallb_app in Fl.
    apply andb_prop in Fl. destruct Fl as [_ Fl].
    apply andb_prop in Fl. tauto.
  - apply (noGt_sub a (trim l) b). rewrite <- E.
    rewrite Em in Tg. apply noGt_app in Tg. tauto.
  - apply stripWhitespace_clean.
Qed.

Lemma notBlank_nil : notBlank [] = false.
Proof. reflexivity. Qed.

(** The text written for a record of that shape parses back to the
    record. *)
Lemma reparse h s w :
  headNonws h = true -> lastNonws h = true -> forallb notLF h = true ->
  noGtAtLineStart false h = true -> forallb nonws s = true ->
  0 < w -> (forall i, nth_error s (i * w) <> Some GT) ->
  parseFasta (fastaText (mkFastaRecord h s (List.length s)) w) =
  Ok [mkFastaRecord h s (List.length s)].
Proof.
  intros Hh Hl Hlf Hg Hs Hw Hi.
  rewrite parseFasta_spec. unfold fastaText. cbn [header sequence].
  unfold gtChunks. cbn [gtChunksFrom]. rewrite N.eqb_refl. cbn [andb].
  rewrite gtChunksFrom_single.
  2:{ cbn [app]. rewrite noGt_line, Hg. apply rewrap_noGt; assumption. }
  cbn [filter]. rewrite notBlank_nil.
  assert (T : trim (h ++ [LF] ++ rewrap w s ++ [LF]) =
              match s with [] => h | _ :: _ => h ++ LF :: rewrap w s end).
  { unfold trim. rewrite trimStart_id.
    2:{ destruct h; [discriminate|exact Hh]. }
    replace (h ++ [LF] ++ rewrap w s ++ [LF])
      with ((h ++ LF :: rewrap w s) ++ [LF])
      by (rewrite <- app_assoc; reflexivity).
    rewrite trimEnd_snoc_ws by reflexivity.
    destruct s as [|c s].
    - change (rewrap w []) with (@nil char).
      rewrite trimEnd_snoc_ws by reflexivity. apply trimEnd_id. exact Hl.
    - apply trimEnd_id.
      rewrite lastNonws_app by discriminate.
      change (LF :: rewrap w (c :: s)) with ([LF] ++ rewrap w (c :: s)).
      rewrite lastNonws_app by (apply rewrapGo_nonempty; discriminate).
      apply rewrapGo_last; [discriminate|exact Hs]. }
  unfold notBlank. rewrite T.
  assert (Tr : truthy (match s with [] => h | _ :: _ => h ++ LF :: rewrap w s end) = true).
  { destruct h; [discriminate|]. destruct s; reflexivity. }
  rewrite Tr. cbn [List.map]. f_equal. f_equal.
  unfold recordOfTrimmedChunk, recordOfChunk. rewrite T.
  destruct s as [|c s].
  - rewrite linesOf_single by exact Hlf. cbn [hd tl concat].
    rewrite trim_id by assumption. reflexivity.
  - rewrite linesOf_line by assumption. cbn [hd tl].
    rewrite trim_id by assumption.
    rewrite (strip_lines (List.length (rewrap w (c :: s)))) by lia.
    unfold rewrap. rewrite strip_rewrap by exact Hs. reflexivity.
Qed.

(** C8, amended. For every record that [parseFasta] produces, and every
    positive width at which no line of the re-wrapped sequence begins
    with [>], writing the header after [>] and the sequence in lines of
    that width and parsing the text again gives exactly that record. *)
Theorem C8_round_trip (text : jsstring) (records : list FastaRecord)
    (r : FastaRecord) (w : nat) :
  parseFasta text = Ok records -> In r records -> 0 < w ->
  (forall i, nth_error (sequence r) (i * w) <> Some GT) ->
  parseFasta (fastaText r w) = Ok [r].
Proof.
  intros Hp Hin Hw Hi.
  rewrite parseFasta_spec in Hp. inversion Hp; subst records; clear Hp.
  apply in_map_iff in Hin. destruct Hin as (chunk & <- & Hc).
  apply filter_In in Hc. destruct Hc as [Hc Hnb].
  destruct (record_shape text chunk Hc Hnb) as (Hh & Hl & Hlf & Hg & Hs & Hn).
  destruct (recordOfTrimmedChunk chunk) as [h s n]. cbn [header sequence length] in *.
  subst n. apply reparse; assumption.
Qed.

Lemma nth_error_no_gt s :
  forallb (fun c => negb (c =? GT)%N) s = true ->
  forall n, nth_error s n <> Some GT.
Proof.
  intros H n E. apply nth_error_In in E.
  rewrite forallb_forall in H. apply H in E. discriminate.
Qed.

(** The theorem above at a sample input. *)
Lemma C8_round_trip_witness :
  parseFasta (fastaText (mkFastaRecord (str "seq1") (str "ACGTACGT") 8) 3) =
  Ok [mkFastaRecord (str "seq1") (str "ACGTACGT") 8].
Proof.
  apply (C8_round_trip twoRecords
           [mkFastaRecord (str "seq1") (str "ACGTACGT") 8;
            mkFastaRecord (str "seq2") (str "TTTT") 4]).
  - vm_compute. reflexivity.
  - left. reflexivity.
  - lia.
  - intros i. apply nth_error_no_gt. vm_compute. reflexivity.
Defined.

(** The example of the specification. *)
Example parseFasta_two_records :
  parseFasta twoRecords =
  Ok [mkFastaRecord (str "seq1") (str "ACGTACGT") 8;
      mkFastaRecord (str "seq2") (str "TTTT") 4].
Proof. vm_compute. reflexivity. Qed.

(** ** Repeated qualifiers *)

(** A key that holds a single value gets an array of the old and the
    new value; a key that holds an array gets the new value appended. *)
Lemma addQualifier_second q k a b :
  assoc k (own q) = Some (VAtom a) ->
  get (addQualifier q k b) k = Some (VArr [a; b]).
Proof.
  intros H. unfold addQualifier. rewrite (get_own _ _ _ H).
  unfold set. rewrite H. apply get_own. simpl.
  eapply assoc_update_same. exact H.
Qed.

Lemma addQualifier_more q k l b :
  assoc k (own q) = Some (VArr l) ->
  get (addQualifier q k b) k = Some (VArr (l ++ [b])).
Proof.
  intros H. unfold addQualifier. rewrite (get_own _ _ _ H).
  unfold push. rewrite H. apply get_own. simpl.
  eapply assoc_update_same. exact H.
Qed.

(** For a key that names nothing on the prototype chain, two occurrences
    give the array of both values, in order. *)
Lemma addQualifier_twice q k a b :
  get q k = None ->
  get (addQualifier (addQualifier q k a) k b) k = Some (VArr [a; b]).
Proof.
  intros H. apply addQualifier_second.
  pose proof (addQualifier_new q k a H) as G.
  unfold addQualifier in *. rewrite H in *.
  unfold get in H. destruct (assoc k (own q)) eqn:E; [discriminate|].
  unfold set in *. rewrite E in *.
  destruct (jsstring_eqb k (str "__proto__")) eqn:P.
  - exfalso. unfold objectPrototypeGet in H. rewrite P in H.
    destruct (proto q) as [l|].
    + destruct (arrayOwnGet l k); [discriminate|].
      destruct (memStr k arrayPrototypeNames); discriminate.
    + discriminate.
  - simpl. apply assoc_app_new. exact E.
Qed.

(** ** The last key of an object *)

Lemma last_map_Some {A} : forall (l : list A) k,
  last (List.map Some l) None = Some k -> In k l.
Proof.
  induction l as [|a l IH]; intros k H; simpl in H; [discriminate|].
  destruct l as [|b l].
  - simpl in H. inversion H. left. reflexivity.
  - right. apply IH. exact H.
Qed.

Lemma insertIndex_in x : forall l y,
  In y (insertIndex x l) -> y = x \/ In y l.
Proof.
  induction l as [|z l IH]; intros y H; simpl in H.
  - destruct H as [<-|[]]. left. reflexivity.
  - destruct (fst x <? fst z)%N.
    + destruct H as [<-|H]; [left; reflexivity|right; exact H].
    + destruct H as [<-|H]; [right; left; reflexivity|].
      apply IH in H. destruct H as [->|H]; [left; reflexivity|right; right; exact H].
Qed.

Lemma indexKeys_in : forall ks acc y,
  In y (fold_left
          (fun acc k => match arrayIndex k with
                        | Some i => insertIndex (i, k) acc
                        | None => acc
                        end) ks acc) ->
  In y acc \/ In (snd y) ks.
Proof.
  induction ks as [|k ks IH]; intros acc y H; simpl in H.
  - left. exact H.
  - apply IH in H. destruct H as [H|H]; [|right; right; exact H].
    destruct (arrayIndex k) as [i|]; [|left; exact H].
    apply insertIndex_in in H. destruct H as [->|H]; [right; left; reflexivity|left; exact H].
Qed.

Lemma keys_own q k : In k (keys q) -> In k (List.map fst (own q)).
Proof.
  unfold keys. intros H. apply in_app_or in H. destruct H as [H|H].
  - apply in_map_iff in H. destruct H as (y & <- & H).
    unfold indexKeys in H. apply indexKeys_in in H.
    destruct H as [[]|H]. exact H.
  - apply filter_In in H. tauto.
Qed.

Lemma assoc_in k : forall l, In k (List.map fst l) -> exists v, assoc k l = Some v.
Proof.
  induction l as [|[k0 v0] l IH]; intros H; simpl in *; [contradiction|].
  destruct (jsstring_eqb k k0) eqn:E; [eauto|].
  destruct H as [H|H]; [|apply IH; exact H].
  subst k0. rewrite jsstring_eqb_refl in E. discriminate.
Qed.

(** The last of the keys is an own key. *)
Lemma lastKeyOf_own q k :
  lastKeyOf q = Some k -> exists v, assoc k (own q) = Some v.
Proof.
  unfold lastKeyOf. intros H. apply last_map_Some in H.
  apply assoc_in. apply keys_own. exact H.
Qed.

(** Only the last element of an array is extended. *)
Lemma appendLast_snoc front a s :
  appendLast (front ++ [a]) s = front ++ [AStr (toStr a ++ s)].
Proof.
  unfold appendLast. rewrite rev_app_distr. simpl.
  rewrite rev_involutive. reflexivity.
Qed.

Lemma set_own q k v v0 :
  assoc k (own q) = Some v0 -> set q k v = Object (update k v (own q)) (proto q).
Proof. unfold set. intros ->. reflexivity. Qed.

(** ** The slice of the feature table *)

Lemma clampIndex_le len n : n <= len -> clampIndex len (Z.of_nat n) = n.
Proof. intros H. unfold clampIndex. rewrite Nat2Z.id. lia. Qed.

Lemma substring_between pre table post :
  substring (pre ++ table ++ post) (Z.of_nat (List.length pre))
    (Some (Z.of_nat (List.length pre + List.length table))) = table.
Proof.
  unfold substring. rewrite !clampIndex_le by (rewrite !length_app; lia).
  rewrite Nat.min_l, Nat.max_r by lia.
  rewrite skipn_len_app by reflexivity.
  apply firstn_len_app. lia.
Qed.

Lemma substring_to_end pre table :
  substring (pre ++ table) (Z.of_nat (List.length pre)) None = table.
Proof.
  unfold substring. rewrite !clampIndex_le by (rewrite !length_app; lia).
  rewrite length_app, Nat.min_l, Nat.max_r by lia.
  rewrite skipn_len_app by reflexivity.
  apply firstn_all2. lia.
Qed.

Lemma of_nat_not_minus_one n : (Z.of_nat n =? -1)%Z = false.
Proof. apply Z.eqb_neq. lia. Qed.

(** C2, amended. The slice of the feature table starts where the first
    line beginning with FEATURES starts.  It ends where the first line of
    the text beginning with ORIGIN starts, when that line is not above the
    FEATURES line; when no line begins with ORIGIN, it ends at the line
    break before the first line beginning with two slashes after the
    FEATURES start; when there is neither, it runs to the end of the
    text. *)
Theorem C2_feature_table_slice (text pre table post : jsstring) :
  text = pre ++ table ++ post ->
  firstLineWith (str "FEATURES") text = Some (List.length pre) ->
  firstLineWith (str "ORIGIN") text = Some (List.length pre + List.length table)
  \/ (firstLineWith (str "ORIGIN") text = None /\
      indexOf (LF :: str "//") (Z.of_nat (List.length pre)) text =
        Z.of_nat (List.length pre + List.length table))
  \/ (firstLineWith (str "ORIGIN") text = None /\
      indexOf (LF :: str "//") (Z.of_nat (List.length pre)) text = (-1)%Z /\
      post = []) ->
  featuresText text = Some table.
Proof.
  intros Ht Hf Hend. unfold featuresText, re_FEATURES, re_ORIGIN. cbv zeta.
  rewrite !search_keyword, Hf, of_nat_not_minus_one.
  destruct Hend as [Ho|[[Ho Hs]|[Ho [Hs Hp]]]]; rewrite Ho.
  - rewrite of_nat_not_minus_one. cbn [negb].
    rewrite of_nat_not_minus_one, Ht, substring_between. reflexivity.
  - change (-1 =? -1)%Z with true. cbn [negb]. rewrite Hs.
    rewrite of_nat_not_minus_one, Ht, substring_between. reflexivity.
  - change (-1 =? -1)%Z with true. cbn [negb]. rewrite Hs.
    change (-1 =? -1)%Z with true. cbn iota.
    rewrite Ht, Hp, app_nil_r, substring_to_end. reflexivity.
Qed.

(** The theorem above at a sample input. *)
Lemma C2_feature_table_slice_witness :
  featuresText withOrigin =
    Some (text_of_lines [str "FEATURES"; spaces 5 ++ str "CDS 1..2"]) /\
  featuresText withSlashes =
    Some (str "FEATURES" ++ [LF] ++ spaces 5 ++ str "CDS 1..2") /\
  featuresText withNeither =
    Some (text_of_lines [str "FEATURES"; spaces 5 ++ str "CDS 1..2"]).
Proof.
  split; [|split].
  - apply (C2_feature_table_slice withOrigin
             (text_of_lines [str "LOCUS x"])
             (text_of_lines [str "FEATURES"; spaces 5 ++ str "CDS 1..2"])
             (text_of_lines [str "ORIGIN"; str "//"])).
    + vm_compute. reflexivity.
    + vm_compute. reflexivity.
    + left. vm_compute. reflexivity.
  - apply (C2_feature_table_slice withSlashes []
             (str "FEATURES" ++ [LF] ++ spaces 5 ++ str "CDS 1..2")
             (text_of_lines [[]; str "//"])).
    + vm_compute. reflexivity.
    + vm_compute. reflexivity.
    + right. left. split; vm_compute; reflexivity.
  - apply (C2_feature_table_slice withNeither []
             (text_of_lines [str "FEATURES"; spaces 5 ++ str "CDS 1..2"]) []).
    + vm_compute. reflexivity.
    + vm_compute. reflexivity.
    + right. right. repeat split; vm_compute; reflexivity.
Defined.

(** ** The three functions return *)

Lemma test_keyword w s :
  test true (Bol +++ Lit w) s =
  match firstLineWith w s with
  | Some _ => true
  | None => false
  end.
Proof.
  unfold test, firstLineWith, jsMatch.
  change (firstLineFrom w true 0 s) with (firstLineFrom w (lineStart None) 0 s).
  rewrite <- (searchFrom_keyword w s 0 None).
  destruct (searchFrom true (Bol +++ Lit w) 0 None s); reflexivity.
Qed.

(** The detector, without regular expressions. *)
Lemma detectFormat_spec text :
  detectFormat text =
  match firstLineWith (str "LOCUS") text with
  | Some _ => genbank
  | None =>
      match firstLineWith [GT] (trim text) with
      | Some _ => fasta
      | None => unknown
      end
  end.
Proof.
  unfold detectFormat, re_LOCUS, re_gt. rewrite !test_keyword.
  destruct (firstLineWith (str "LOCUS") text); [reflexivity|].
  destruct (firstLineWith [GT] (trim text)); reflexivity.
Qed.

Lemma featureList_without_FEATURES text :
  firstLineWith (str "FEATURES") text = None -> featureList text = Ok [].
Proof.
  intros H. unfold featureList, featuresText, re_FEATURES. cbv zeta.
  rewrite search_keyword, H. reflexivity.
Qed.

(** C9. For every input string none of the three functions raises.
    The detector answers genbank when a line begins with LOCUS, else
    fasta when a line of the trimmed text begins with [>], else unknown;
    [parseFasta] and [parseGenBank] each return a value, and a text
    without a FEATURES line gives the empty feature list. *)
Theorem C9_parsers_never_raise (text : jsstring) :
  detectFormat text =
    match firstLineWith (str "LOCUS") text with
    | Some _ => genbank
    | None =>
        match firstLineWith [GT] (trim text) with
        | Some _ => fasta
        | None => unknown
        end
    end /\
  (exists records, parseFasta text = Ok records) /\
  (exists doc, parseGenBank text = Ok doc /\
               match firstLineWith (str "FEATURES") text with
               | Some _ => True
               | None => features doc = []
               end).
Proof.
  split; [apply detectFormat_spec|]. split.
  - unfold parseFasta. apply mapM_ok. apply fastaRecord_ok.
  - unfold parseGenBank.
    destruct (firstLineWith (str "FEATURES") text) as [n|] eqn:F.
    + destruct (featureList_ok text) as [fs ->]. simpl. eauto.
    + rewrite (featureList_without_FEATURES text F). simpl. eauto.
Qed.

(** ** The examples of the specification *)

Example detect_genbank_even_with_gt :
  detectFormat (text_of_lines [str ">x"; str "LOCUS   NC_001 ..."]) = genbank.
Proof. vm_compute. reflexivity. Qed.

Example detect_fasta : detectFormat twoRecords = fasta.
Proof. vm_compute. reflexivity. Qed.

Example detect_unknown : detectFormat (str "hello") = unknown.
Proof. vm_compute. reflexivity. Qed.

Example continuation_joins_with_a_space :
  parseGenBank (featureTable [quotedGene; qualifierLine (str "def")]) =
  Ok (mkGenBank None [cds [(str "gene", scalar "abc def")]]).
Proof. vm_compute. reflexivity. Qed.

(** Degenerate outputs: no FEATURES line, no text at all, a header
    without a sequence. *)
Example no_features_line :
  parseGenBank (text_of_lines [str "LOCUS   NC_001 5 bp"]) =
  Ok (mkGenBank (Some (str "LOCUS   NC_001 5 bp")) []).
Proof. vm_compute. reflexivity. Qed.

Example empty_text :
  parseGenBank [] = Ok (mkGenBank None []) /\ parseFasta [] = Ok [].
Proof. split; vm_compute; reflexivity. Qed.

Example header_without_sequence :
  parseFasta (str ">h") = Ok [mkFastaRecord (str "h") [] 0].
Proof. vm_compute. reflexivity. Qed.

(** ** The detector and the locus *)

Lemma trimStart_skips w s :
  forallb ws w = true -> trimStart (w ++ s) = trimStart s.
Proof.
  induction w as [|c w IH]; intros H; [reflexivity|].
  simpl in H. apply andb_prop in H. destruct H as [Hc Hw].
  simpl. unfold ws in Hc. rewrite Hc. apply IH. exact Hw.
Qed.

Lemma firstLine_at_start w s : firstLineWith w (w ++ s) = Some 0.
Proof.
  unfold firstLineWith. destruct (w ++ s) eqn:E; cbn [firstLineFrom];
    rewrite <- E;
    (replace (isPrefix w (w ++ s)) with true; [reflexivity|]);
    symmetry; clear E; induction w; simpl; auto; rewrite N.eqb_refl; auto.
Qed.

(** X1. White space before the first [>] does not hide a FASTA text from the
    detector: the text is trimmed before it is looked at. *)
Theorem detectFormat_leading_space (w tail : jsstring) :
  forallb ws w = true ->
  firstLineWith (str "LOCUS") (w ++ GT :: tail) = None ->
  detectFormat (w ++ GT :: tail) = fasta.
Proof.
  intros Hw Hl. rewrite detectFormat_spec, Hl.
  assert (H : headNonws (trim (w ++ GT :: tail)) = true).
  { unfold trim. rewrite trimStart_skips by exact Hw.
    rewrite trimStart_id by reflexivity. apply trimEnd_head. reflexivity. }
  assert (E : exists t, trim (w ++ GT :: tail) = [GT] ++ t).
  { unfold trim in *. rewrite trimStart_skips in * by exact Hw.
    rewrite trimStart_id in * by reflexivity.
    destruct (trimEnd_prefix (GT :: tail)) as [b Eb].
    destruct (trimEnd (GT :: tail)) as [|c t]; [discriminate|].
    simpl in Eb. inversion Eb; subst c. exists t. reflexivity. }
  destruct E as [t ->]. rewrite firstLine_at_start. reflexivity.
Qed.

Lemma detectFormat_leading_space_witness :
  detectFormat (str "  " ++ GT :: str "seq1") = fasta.
Proof.
  apply (detectFormat_leading_space (str "  ") (str "seq1"));
    vm_compute; reflexivity.
Defined.

(** The match of the locus pattern: LOCUS, white space, text. *)
Lemma firstn_drop_tail {A} (x y : list A) :
  firstn (List.length (x ++ y) - List.length y) (x ++ y) = x.
Proof.
  rewrite length_app.
  replace (List.length x + List.length y - List.length y) with (List.length x) by lia.
  apply firstn_len_app. reflexivity.
Qed.

Lemma locusLine_matched p s n cps :
  matchAt true re_locusLine p s = Some (n, cps) ->
  matchAt true re_LOCUS p s <> None /\
  exists tail, firstn n s = str "LOCUS" ++ tail.
Proof.
  unfold matchAt, re_locusLine, re_LOCUS. cbn [exec prev rest caps plus].
  generalize (str "LOCUS"). intros kw.
  destruct (atBol true _); [|discriminate].
  destruct (lit kw p s) as [[p' s']|] eqn:L; [|discriminate].
  intros H. split; [discriminate|].
  apply lit_inv in L. destruct L as [-> ->].
  destruct (rep ws _ _ _ _ _ _) as [res|] eqn:R; [|discriminate].
  inversion H; subst n cps; clear H.
  apply rep_inv in R. destruct R as (w1 & s1 & E1 & _ & _ & R).
  cbn [exec prev rest caps] in R.
  apply rep_inv in R. destruct R as (w2 & s2 & E2 & _ & _ & R).
  destruct (atEol true _); [|discriminate].
  inversion R; subst res; clear R. cbn [rest]. subst s1 s'.
  exists (w1 ++ w2).
  replace (kw ++ w1 ++ w2 ++ s2) with ((kw ++ w1 ++ w2) ++ s2)
    by (rewrite <- !app_assoc; reflexivity).
  apply firstn_drop_tail.
Qed.

Lemma locusOf_inv text l :
  locusOf text = Some l ->
  test true re_LOCUS text = true /\ exists tail, l = trim (str "LOCUS" ++ tail).
Proof.
  unfold locusOf. destruct (jsMatch true re_locusLine text) as [mt|] eqn:M;
    [|discriminate].
  intros H. inversion H; subst; clear H.
  unfold jsMatch in M. apply searchFrom_elim in M.
  destruct M as (a & b & n & E & _ & Hat & Hm & _).
  apply locusLine_matched in Hat. destruct Hat as [Hl [tail Ht]].
  split.
  - unfold test, jsMatch.
    destruct (searchFrom true re_LOCUS 0 None text) eqn:S; [reflexivity|].
    exfalso. apply Hl. eapply searchFrom_none; eauto.
  - exists tail. rewrite Hm, Ht. reflexivity.
Qed.

(** X2. Whenever [parseGenBank] reports a locus, the detector takes the text
    for GenBank. *)
Theorem locus_implies_genbank (text : jsstring) (doc : GenBankDocument)
    (l : jsstring) :
  parseGenBank text = Ok doc -> locus doc = Some l ->
  detectFormat text = genbank.
Proof.
  unfold parseGenBank. destruct (featureList text) as [fs|]; [|discriminate].
  simpl. intros H Hl. inversion H; subst; clear H. simpl in Hl.
  apply locusOf_inv in Hl. destruct Hl as [Ht _].
  unfold detectFormat. rewrite Ht. reflexivity.
Qed.

Lemma locus_implies_genbank_witness : detectFormat locusSample = genbank.
Proof.
  apply (locus_implies_genbank locusSample
           (mkGenBank (Some (str "LOCUS   NC_001 5 bp")) [])
           (str "LOCUS   NC_001 5 bp")); vm_compute; reflexivity.
Defined.

Lemma trimStart_app_nonws c r : nonws c = true ->
  forall l, exists z, trimStart (l ++ c :: r) = z ++ c :: r.
Proof.
  intros Hc. induction l as [|d l [z IH]]; simpl.
  - unfold nonws in Hc. destruct (isWhiteSpace c); [discriminate|].
    exists []. reflexivity.
  - destruct (isWhiteSpace d).
    + exists z. exact IH.
    + exists (d :: l). reflexivity.
Qed.

(** Trimming the end keeps a beginning that does not end in white
    space. *)
Lemma trimEnd_keeps x y :
  lastNonws x = true -> exists t, trimEnd (x ++ y) = x ++ t.
Proof.
  unfold lastNonws, trimEnd. intros H. rewrite rev_app_distr.
  destruct (rev x) as [|c r] eqn:E; [discriminate|]. simpl in H.
  destruct (trimStart_app_nonws c r H (rev y)) as [z ->].
  exists (rev z). rewrite rev_app_distr. f_equal.
  rewrite <- E. apply rev_involutive.
Qed.

(** X3. A stored locus begins with the keyword and is trimmed: it neither
    begins nor ends with white space. *)
Theorem locus_shape (text : jsstring) (doc : GenBankDocument) (l : jsstring) :
  parseGenBank text = Ok doc -> locus doc = Some l ->
  (exists tail, l = str "LOCUS" ++ tail) /\ lastNonws l = true /\ trim l = l.
Proof.
  unfold parseGenBank. destruct (featureList text) as [fs|]; [|discriminate].
  simpl. intros H Hl. inversion H; subst; clear H. simpl in Hl.
  apply locusOf_inv in Hl. destruct Hl as [_ [tail ->]].
  assert (Hh : headNonws (trim (str "LOCUS" ++ tail)) = true)
    by (apply trim_head; reflexivity).
  assert (Tr : truthy (trim (str "LOCUS" ++ tail)) = true)
    by (destruct (trim (str "LOCUS" ++ tail)); [discriminate|reflexivity]).
  destruct (trim_shape _ Tr) as [_ Hl].
  split; [|split; [exact Hl|apply trim_id; assumption]].
  unfold trim. rewrite trimStart_id by reflexivity.
  apply trimEnd_keeps. reflexivity.
Qed.

Lemma locus_shape_witness :
  (exists tail, str "LOCUS   NC_001 5 bp" = str "LOCUS" ++ tail) /\
  lastNonws (str "LOCUS   NC_001 5 bp") = true /\
  trim (str "LOCUS   NC_001 5 bp") = str "LOCUS   NC_001 5 bp".
Proof.
  apply (locus_shape locusSample
           (mkGenBank (Some (str "LOCUS   NC_001 5 bp")) [])
           (str "LOCUS   NC_001 5 bp")); vm_compute; reflexivity.
Defined.

(** ** More on parseFasta *)

(** X4. Every header that [parseFasta] emits is a single, non-empty line
    without white space at either end. *)
Theorem fasta_header_shape (text : jsstring) (records : list FastaRecord)
    (r : FastaRecord) :
  parseFasta text = Ok records -> In r records ->
  header r <> [] /\ headNonws (header r) = true /\
  lastNonws (header r) = true /\ forallb notLF (header r) = true /\
  trim (header r) = header r.
Proof.
  intros Hp Hin. rewrite parseFasta_spec in Hp. inversion Hp; subst; clear Hp.
  apply in_map_iff in Hin. destruct Hin as (chunk & <- & Hc).
  apply filter_In in Hc. destruct Hc as [Hc Hnb].
  destruct (record_shape text chunk Hc Hnb) as (Hh & Hl & Hlf & _).
  repeat split; auto.
  - apply headNonws_nonempty. exact Hh.
  - apply trim_id; assumption.
Qed.

Lemma fasta_header_shape_witness :
  str "seq1" <> [] /\ headNonws (str "seq1") = true /\
  lastNonws (str "seq1") = true /\ forallb notLF (str "seq1") = true /\
  trim (str "seq1") = str "seq1".
Proof.
  apply (fasta_header_shape twoRecords
           [mkFastaRecord (str "seq1") (str "ACGTACGT") 8;
            mkFastaRecord (str "seq2") (str "TTTT") 4]
           (mkFastaRecord (str "seq1") (str "ACGTACGT") 8)).
  - vm_compute. reflexivity.
  - left. reflexivity.
Defined.

Lemma ws_noGt : forall s ls,
  forallb ws s = true -> noGtAtLineStart ls s = true.
Proof.
  induction s as [|c s IH]; intros ls H; [reflexivity|].
  simpl in H. apply andb_prop in H. destruct H as [Hc Hs].
  simpl. rewrite IH by exact Hs.
  destruct (c =? GT)%N eqn:E.
  - apply N.eqb_eq in E. subst c. discriminate.
  - rewrite andb_false_r. reflexivity.
Qed.

Lemma trim_blank s : forallb ws s = true -> trim s = [].
Proof.
  intros H. unfold trim.
  replace (trimStart s) with (@nil char); [reflexivity|].
  symmetry. rewrite <- (app_nil_r s). rewrite trimStart_skips by exact H.
  reflexivity.
Qed.

(** X5. A text of white space only, the empty text included, has no
    records. *)
Theorem fasta_blank_text (text : jsstring) :
  forallb ws text = true -> parseFasta text = Ok [].
Proof.
  intros H. rewrite parseFasta_spec. unfold gtChunks.
  rewrite gtChunksFrom_single by (apply ws_noGt; exact H).
  cbn [filter]. unfold notBlank. rewrite trim_blank by exact H. reflexivity.
Qed.

Lemma fasta_blank_text_witness : parseFasta (str "  " ++ [LF; TAB; CR; LF]) = Ok [].
Proof. apply fasta_blank_text. vm_compute. reflexivity. Defined.

(** X6. A text without any [>] at the beginning of a line, but with some
    content, is one record all the same: its first non-blank line is the
    header and the rest is the sequence. *)
Theorem fasta_without_delimiter (text : jsstring) :
  noGtAtLineStart true text = true -> notBlank text = true ->
  parseFasta text =
  Ok [mkFastaRecord
        (trim (hd [] (linesOf (trim text))))
        (stripWhitespace (concat (tl (linesOf (trim text)))))
        (List.length (stripWhitespace (concat (tl (linesOf (trim text))))))].
Proof.
  intros Hg Hb. rewrite parseFasta_spec. unfold gtChunks.
  rewrite gtChunksFrom_single by exact Hg.
  cbn [filter]. rewrite Hb. reflexivity.
Qed.

Lemma fasta_without_delimiter_witness :
  parseFasta (text_of_lines [str "notes"; str "AC GT"]) =
  Ok [mkFastaRecord (str "notes") (str "ACGT") 4].
Proof.
  apply (fasta_without_delimiter (text_of_lines [str "notes"; str "AC GT"]));
    vm_compute; reflexivity.
Defined.

Lemma last_cons_nonempty {A} (c : A) (a : list A) :
  a <> [] -> hd_error (rev (c :: a)) = hd_error (rev a).
Proof.
  intros H. simpl. destruct (rev a) as [|x r] eqn:E; [|reflexivity].
  apply (f_equal (@rev A)) in E. rewrite rev_involutive in E. contradiction.
Qed.

Lemma endsLine_cons c a : a <> [] -> endsLine (c :: a) = endsLine a.
Proof.
  intros H. unfold endsLine, lineEnds.
  pose proof (last_cons_nonempty c a H) as E.
  destruct (rev (c :: a)), (rev a); simpl in E; try discriminate; try reflexivity.
  inversion E. reflexivity.
Qed.

(** Cutting a text that ends a line, followed by a [>]. *)
Lemma gtChunksFrom_app b : forall a ls,
  (match a with [] => ls | _ :: _ => endsLine a end) = true ->
  gtChunksFrom ls (a ++ GT :: b) = gtChunksFrom ls a ++ gtChunksFrom false b.
Proof.
  induction a as [|c a IH]; intros ls H.
  - subst ls. reflexivity.
  - cbn [app gtChunksFrom].
    assert (Ha : (match a with [] => isLineTerminator c | _ :: _ => endsLine a end) = true).
    { destruct a as [|d a]; [exact H|].
      rewrite endsLine_cons in H by discriminate. exact H. }
    destruct (ls && (c =? GT)%N) eqn:E.
    + apply andb_prop in E. destruct E as [_ E]. apply N.eqb_eq in E. subst c.
      destruct a as [|d a]; [discriminate|].
      rewrite (IH false) by exact Ha. reflexivity.
    + rewrite (IH (isLineTerminator c)).
      * destruct (gtChunksFrom (isLineTerminator c) a) as [|ch chs] eqn:G;
          [exfalso; eapply gtChunksFrom_nonempty; eauto|].
        reflexivity.
      * destruct a; [destruct (isLineTerminator c); [reflexivity|discriminate]|exact Ha].
Qed.

(** X7. Records of a text put before a text that begins with [>]: when the
    first text is empty or ends with a line terminator, the records of
    the whole are those of the first followed by those of the second. *)
Theorem fasta_concatenation (a b : jsstring) (ra rb : list FastaRecord) :
  endsLine a = true ->
  parseFasta a = Ok ra -> parseFasta (GT :: b) = Ok rb ->
  parseFasta (a ++ GT :: b) = Ok (ra ++ rb).
Proof.
  intros He Ha Hb. rewrite parseFasta_spec in *.
  inversion Ha; subst ra; clear Ha. inversion Hb; subst rb; clear Hb.
  unfold gtChunks. rewrite gtChunksFrom_app.
  2:{ destruct a; [reflexivity|exact He]. }
  rewrite filter_app, map_app. reflexivity.
Qed.

Lemma fasta_concatenation_witness :
  parseFasta (text_of_lines [str ">seq1"; str "ACGT"] ++ GT :: str "seq2" ++ [LF] ++ str "TT") =
  Ok ([mkFastaRecord (str "seq1") (str "ACGT") 4] ++
      [mkFastaRecord (str "seq2") (str "TT") 2]).
Proof.
  apply (fasta_concatenation (text_of_lines [str ">seq1"; str "ACGT"])
           (str "seq2" ++ [LF] ++ str "TT"));
    vm_compute; reflexivity.
Defined.

(** ** The lines of the feature table *)

Lemma jsMatch_feat s :
  jsMatch false re_feat s =
  match matchAt false re_feat None s with
  | Some (n, cps) => Some (JsMatch 0 (firstn n s) cps)
  | None => None
  end.
Proof. unfold re_feat. apply jsMatch_anchored. Qed.

Lemma leadingRun_head_out cls c s : cls c = false -> leadingRun cls (c :: s) = 0.
Proof. intros H. simpl. rewrite H. reflexivity. Qed.

Lemma leadingRun_ws_app_nonws g c s :
  g <> [] -> forallb ws g = true -> leadingRun nonws (g ++ c :: s) = 0.
Proof.
  destruct g as [|x g]; [contradiction|]. intros _ H. simpl in H.
  apply andb_prop in H. destruct H as [Hx _].
  simpl. rewrite nonws_of_ws, Hx. reflexivity.
Qed.

Lemma rep_greedy_all cls k cps w lo p res :
  forallb cls w = true -> lo <= List.length w ->
  k (MState (advance p w) [] cps) = Some res ->
  rep cls k cps lo None p w = Some res.
Proof.
  intros Hw Hlo Hk. rewrite <- (app_nil_r w).
  apply rep_greedy; auto.
Qed.

Lemma consumed_all p p' a c c' :
  consumed (MState p a c) (MState p' [] c') = a.
Proof.
  unfold consumed. simpl. rewrite Nat.sub_0_r. apply firstn_all.
Qed.

(** The feature pattern on a line of five white-space characters, a
    key, a gap and a location. *)
Lemma featMatch_line (ind k gap : jsstring) (c : char) (loc : jsstring) :
  List.length ind = 5 -> forallb ws ind = true ->
  k <> [] -> forallb nonws k = true ->
  gap <> [] -> forallb ws gap = true ->
  nonws c = true -> forallb dot loc = true ->
  exists n,
    matchAt false re_feat None (ind ++ k ++ gap ++ c :: loc) =
    Some (n, [(2, c :: loc); (1, k)]).
Proof.
  intros Hlen Hws Hk Hkn Hg Hgw Hc Hloc.
  unfold matchAt, re_feat.
  cbn [exec atBol prev rest caps exactly plus].
  rewrite rep_exact by (rewrite leadingRun_app by exact Hws; lia).
  rewrite skipn_len_app, firstn_len_app by exact Hlen.
  cbn [exec atBol prev rest caps exactly plus].
  erewrite rep_greedy; cycle 1.
  - exact Hkn.
  - destruct k; [contradiction|simpl; lia].
  - apply leadingRun_ws_app_nonws; assumption.
  - cbn [exec prev rest caps]. rewrite consumed_app.
    erewrite rep_greedy; cycle 1.
    + exact Hgw.
    + destruct gap; [contradiction|simpl; lia].
    + apply leadingRun_head_out. rewrite <- (negb_involutive (ws c)).
      rewrite <- nonws_of_ws, Hc. reflexivity.
    + cbn [exec prev rest caps].
      erewrite rep_greedy_all; cycle 1.
      * simpl. rewrite (nonws_is_dot c Hc). exact Hloc.
      * simpl. lia.
      * cbn [prev rest caps]. rewrite consumed_all. reflexivity.
      * reflexivity.
    + reflexivity.
  - cbn [rest caps setCap]. eexists. reflexivity.
Qed.

(** The same with more on the line: the location stops at the first
    line terminator that the cut into lines has left in the line. *)
Lemma featMatch_line_cut (ind k gap : jsstring) (c : char)
    (loc tail : jsstring) :
  List.length ind = 5 -> forallb ws ind = true ->
  k <> [] -> forallb nonws k = true ->
  gap <> [] -> forallb ws gap = true ->
  nonws c = true -> forallb dot loc = true ->
  leadingRun dot tail = 0 ->
  exists n,
    matchAt false re_feat None (ind ++ k ++ gap ++ (c :: loc) ++ tail) =
    Some (n, [(2, c :: loc); (1, k)]).
Proof.
  intros Hlen Hws Hk Hkn Hg Hgw Hc Hloc Htail.
  unfold matchAt, re_feat.
  cbn [exec atBol prev rest caps exactly plus].
  rewrite rep_exact by (rewrite leadingRun_app by exact Hws; lia).
  rewrite skipn_len_app, firstn_len_app by exact Hlen.
  cbn [exec atBol prev rest caps exactly plus].
  erewrite rep_greedy; cycle 1.
  - exact Hkn.
  - destruct k; [contradiction|simpl; lia].
  - apply leadingRun_ws_app_nonws; assumption.
  - cbn [exec prev rest caps]. rewrite consumed_app.
    erewrite rep_greedy; cycle 1.
    + exact Hgw.
    + destruct gap; [contradiction|simpl; lia].
    + apply leadingRun_head_out. rewrite <- (negb_involutive (ws c)).
      rewrite <- nonws_of_ws, Hc. reflexivity.
    + cbn [exec prev rest caps].
      erewrite rep_greedy; cycle 1.
      * simpl. rewrite (nonws_is_dot c Hc). exact Hloc.
      * simpl. lia.
      * exact Htail.
      * cbn [prev rest caps]. rewrite consumed_app. reflexivity.
      * reflexivity.
    + reflexivity.
  - cbn [rest caps setCap]. eexists. reflexivity.
Qed.

(** X8. A line of exactly five white-space characters, a key, a gap of
    white space and a location closes the feature in progress and opens
    a new one with the key, the location and no qualifiers.  The
    location is the text from the first character after the gap up to
    the end of the line or, when the line still holds a line terminator
    (a carriage return without a line feed, U+2028 or U+2029), up to the
    first of them; it is stored trimmed, and what follows the line
    terminator is dropped. *)
Theorem feature_line_opens_feature (st : loopState) (ind k gap : jsstring)
    (c : char) (loc tail : jsstring) :
  List.length ind = 5 -> forallb ws ind = true ->
  k <> [] -> forallb nonws k = true ->
  gap <> [] -> forallb ws gap = true ->
  nonws c = true -> forallb dot loc = true ->
  leadingRun dot tail = 0 ->
  step st (ind ++ k ++ gap ++ (c :: loc) ++ tail) =
  Ok (mkLoop (match current st with
              | Some cur => done st ++ [cur]
              | None => done st
              end)
        (Some (mkFeature (Some k) (trim (c :: loc)) Obj.empty))).
Proof.
  intros Hlen Hws Hk Hkn Hg Hgw Hc Hloc Htail.
  destruct (featMatch_line_cut ind k gap c loc tail
              Hlen Hws Hk Hkn Hg Hgw Hc Hloc Htail) as [n M].
  unfold step. rewrite jsMatch_feat, M. reflexivity.
Qed.

Lemma feature_line_opens_feature_witness :
  step (inFeature [])
    (spaces 5 ++ str "gene" ++ spaces 12 ++ str "1..5 " ++ CR :: str "6..9") =
  Ok (mkLoop [cds []] (Some (mkFeature (Some (str "gene")) (str "1..5") Obj.empty))).
Proof.
  apply (feature_line_opens_feature (inFeature []) (spaces 5) (str "gene")
           (spaces 12) 49%N (str "..5 ") (CR :: str "6..9"));
    vm_compute; try reflexivity; discriminate.
Defined.

(** What a successful match of the feature pattern has captured. *)
Lemma matchAt_feat_groups p s n cps :
  matchAt false re_feat p s = Some (n, cps) ->
  exists k g, cps = [(2, g); (1, k)] /\
              k <> [] /\ forallb nonws k = true /\
              g <> [] /\ forallb dot g = true.
Proof.
  unfold matchAt, re_feat. intros H.
  destruct (exec _ _ _ _) as [res|] eqn:E; [|discriminate].
  inversion H; subst n cps; clear H.
  cbn [exec prev rest caps exactly plus] in E.
  destruct (atBol false _); [|discriminate].
  apply rep_inv in E. destruct E as (w0 & s0 & E0 & _ & _ & E).
  cbn [exec prev rest caps] in E.
  apply rep_inv in E. destruct E as (w1 & s1 & E1 & H1 & L1 & E).
  cbn [exec prev rest caps] in E.
  apply rep_inv in E. destruct E as (w2 & s2 & E2 & _ & _ & E).
  cbn [exec prev rest caps] in E.
  apply rep_inv in E. destruct E as (w3 & s3 & E3 & H3 & L3 & E).
  inversion E; subst res; clear E. cbn [caps].
  subst s2 s0. rewrite !consumed_app.
  exists w1, w3. repeat split; auto.
  - destruct w1; [simpl in L1; lia|discriminate].
  - destruct w3; [simpl in L3; lia|discriminate].
Qed.

Lemma trim_idempotent x : trim (trim x) = trim x.
Proof.
  destruct (trim x) as [|c t] eqn:E; [reflexivity|].
  rewrite <- E.
  assert (T : truthy (trim x) = true) by (rewrite E; reflexivity).
  destruct (trim_shape x T). apply trim_id; assumption.
Qed.

(** The key and location read off a feature-start line. *)
Lemma featureHead_shape line :
  isFeatureLine line = true ->
  exists k g, featureHead line = (Some k, trim g) /\
              k <> [] /\ forallb nonws k = true.
Proof.
  unfold isFeatureLine, featureHead.
  destruct (jsMatch false re_feat line) as [m|] eqn:M; [|discriminate].
  intros _. unfold jsMatch in M. apply searchFrom_elim in M.
  destruct M as (a & b & n & _ & _ & Hat & _ & _).
  apply matchAt_feat_groups in Hat.
  destruct Hat as (k & g & Hc & Hk & Hkn & _ & _).
  exists k, g. unfold group. rewrite Hc. simpl. auto.
Qed.

(** ** One feature per feature-start line *)

(** ** One feature per feature-start line *)

Lemma step_heads st line st' :
  step st line = Ok st' ->
  List.map headOf (openFeatures st') =
  List.map headOf (openFeatures st) ++
  (if isFeatureLine line then [featureHead line] else []).
Proof.
  unfold step, isFeatureLine, featureHead.
  destruct (jsMatch false re_feat line) as [fm|] eqn:F.
  - destruct (featMatch_group2 _ _ F) as [g Hg]. rewrite Hg. simpl.
    intros H. inversion H; subst; clear H.
    unfold openFeatures at 1. cbn [current done].
    rewrite map_app. reflexivity.
  - rewrite app_nil_r.
    assert (Keep : forall q cur, current st = Some cur ->
              List.map headOf (openFeatures (mkLoop (done st) (Some (withQualifiers cur q)))) =
              List.map headOf (openFeatures st)).
    { intros q cur Hc. unfold openFeatures. cbn [current done]. rewrite Hc.
      rewrite !map_app. reflexivity. }
    assert (Cont : forall cur, current st = Some cur ->
              match jsMatch false re_cont line with
              | Some contMatch =>
                  match lastKeyOf (qualifiers cur) with
                  | Some lastKey =>
                      if truthy lastKey
                      then addition <- trimU (group contMatch 1) ;;
                           Ok (mkLoop (done st)
                                 (Some (withQualifiers cur
                                          (appendContinuation (qualifiers cur)
                                             lastKey addition))))
                      else Ok st
                  | None => Ok st
                  end
              | None => Ok st
              end = Ok st' ->
              List.map headOf (openFeatures st') = List.map headOf (openFeatures st)).
    { intros cur C.
      destruct (jsMatch false re_cont line) as [cm|];
        [|intros H; inversion H; subst; reflexivity].
      destruct (lastKeyOf (qualifiers cur)) as [lk|];
        [|intros H; inversion H; subst; reflexivity].
      destruct (truthy lk); [|intros H; inversion H; subst; reflexivity].
      destruct (group cm 1); simpl; [|discriminate].
      intros H. inversion H; subst. apply Keep. exact C. }
    destruct (current st) as [cur|] eqn:C.
    + destruct (jsMatch false re_qual line) as [qm|].
      * intros H. inversion H; subst. apply Keep. reflexivity.
      * apply Cont. reflexivity.
    + destruct (jsMatch false re_qual line) as [qm|];
        destruct (jsMatch false re_cont line) as [cm|];
        intros H; inversion H; subst; unfold openFeatures; rewrite C; reflexivity.
Qed.

Lemma foldM_heads : forall lines st st',
  foldM step lines st = Ok st' ->
  List.map headOf (openFeatures st') =
  List.map headOf (openFeatures st) ++
  List.map featureHead (filter isFeatureLine lines).
Proof.
  induction lines as [|l lines IH]; intros st st' H; simpl in H.
  - inversion H; subst. rewrite app_nil_r. reflexivity.
  - destruct (step st l) as [st1|] eqn:S; [|discriminate]. simpl in H.
    apply IH in H. rewrite H, (step_heads _ _ _ S), <- app_assoc.
    f_equal. cbn [filter]. destruct (isFeatureLine l); reflexivity.
Qed.

(** X9. The features of the document are those of the feature-start lines
    of the slice, one for each and in their order, each with the key and
    the trimmed location of its line. *)
Theorem features_follow_feature_lines (text ft : jsstring)
    (doc : GenBankDocument) :
  featuresText text = Some ft -> parseGenBank text = Ok doc ->
  List.map headOf (features doc) =
  List.map featureHead (filter isFeatureLine (split false re_newline ft)).
Proof.
  intros Hft. unfold parseGenBank, featureList. rewrite Hft.
  destruct (foldM step (split false re_newline ft) (mkLoop [] None))
    as [st|] eqn:F; [|discriminate].
  simpl. intros H. inversion H; subst; clear H. cbn [features].
  apply (foldM_heads _ _ _ F).
Qed.

Lemma features_follow_feature_lines_witness :
  List.map headOf
    [mkFeature (Some (str "CDS")) (str "1..2") (Object [(str "gene", scalar "x")] None);
     mkFeature (Some (str "gene")) (str "3..4") Obj.empty] =
  List.map featureHead
    (filter isFeatureLine
       (split false re_newline
          (text_of_lines [str "FEATURES"; spaces 5 ++ str "CDS 1..2";
                          qualifierLine (str "/gene=x");
                          spaces 5 ++ str "gene 3..4"]))).
Proof.
  apply (features_follow_feature_lines
           (text_of_lines [str "FEATURES"; spaces 5 ++ str "CDS 1..2";
                           qualifierLine (str "/gene=x");
                           spaces 5 ++ str "gene 3..4"])
           (text_of_lines [str "FEATURES"; spaces 5 ++ str "CDS 1..2";
                           qualifierLine (str "/gene=x");
                           spaces 5 ++ str "gene 3..4"])
           (mkGenBank None
              [mkFeature (Some (str "CDS")) (str "1..2")
                 (Object [(str "gene", scalar "x")] None);
               mkFeature (Some (str "gene")) (str "3..4") Obj.empty]));
    vm_compute; reflexivity.
Defined.

(** X10. Every feature of the document has a key, which is a non-empty run
    of non-space, and a location without white space at either end. *)
Theorem feature_shape (text : jsstring) (doc : GenBankDocument) (f : Feature) :
  parseGenBank text = Ok doc -> In f (features doc) ->
  exists k, key f = Some k /\ k <> [] /\ forallb nonws k = true /\
            trim (location f) = location f.
Proof.
  intros Hp Hin.
  destruct (featuresText text) as [ft|] eqn:Hft.
  - assert (E : List.map headOf (features doc) =
                List.map featureHead
                  (filter isFeatureLine (split false re_newline ft))).
    { unfold parseGenBank, featureList in Hp. rewrite Hft in Hp.
      destruct (foldM step (split false re_newline ft) (mkLoop [] None))
        as [st|] eqn:F; [|discriminate].
      simpl in Hp. inversion Hp; subst; clear Hp. cbn [features].
      apply (foldM_heads _ _ _ F). }
    apply (in_map headOf) in Hin. rewrite E in Hin.
    apply in_map_iff in Hin. destruct Hin as (line & Hl & Hline).
    apply filter_In in Hline. destruct Hline as [_ Hfeat].
    destruct (featureHead_shape line Hfeat) as (k & g & Hh & Hk & Hkn).
    rewrite Hh in Hl. unfold headOf in Hl. inversion Hl.
    exists k. repeat split; auto. apply trim_idempotent.
  - unfold parseGenBank, featureList in Hp. rewrite Hft in Hp.
    simpl in Hp. inversion Hp; subst. contradiction.
Qed.

Lemma feature_shape_witness :
  exists k, Some (str "CDS") = Some k /\ k <> [] /\ forallb nonws k = true /\
            trim (str "1..100") = str "1..100".
Proof.
  apply (feature_shape (featureTable [quotedGene])
           (mkGenBank None [cds [(str "gene", scalar "abc")]])
           (cds [(str "gene", scalar "abc")])).
  - vm_compute. reflexivity.
  - left. reflexivity.
Defined.

(** ** The three ways to write a qualifier *)

(** The common beginning of a qualifier line: 21 white-space characters,
    a slash and the key; what comes next is for the optional group. *)
Lemma qualMatch_prefix (indent key tail : jsstring) res :
  List.length indent = 21 -> forallb ws indent = true ->
  key <> [] -> forallb keyChar key = true ->
  leadingRun keyChar tail = 0 ->
  exec false
    (Opt (Lit (str "=") +++
          Alt (Lit [DQUOTE] +++ Grp 2 (star notQuote) +++ Lit [DQUOTE])
              (Grp 3 (plus nonws))))
    (MState (advance (advance (advance None indent) (str "/")) key) tail
       (setCap 1 key []))
    (fun st => Some st) = Some res ->
  matchAt false re_qual None (indent ++ str "/" ++ key ++ tail) =
  Some (List.length (indent ++ str "/" ++ key ++ tail) - List.length (rest res),
        caps res).
Proof.
  intros Hlen Hws Hkey Hkc Htail Hopt.
  unfold matchAt, re_qual.
  cbn [exec atBol prev rest caps exactly plus star].
  rewrite rep_exact by (rewrite leadingRun_app by exact Hws; lia).
  rewrite skipn_len_app, firstn_len_app by exact Hlen.
  cbn [exec atBol prev rest caps exactly plus star].
  rewrite lit_app.
  cbn [exec atBol prev rest caps exactly plus star].
  erewrite rep_greedy; cycle 1.
  - exact Hkc.
  - destruct key; [contradiction|simpl; lia].
  - exact Htail.
  - cbn [prev rest caps]. rewrite consumed_app.
    cbn [exec atBol prev rest caps exactly plus star] in Hopt.
    exact Hopt.
  - reflexivity.
Qed.

Lemma step_qualifier st cur line n cps :
  current st = Some cur ->
  leadingWs line <> 5 ->
  matchAt false re_qual None line = Some (n, cps) ->
  step st line =
  Ok (mkLoop (done st)
        (Some (withQualifiers cur
                 (addQualifier (qualifiers cur)
                    (propertyKey (getCap 1 cps))
                    (qualifierValue (JsMatch 0 (firstn n line) cps)))))).
Proof.
  intros Hcur H5 M. unfold step.
  rewrite featMatch_needs_5 by exact H5.
  rewrite jsMatch_qual, M, Hcur. reflexivity.
Qed.

Lemma leadingWs_qualifier indent tail :
  List.length indent = 21 -> forallb ws indent = true ->
  leadingWs (indent ++ str "/" ++ tail) <> 5.
Proof.
  intros Hlen Hws. unfold leadingWs. rewrite leadingRun_app by exact Hws.
  rewrite Hlen. simpl. lia.
Qed.

Lemma qualMatch_quoted (indent key v tail : jsstring) :
  List.length indent = 21 -> forallb ws indent = true ->
  key <> [] -> forallb keyChar key = true ->
  forallb notQuote v = true ->
  exists n,
    matchAt false re_qual None
      (indent ++ str "/" ++ key ++ str "=" ++ [DQUOTE] ++ v ++ [DQUOTE] ++ tail) =
    Some (n, setCap 2 v (setCap 1 key [])).
Proof.
  intros Hlen Hws Hkey Hkc Hv. eexists.
  apply (qualMatch_prefix indent key
           (str "=" ++ [DQUOTE] ++ v ++ [DQUOTE] ++ tail)
           (MState (Some DQUOTE) tail (setCap 2 v (setCap 1 key []))));
    try assumption; [reflexivity|].
  cbn [exec prev rest caps star plus].
  rewrite lit_app.
  change ([DQUOTE] ++ v ++ [DQUOTE] ++ tail) with (DQUOTE :: v ++ DQUOTE :: tail).
  rewrite lit1.
  erewrite rep_greedy; cycle 1.
  - exact Hv.
  - lia.
  - reflexivity.
  - cbn [prev rest caps]. rewrite lit1, consumed_app. reflexivity.
  - reflexivity.
Qed.

Lemma step_quoted (st : loopState) (cur : Feature)
    (indent key v tail : jsstring) :
  current st = Some cur ->
  List.length indent = 21 -> forallb ws indent = true ->
  key <> [] -> forallb keyChar key = true ->
  forallb notQuote v = true ->
  step st (indent ++ str "/" ++ key ++ str "=" ++ [DQUOTE] ++ v ++ [DQUOTE] ++ tail) =
  Ok (mkLoop (done st)
        (Some (withQualifiers cur (addQualifier (qualifiers cur) key (AStr v))))).
Proof.
  intros Hcur Hlen Hws Hkey Hkc Hv.
  destruct (qualMatch_quoted indent key v tail Hlen Hws Hkey Hkc Hv) as [n M].
  rewrite (step_qualifier _ _ _ _ _ Hcur
             (leadingWs_qualifier indent _ Hlen Hws) M).
  reflexivity.
Qed.

(** X11. A value in double quotes is stored without the quotes, and what
    follows the closing quote on the line is dropped; under a key the
    object did not answer for, the value is then what it answers. *)
Theorem quoted_qualifier (st : loopState) (cur : Feature)
    (indent key v tail : jsstring) :
  current st = Some cur ->
  List.length indent = 21 -> forallb ws indent = true ->
  key <> [] -> forallb keyChar key = true ->
  forallb notQuote v = true ->
  step st (indent ++ str "/" ++ key ++ str "=" ++ [DQUOTE] ++ v ++ [DQUOTE] ++ tail) =
    Ok (mkLoop (done st)
          (Some (withQualifiers cur (addQualifier (qualifiers cur) key (AStr v)))))
  /\ (get (qualifiers cur) key = None ->
      get (addQualifier (qualifiers cur) key (AStr v)) key = Some (VAtom (AStr v))).
Proof.
  intros Hcur Hlen Hws Hkey Hkc Hv. split.
  - apply step_quoted; assumption.
  - apply addQualifier_new.
Qed.

Lemma quoted_qualifier_witness :
  step (inFeature [])
    (spaces 21 ++ str "/" ++ str "note" ++ str "=" ++ [DQUOTE] ++ str "a b" ++
     [DQUOTE] ++ str " trailing") =
  Ok (inFeature [(str "note", scalar "a b")]).
Proof.
  apply (proj1 (quoted_qualifier (inFeature []) (cds []) (spaces 21) (str "note")
                  (str "a b") (str " trailing") eq_refl eq_refl eq_refl
                  ltac:(discriminate) eq_refl eq_refl)).
Defined.

(** X12. A value that does not begin with a double quote is the run of
    non-space after the equals sign. *)
Theorem bare_qualifier (st : loopState) (cur : Feature)
    (indent key : jsstring) (c : char) (tok tail : jsstring) :
  current st = Some cur ->
  List.length indent = 21 -> forallb ws indent = true ->
  key <> [] -> forallb keyChar key = true ->
  c <> DQUOTE -> forallb nonws (c :: tok) = true ->
  leadingRun nonws tail = 0 ->
  step st (indent ++ str "/" ++ key ++ str "=" ++ (c :: tok) ++ tail) =
  Ok (mkLoop (done st)
        (Some (withQualifiers cur
                 (addQualifier (qualifiers cur) key (AStr (c :: tok)))))).
Proof.
  intros Hcur Hlen Hws Hkey Hkc Hc Htok Htail.
  erewrite step_qualifier; [| exact Hcur | apply leadingWs_qualifier; assumption |].
  2:{ apply qualMatch_prefix; try assumption; [reflexivity|].
      cbn [exec prev rest caps star plus].
      rewrite lit_app.
      change ((c :: tok) ++ tail) with (c :: tok ++ tail) at 1.
      rewrite lit1_neq by (intros E; apply Hc; symmetry; exact E).
      change (c :: tok ++ tail) with ((c :: tok) ++ tail).
      erewrite rep_greedy; cycle 1.
      - exact Htok.
      - simpl. lia.
      - exact Htail.
      - cbn [prev rest caps]. rewrite consumed_app. reflexivity.
      - reflexivity. }
  reflexivity.
Qed.

Lemma bare_qualifier_witness :
  step (inFeature []) (spaces 21 ++ str "/" ++ str "codon_start" ++ str "=" ++ str "1" ++ str " x") =
  Ok (inFeature [(str "codon_start", scalar "1")]).
Proof.
  apply (bare_qualifier (inFeature []) (cds []) (spaces 21) (str "codon_start")
           49%N [] (str " x"));
    vm_compute; try reflexivity; discriminate.
Defined.

(** X13. A key with nothing after it, or followed by something that is
    neither part of the key nor a value, is a flag; so is a key followed
    by an equals sign and then white space or the end of the line. *)
Theorem flag_qualifier (st : loopState) (cur : Feature)
    (indent key tail : jsstring) :
  current st = Some cur ->
  List.length indent = 21 -> forallb ws indent = true ->
  key <> [] -> forallb keyChar key = true ->
  flagTail tail = true ->
  step st (indent ++ str "/" ++ key ++ tail) =
  Ok (mkLoop (done st)
        (Some (withQualifiers cur (addQualifier (qualifiers cur) key ATrue)))).
Proof.
  intros Hcur Hlen Hws Hkey Hkc Ht.
  erewrite step_qualifier; [| exact Hcur | apply leadingWs_qualifier; assumption |].
  2:{ apply qualMatch_prefix; try assumption.
      - destruct tail as [|c t]; [reflexivity|]. simpl in Ht.
        apply andb_prop in Ht. destruct Ht as [Hk _].
        apply negb_true_iff in Hk. simpl. rewrite Hk. reflexivity.
      - cbn [exec prev rest caps star plus].
        destruct tail as [|c t]; [reflexivity|].
        simpl in Ht. apply andb_prop in Ht. destruct Ht as [_ Ht].
        destruct (c =? 61)%N eqn:E.
        + apply N.eqb_eq in E. subst c. apply Nat.eqb_eq in Ht.
          change (str "=") with [61%N]. rewrite lit1.
          match goal with
          | |- context [lit ?a ?b t] =>
              assert (A : lit a b t = None);
              [ destruct t as [|d t]; [reflexivity|];
                apply lit1_neq; intros Ed; subst d; discriminate
              | rewrite A ]
          end.
          rewrite rep_short by (rewrite Ht; lia). reflexivity.
        + change (str "=") with [61%N].
          rewrite lit1_neq; [reflexivity|].
          intros Ec. subst c. discriminate. }
  reflexivity.
Qed.

Lemma flag_qualifier_witness :
  step (inFeature []) (spaces 21 ++ str "/" ++ str "pseudo" ++ str "= x") =
  Ok (inFeature [(str "pseudo", VAtom ATrue)]).
Proof.
  apply (flag_qualifier (inFeature []) (cds []) (spaces 21) (str "pseudo")
           (str "= x"));
    vm_compute; try reflexivity; discriminate.
Defined.

(** ** Qualifier objects *)

Lemma assoc_app_other k k' v : forall l,
  k' <> k -> assoc k' (l ++ [(k, v)]) = assoc k' l.
Proof.
  intros l Hk. induction l as [|[k0 v0] l IH]; simpl.
  - apply jsstring_eqb_neq in Hk. rewrite Hk. reflexivity.
  - destruct (jsstring_eqb k' k0); [reflexivity|exact IH].
Qed.

Lemma get_same_own_proto q q' k :
  assoc k (own q') = assoc k (own q) -> proto q' = proto q ->
  get q' k = get q k.
Proof.
  intros Ho Hp. unfold get, objectPrototypeGet. rewrite Ho, Hp. reflexivity.
Qed.

Lemma set_other q k v k' :
  k <> str "__proto__" -> k' <> k -> get (set q k v) k' = get q k'.
Proof.
  intros Hp Hk. apply get_same_own_proto; unfold set;
    destruct (assoc k (own q)) eqn:E; cbn [own proto]; try reflexivity.
  - apply assoc_update_other. exact Hk.
  - apply jsstring_eqb_neq in Hp. rewrite Hp. cbn [own].
    apply assoc_app_other. exact Hk.
  - apply jsstring_eqb_neq in Hp. rewrite Hp. reflexivity.
Qed.

Lemma get_array_not_own q k l :
  k <> str "__proto__" -> get q k = Some (VArr l) ->
  assoc k (own q) = Some (VArr l).
Proof.
  intros Hp. unfold get. destruct (assoc k (own q)) as [v|]; [auto|].
  apply jsstring_eqb_neq in Hp.
  unfold objectPrototypeGet. rewrite Hp.
  destruct (proto q) as [l0|].
  - unfold arrayOwnGet.
    destruct (arrayIndex k) as [i|].
    + destruct (nth_error l0 (N.to_nat i)); [discriminate|].
      destruct (memStr k arrayPrototypeNames); [discriminate|].
      destruct (memStr k objectPrototypeNames); discriminate.
    + destruct (jsstring_eqb k (str "length")); [discriminate|].
      destruct (memStr k arrayPrototypeNames); [discriminate|].
      destruct (memStr k objectPrototypeNames); discriminate.
  - destruct (memStr k objectPrototypeNames); discriminate.
Qed.

(** X14. Adding a qualifier leaves what the object answers for every other
    key as it was, unless the qualifier is named __proto__. *)
Theorem qualifier_leaves_other_keys (q : object) (k k' : jsstring) (v : atom) :
  k <> str "__proto__" -> k' <> k ->
  get (addQualifier q k v) k' = get q k'.
Proof.
  intros Hp Hk. unfold addQualifier.
  destruct (get q k) as [[a|l]|] eqn:G.
  - apply set_other; assumption.
  - apply get_array_not_own in G; [|exact Hp].
    unfold push. rewrite G.
    apply get_same_own_proto; cbn [own proto]; [|reflexivity].
    apply assoc_update_other. exact Hk.
  - apply set_other; assumption.
Qed.

Lemma qualifier_leaves_other_keys_witness :
  get (addQualifier (Object [(str "gene", scalar "x")] None) (str "note") (AStr (str "n")))
      (str "gene") = Some (scalar "x").
Proof.
  rewrite (qualifier_leaves_other_keys (Object [(str "gene", scalar "x")] None)
             (str "note") (str "gene") (AStr (str "n"))).
  - reflexivity.
  - discriminate.
  - discriminate.
Defined.

Lemma addQualifier_new_own q k a :
  get q k = None -> assoc k (own (addQualifier q k a)) = Some (VAtom a).
Proof.
  intros H. unfold addQualifier. rewrite H.
  unfold get in H. destruct (assoc k (own q)) eqn:E; [discriminate|].
  assert (P : jsstring_eqb k (str "__proto__") = false).
  { destruct (jsstring_eqb k (str "__proto__")) eqn:P; [|reflexivity].
    exfalso. unfold objectPrototypeGet in H. rewrite P in H.
    destruct (proto q) as [l|].
    - destruct (arrayOwnGet l k); [discriminate|].
      destruct (memStr k arrayPrototypeNames); discriminate.
    - discriminate. }
  unfold set. rewrite E, P. simpl.
  apply assoc_app_new. exact E.
Qed.

Lemma addQualifier_second_own q k a b :
  assoc k (own q) = Some (VAtom a) ->
  assoc k (own (addQualifier q k b)) = Some (VArr [a; b]).
Proof.
  intros H. unfold addQualifier. rewrite (get_own _ _ _ H).
  unfold set. rewrite H. simpl. eapply assoc_update_same. exact H.
Qed.

Lemma addQualifier_more_own q k l b :
  assoc k (own q) = Some (VArr l) ->
  assoc k (own (addQualifier q k b)) = Some (VArr (l ++ [b])).
Proof.
  intros H. unfold addQualifier. rewrite (get_own _ _ _ H).
  unfold push. rewrite H. simpl. eapply assoc_update_same. exact H.
Qed.

Lemma addAll_array : forall vs q k l,
  assoc k (own q) = Some (VArr l) ->
  assoc k (own (addAll q k vs)) = Some (VArr (l ++ vs)).
Proof.
  induction vs as [|v vs IH]; intros q k l H; simpl.
  - rewrite app_nil_r. exact H.
  - change (addAll q k (v :: vs)) with (addAll (addQualifier q k v) k vs).
    rewrite (IH _ _ (l ++ [v])).
    + rewrite <- app_assoc. reflexivity.
    + apply addQualifier_more_own. exact H.
Qed.

(** X15. A key that the object does not answer for, written several times in
    one feature, ends with the array of all its values in the order
    written; written once, it holds the single value. *)
Theorem repeated_qualifier_collects (q : object) (k : jsstring)
    (v : atom) (vs : list atom) :
  get q k = None ->
  get (addAll q k (v :: vs)) k =
  Some (match vs with [] => VAtom v | _ :: _ => VArr (v :: vs) end).
Proof.
  intros H. apply get_own.
  pose proof (addQualifier_new_own q k v H) as H1.
  destruct vs as [|w vs]; [exact H1|].
  change (addAll q k (v :: w :: vs))
    with (addAll (addQualifier (addQualifier q k v) k w) k vs).
  apply (addAll_array vs _ k [v; w]).
  apply addQualifier_second_own. exact H1.
Qed.

Lemma repeated_qualifier_collects_witness :
  get (addAll Obj.empty (str "db_xref")
         [AStr (str "a"); AStr (str "b"); AStr (str "c")]) (str "db_xref") =
  Some (VArr [AStr (str "a"); AStr (str "b"); AStr (str "c")]).
Proof.
  apply (repeated_qualifier_collects Obj.empty (str "db_xref") (AStr (str "a"))
           [AStr (str "b"); AStr (str "c")]).
  reflexivity.
Defined.

(** ** The names of the qualifiers in the result *)

Lemma optValue_keeps_key st0 res :
  exec false
    (Opt (Lit (str "=") +++
          Alt (Lit [DQUOTE] +++ Grp 2 (star notQuote) +++ Lit [DQUOTE])
              (Grp 3 (plus nonws))))
    st0 (fun st => Some st) = Some res ->
  getCap 1 (caps res) = getCap 1 (caps st0).
Proof.
  cbn [exec prev rest caps star plus]. intros H.
  destruct (lit (str "=") (prev st0) (rest st0)) as [[p1 s1]|] eqn:L1.
  - destruct (lit [DQUOTE] p1 s1) as [[p2 s2]|] eqn:L2.
    + destruct (rep notQuote _ (caps st0) 0 None p2 s2) as [r|] eqn:R.
      * inversion H; subst r; clear H.
        apply rep_inv in R. destruct R as (w & s' & _ & _ & _ & R).
        cbn [prev rest caps] in R.
        destruct (lit [DQUOTE] _ s') as [[p3 s3]|]; [|discriminate].
        inversion R; subst res. reflexivity.
      * destruct (rep nonws _ (caps st0) 1 None p1 s1) as [r|] eqn:R3.
        -- inversion H; subst r; clear H.
           apply rep_inv in R3. destruct R3 as (w & s' & _ & _ & _ & R3).
           inversion R3; subst res. reflexivity.
        -- inversion H; subst res. reflexivity.
    + destruct (rep nonws _ (caps st0) 1 None p1 s1) as [r|] eqn:R3.
      * inversion H; subst r; clear H.
        apply rep_inv in R3. destruct R3 as (w & s' & _ & _ & _ & R3).
        inversion R3; subst res. reflexivity.
      * inversion H; subst res. reflexivity.
  - inversion H; subst res. reflexivity.
Qed.

Lemma matchAt_qual_key p s n cps :
  matchAt false re_qual p s = Some (n, cps) ->
  exists k, getCap 1 cps = Some k /\ k <> [] /\ forallb keyChar k = true.
Proof.
  unfold matchAt, re_qual. intros H.
  destruct (exec _ _ _ _) as [res|] eqn:E; [|discriminate].
  inversion H; subst n cps; clear H.
  cbn [exec prev rest caps exactly plus star] in E.
  destruct (atBol false _); [|discriminate].
  apply rep_inv in E. destruct E as (w0 & s0 & E0 & _ & _ & E).
  cbn [exec prev rest caps] in E.
  destruct (lit (str "/") (advance p w0) s0) as [[p1 s1]|] eqn:L; [|discriminate].
  apply rep_inv in E. destruct E as (w1 & s2 & E1 & H1 & L1 & E).
  cbn [prev rest caps] in E.
  pose proof (optValue_keeps_key
                (MState (advance p1 w1) s2
                   (setCap 1 (consumed (MState p1 s1 [])
                                (MState (advance p1 w1) s2 [])) []))
                res E) as K.
  cbn [caps] in K. rewrite K.
  subst s1. rewrite consumed_app. cbn [getCap setCap Nat.eqb].
  exists w1. repeat split; auto.
  destruct w1; [simpl in L1; lia|discriminate].
Qed.

Lemma map_fst_update k v : forall l,
  List.map fst (update k v l) = List.map fst l.
Proof.
  induction l as [|[k0 v0] l IH]; simpl; [reflexivity|].
  destruct (jsstring_eqb k k0); simpl; [reflexivity|].
  rewrite IH. reflexivity.
Qed.

Lemma set_own_keys q k v k' :
  In k' (List.map fst (own (set q k v))) ->
  In k' (List.map fst (own q)) \/ (k' = k /\ k <> str "__proto__").
Proof.
  unfold set. destruct (assoc k (own q)) eqn:E; cbn [own].
  - rewrite map_fst_update. auto.
  - destruct (jsstring_eqb k (str "__proto__")) eqn:P.
    + destruct v; cbn [own]; auto.
    + cbn [own]. rewrite map_app, in_app_iff. simpl.
      intros [H|[H|[]]]; [auto|].
      right. split; [symmetry; exact H|].
      apply jsstring_eqb_neq. exact P.
Qed.

Lemma push_own_keys q k a :
  List.map fst (own (push q k a)) = List.map fst (own q).
Proof.
  unfold push. destruct (assoc k (own q)) as [[b|l]|]; cbn [own].
  - reflexivity.
  - apply map_fst_update.
  - destruct (proto q); reflexivity.
Qed.

Lemma addQualifier_own_keys q k v k' :
  In k' (List.map fst (own (addQualifier q k v))) ->
  In k' (List.map fst (own q)) \/ (k' = k /\ k <> str "__proto__").
Proof.
  unfold addQualifier. destruct (get q k) as [[a|l]|].
  - apply set_own_keys.
  - rewrite push_own_keys. auto.
  - apply set_own_keys.
Qed.

Lemma appendContinuation_own_keys q lastKey addition :
  In lastKey (List.map fst (own q)) ->
  List.map fst (own (appendContinuation q lastKey addition)) =
  List.map fst (own q).
Proof.
  intros Hin. apply assoc_in in Hin. destruct Hin as [v0 Hv].
  unfold appendContinuation. rewrite (get_own _ _ _ Hv).
  destruct v0 as [[s| | |]|l]; try reflexivity;
    rewrite (set_own _ _ _ _ Hv); cbn [own]; apply map_fst_update.
Qed.

Lemma namedWell_replace st cur q :
  current st = Some cur ->
  Forall namedWell (openFeatures st) ->
  namedWell (withQualifiers cur q) ->
  Forall namedWell (openFeatures (mkLoop (done st) (Some (withQualifiers cur q)))).
Proof.
  unfold openFeatures. cbn [current done]. intros -> H Hq.
  apply Forall_app in H. destruct H as [Hd _].
  apply Forall_app. split; [exact Hd|]. constructor; [exact Hq|constructor].
Qed.

Lemma namedWell_current st cur :
  current st = Some cur -> Forall namedWell (openFeatures st) -> namedWell cur.
Proof.
  unfold openFeatures. intros -> H.
  apply Forall_app in H. destruct H as [_ H]. inversion H. assumption.
Qed.

Lemma step_names st line st' :
  step st line = Ok st' ->
  Forall namedWell (openFeatures st) -> Forall namedWell (openFeatures st').
Proof.
  unfold step. intros H Inv.
  destruct (jsMatch false re_feat line) as [fm|] eqn:F.
  - destruct (featMatch_group2 _ _ F) as [g Hg]. rewrite Hg in H. simpl in H.
    inversion H; subst; clear H.
    unfold openFeatures at 1. cbn [current done].
    apply Forall_app. split.
    + exact Inv.
    + constructor; [|constructor]. intros k []. 
  - destruct (current st) as [cur|] eqn:C.
    + pose proof (namedWell_current st cur C Inv) as Hcur.
      destruct (jsMatch false re_qual line) as [qm|] eqn:Q.
      * inversion H; subst; clear H.
        apply namedWell_replace; auto.
        intros k Hk. cbn [withQualifiers qualifiers] in Hk.
        apply addQualifier_own_keys in Hk. destruct Hk as [Hk|[-> Hp]].
        -- apply Hcur. exact Hk.
        -- split; [|exact Hp].
           rewrite jsMatch_qual in Q.
           destruct (matchAt false re_qual None line) as [[n cps]|] eqn:M;
             [|discriminate].
           inversion Q; subst qm; clear Q.
           destruct (matchAt_qual_key _ _ _ _ M) as (k & Gk & Hne & Hkc).
           unfold group. cbn [groups]. rewrite Gk. cbn [propertyKey].
           unfold wellFormedKey. rewrite Hkc.
           destruct k; [contradiction|reflexivity].
      * destruct (jsMatch false re_cont line) as [cm|];
          [|inversion H; subst; exact Inv].
        destruct (lastKeyOf (qualifiers cur)) as [lk|] eqn:LK;
          [|inversion H; subst; exact Inv].
        destruct (truthy lk); [|inversion H; subst; exact Inv].
        destruct (group cm 1); simpl in H; [|discriminate].
        inversion H; subst; clear H.
        apply namedWell_replace; auto.
        intros k Hk. cbn [withQualifiers qualifiers] in Hk.
        destruct (lastKeyOf_own _ _ LK) as [v0 Hv].
        rewrite appendContinuation_own_keys in Hk.
        -- apply Hcur. exact Hk.
        -- clear - Hv. induction (own (qualifiers cur)) as [|[k0 v1] l IH];
             simpl in *; [discriminate|].
           destruct (jsstring_eqb lk k0) eqn:E.
           ++ left. apply jsstring_eqb_eq in E. symmetry. exact E.
           ++ right. apply IH. exact Hv.
    + destruct (jsMatch false re_qual line) as [qm|];
        destruct (jsMatch false re_cont line) as [cm|];
        inversion H; subst; exact Inv.
Qed.

Lemma foldM_names : forall lines st st',
  foldM step lines st = Ok st' ->
  Forall namedWell (openFeatures st) -> Forall namedWell (openFeatures st').
Proof.
  induction lines as [|l lines IH]; intros st st' H Inv; simpl in H.
  - inversion H; subst. exact Inv.
  - destruct (step st l) as [st1|] eqn:S; [|discriminate]. simpl in H.
    eapply IH; [exact H|]. eapply step_names; eassumption.
Qed.

(** X16. The names of the qualifiers of every feature of the document are
    non-empty, made of letters, digits, underscores and hyphens only,
    and none of them is __proto__: a qualifier of that name never
    becomes a property of the object. *)
Theorem qualifier_names (text : jsstring) (doc : GenBankDocument)
    (f : Feature) (k : jsstring) :
  parseGenBank text = Ok doc -> In f (features doc) ->
  In k (List.map fst (own (qualifiers f))) ->
  k <> [] /\ forallb keyChar k = true /\ k <> str "__proto__".
Proof.
  intros Hp Hin Hk.
  assert (W : Forall namedWell (features doc)).
  { unfold parseGenBank, featureList in Hp.
    destruct (featuresText text) as [ft|].
    - destruct (foldM step (split false re_newline ft) (mkLoop [] None))
        as [st|] eqn:F; [|discriminate].
      simpl in Hp. inversion Hp; subst; clear Hp. cbn [features].
      apply (foldM_names _ _ _ F). constructor.
    - simpl in Hp. inversion Hp; subst. constructor. }
  rewrite Forall_forall in W. destruct (W f Hin k Hk) as [Hw Hproto].
  unfold wellFormedKey in Hw. apply andb_prop in Hw. destruct Hw as [Ht Hc].
  repeat split; auto. intros ->. discriminate.
Qed.

Lemma qualifier_names_witness :
  str "gene" <> [] /\ forallb keyChar (str "gene") = true /\
  str "gene" <> str "__proto__".
Proof.
  apply (qualifier_names (featureTable [quotedGene])
           (mkGenBank None [cds [(str "gene", scalar "abc")]])
           (cds [(str "gene", scalar "abc")]) (str "gene")).
  - vm_compute. reflexivity.
  - left. reflexivity.
  - left. reflexivity.
Defined.

(** ** Sequences *)

(** X17. The sequence of every record is free of white space, and the length
    stored with it is its number of code units. *)
Theorem fasta_sequence_shape (text : jsstring) (records : list FastaRecord)
    (r : FastaRecord) :
  parseFasta text = Ok records -> In r records ->
  forallb nonws (sequence r) = true /\
  length r = List.length (sequence r).
Proof.
  rewrite parseFasta_spec. intros H Hin. inversion H; subst records; clear H.
  apply in_map_iff in Hin. destruct Hin as (chunk & <- & _).
  unfold recordOfTrimmedChunk, recordOfChunk. cbn [sequence length].
  split; [apply stripWhitespace_clean|reflexivity].
Qed.

Lemma fasta_sequence_shape_witness :
  forallb nonws (str "ACGTAC") = true /\ 6 = List.length (str "ACGTAC").
Proof.
  apply (fasta_sequence_shape (text_of_lines [str ">s"; str "ACG T"; str "AC"])
           [mkFastaRecord (str "s") (str "ACGTAC") 6]
           (mkFastaRecord (str "s") (str "ACGTAC") 6)).
  - vm_compute. reflexivity.
  - left. reflexivity.
Defined.

(** ** A line beginning with ORIGIN above the FEATURES line *)

Lemma substring_swapped pre mid post :
  substring (pre ++ mid ++ post)
    (Z.of_nat (List.length pre + List.length mid))
    (Some (Z.of_nat (List.length pre))) = mid.
Proof.
  unfold substring. rewrite !clampIndex_le by (rewrite !length_app; lia).
  rewrite Nat.min_r, Nat.max_l by lia.
  rewrite skipn_len_app by reflexivity.
  apply firstn_len_app. lia.
Qed.

(** X18. When the first line beginning with ORIGIN is above the first line
    beginning with FEATURES, the parser reads the text between the two,
    from the ORIGIN line up to the FEATURES line, in place of the
    feature table. *)
Theorem origin_above_features_slice (pre mid post : jsstring) :
  firstLineWith (str "ORIGIN") (pre ++ mid ++ post) = Some (List.length pre) ->
  firstLineWith (str "FEATURES") (pre ++ mid ++ post) =
    Some (List.length pre + List.length mid) ->
  featuresText (pre ++ mid ++ post) = Some mid.
Proof.
  intros Ho Hf. unfold featuresText, re_FEATURES, re_ORIGIN. cbv zeta.
  rewrite !search_keyword, Hf, Ho, !of_nat_not_minus_one. cbn [negb].
  rewrite of_nat_not_minus_one, substring_swapped. reflexivity.
Qed.

Lemma origin_above_features_slice_witness :
  featuresText
    (str "LOCUS x" ++ [LF] ++
     text_of_lines [str "ORIGIN"; spaces 5 ++ str "gene            1..5"] ++
     text_of_lines [str "FEATURES             Location/Qualifiers";
                    spaces 5 ++ str "CDS             1..100"]) =
  Some (text_of_lines [str "ORIGIN"; spaces 5 ++ str "gene            1..5"]).
Proof.
  apply (origin_above_features_slice (str "LOCUS x" ++ [LF])
           (text_of_lines [str "ORIGIN"; spaces 5 ++ str "gene            1..5"])
           (text_of_lines [str "FEATURES             Location/Qualifiers";
                           spaces 5 ++ str "CDS             1..100"]));
    vm_compute; reflexivity.
Defined.

(** ** What the component shows after a file was chosen *)

(** X19. After a file was chosen and read, the component shows the name of
    the file and the format detected in its text, whatever it showed
    before.  For FASTA and GenBank the parsed data is set and no error
    is shown: the messages for a failed parse never appear.  For any
    other text nothing is parsed and the error says that the format is
    unknown. *)
Theorem load_outcome (st : Facade.uiState) (name message text : jsstring) :
  let st' := Facade.onload message (Facade.handleFile st (Some name)) text in
  Facade.filename st' = name /\
  Facade.type st' = Some (detectFormat text) /\
  match detectFormat text with
  | fasta =>
      Facade.parsed st' =
        Some (Facade.PFasta
                (List.map recordOfTrimmedChunk (filter notBlank (gtChunks text)))) /\
      Facade.error st' = []
  | genbank =>
      (exists fs, featureList text = Ok fs /\
         Facade.parsed st' =
           Some (Facade.PGenbank (mkGenBank (locusOf text) fs))) /\
      Facade.error st' = []
  | unknown =>
      Facade.parsed st' = None /\
      Facade.error st' = str "Unknown or unsupported file format"
  end.
Proof.
  cbv zeta. unfold Facade.onload, Facade.handleFile.
  destruct (detectFormat text).
  - unfold parseGenBank. destruct (featureList_ok text) as [fs Hfs].
    rewrite Hfs. cbn. repeat split. exists fs. split; reflexivity.
  - rewrite parseFasta_spec. cbn. repeat split.
  - cbn. repeat split.
Qed.

(** When the read fails, the component shows the name of the new file
    and the read error, and still the format detected for the file
    before it; when no file is chosen, name and format both stay. *)
Remark failed_read_keeps_format (st : Facade.uiState) (name : jsstring) :
  Facade.onerror (Facade.handleFile st (Some name)) =
    Facade.mkUi name (Facade.type st) None (str "Failed to read file") /\
  Facade.handleFile st None =
    Facade.mkUi (Facade.filename st) (Facade.type st) None [].
Proof. split; reflexivity. Qed.

(** ** A block of qualifier lines *)

Lemma assoc_absent k : forall l,
  ~ In k (List.map fst l) -> assoc k l = None.
Proof.
  induction l as [|[k0 v0] l IH]; simpl; intros H; [reflexivity|].
  destruct (jsstring_eqb k k0) eqn:E.
  - apply jsstring_eqb_eq in E. exfalso. apply H. left. symmetry. exact E.
  - apply IH. intros Hin. apply H. right. exact Hin.
Qed.

Lemma addQualifier_fresh l k a :
  get Obj.empty k = None -> ~ In k (List.map fst l) ->
  addQualifier (Object l None) k a = Object (l ++ [(k, VAtom a)]) None.
Proof.
  intros G Hn. pose proof (assoc_absent k l Hn) as A.
  assert (P : jsstring_eqb k (str "__proto__") = false).
  { destruct (jsstring_eqb k (str "__proto__")) eqn:P; [|reflexivity].
    unfold get, objectPrototypeGet in G. cbn [own proto Obj.empty assoc] in G.
    rewrite P in G. discriminate. }
  assert (G' : get (Object l None) k = None).
  { unfold get in *. cbn [own proto Obj.empty assoc] in *. rewrite A. exact G. }
  unfold addQualifier. rewrite G'. unfold set. cbn [own proto].
  rewrite A, P. reflexivity.
Qed.

Lemma map_fst_scalarEntry l :
  List.map fst (List.map scalarEntry l) = List.map fst l.
Proof. rewrite map_map. reflexivity. Qed.

Lemma qualifier_block_from : forall kvs pre st cur,
  current st = Some cur ->
  qualifiers cur = Object (List.map scalarEntry pre) None ->
  NoDup (List.map fst (pre ++ kvs)) ->
  (forall kv, In kv kvs ->
     fst kv <> [] /\ forallb keyChar (fst kv) = true /\
     forallb notQuote (snd kv) = true /\ get Obj.empty (fst kv) = None) ->
  foldM step (List.map quotedQualifier kvs) st =
  Ok (mkLoop (done st)
        (Some (withQualifiers cur
                 (Object (List.map scalarEntry (pre ++ kvs)) None)))).
Proof.
  induction kvs as [|[k v] kvs IH]; intros pre st cur Hc Hq Hnd Hok.
  - simpl. rewrite app_nil_r, <- Hq.
    destruct st as [d c]. simpl in Hc. subst c.
    destruct cur. reflexivity.
  - destruct (Hok (k, v) (or_introl eq_refl)) as (Hk & Hkc & Hv & Hg).
    cbn [fst snd] in *.
    cbn [List.map foldM]. unfold quotedQualifier at 1. cbn [fst snd].
    pose proof (step_quoted st cur (spaces 21) k v [] Hc
                  eq_refl eq_refl Hk Hkc Hv) as S.
    rewrite app_nil_r in S. rewrite S. cbn [bind].
    rewrite Hq, addQualifier_fresh.
    + rewrite (IH (pre ++ [(k, v)]) _ (withQualifiers cur
                 (Object (List.map scalarEntry pre ++ [(k, VAtom (AStr v))]) None))).
      * cbn [done]. rewrite <- app_assoc. reflexivity.
      * reflexivity.
      * cbn [withQualifiers qualifiers]. rewrite map_app. reflexivity.
      * rewrite <- app_assoc. exact Hnd.
      * intros kv Hin. apply Hok. right. exact Hin.
    + exact Hg.
    + rewrite map_fst_scalarEntry. rewrite map_app in Hnd.
      apply NoDup_remove_2 in Hnd. intros Hin. apply Hnd.
      apply in_or_app. left. exact Hin.
Qed.

(** X20. A feature-start line followed by qualifier lines with quoted values
    under different names, none of them a name that every object
    answers for, gives the feature with those qualifiers, each a single
    string, in the order of the lines; the feature in progress before is
    closed. *)
Theorem feature_block (st : loopState) (ind fk gap : jsstring) (c : char)
    (loc : jsstring) (kvs : list (jsstring * jsstring)) :
  List.length ind = 5 -> forallb ws ind = true ->
  fk <> [] -> forallb nonws fk = true ->
  gap <> [] -> forallb ws gap = true ->
  nonws c = true -> forallb dot loc = true ->
  NoDup (List.map fst kvs) ->
  (forall kv, In kv kvs ->
     fst kv <> [] /\ forallb keyChar (fst kv) = true /\
     forallb notQuote (snd kv) = true /\ get Obj.empty (fst kv) = None) ->
  foldM step ((ind ++ fk ++ gap ++ c :: loc) :: List.map quotedQualifier kvs) st =
  Ok (mkLoop (openFeatures st)
        (Some (mkFeature (Some fk) (trim (c :: loc))
                 (Object (List.map scalarEntry kvs) None)))).
Proof.
  intros Hlen Hws Hk Hkn Hg Hgw Hc Hloc Hnd Hok.
  destruct (featMatch_line ind fk gap c loc Hlen Hws Hk Hkn Hg Hgw Hc Hloc)
    as [n M].
  cbn [foldM]. unfold step at 1. rewrite jsMatch_feat, M.
  cbn [group groups getCap Nat.eqb trimU bind].
  apply (qualifier_block_from kvs []
           (mkLoop (openFeatures st)
              (Some (mkFeature (Some fk) (trim (c :: loc)) Obj.empty)))
           (mkFeature (Some fk) (trim (c :: loc)) Obj.empty)
           eq_refl eq_refl Hnd Hok).
Qed.

Lemma feature_block_witness :
  foldM step
    ((spaces 5 ++ str "CDS" ++ spaces 13 ++ str "1..100") ::
     List.map quotedQualifier
       [(str "gene", str "abc"); (str "note", str "two words")])
    (mkLoop [] None) =
  Ok (mkLoop []
        (Some (mkFeature (Some (str "CDS")) (str "1..100")
                 (Object [(str "gene", scalar "abc");
                          (str "note", scalar "two words")] None)))).
Proof.
  apply (feature_block (mkLoop [] None) (spaces 5) (str "CDS") (spaces 13)
           49%N (str "..100")
           [(str "gene", str "abc"); (str "note", str "two words")]);
    try (vm_compute; reflexivity); try discriminate.
  - repeat constructor; simpl; intuition discriminate.
  - intros kv [<-|[<-|[]]]; repeat split; try discriminate; vm_compute; reflexivity.
Defined.

(** ** The target of a continuation line *)









Lemma foldM_app {A S} (f : S -> A -> result S) : forall l1 l2 s,
  foldM f (l1 ++ l2) s = bind (foldM f l1 s) (foldM f l2).
Proof.
  induction l1 as [|a l1 IH]; intros l2 s; simpl; [reflexivity|].
  destruct (f s a) as [s1|]; simpl; [apply IH|reflexivity].
Qed.





(** The concrete outcome of those three lines. *)
Example continuation_after_new_key :
  foldM step
    [qualifierLine (str "/note=x"); qualifierLine (str "y");
     qualifierLine (str "z")]
    (inFeature [(str "gene", scalar "abc")]) =
  Ok (inFeature [(str "gene", scalar "abc"); (str "note", scalar "x y z")]).
Proof. vm_compute. reflexivity. Qed.

(** ** The width of a qualifier line *)

Lemma skipn_in_run cls : forall n s,
  n < leadingRun cls s ->
  exists c s', skipn n s = c :: s' /\ cls c = true.
Proof.
  induction n as [|n IH]; intros s H; destruct s as [|c s]; simpl in H;
    try lia.
  - destruct (cls c) eqn:E; [|lia]. exists c, s. split; [reflexivity|exact E].
  - destruct (cls c); [|lia]. simpl. apply IH. lia.
Qed.

(** The 21 of a qualifier line is exact: with more white space the
    slash is not where the pattern asks for it. *)
Lemma qualMatch_needs_exactly_21 line :
  leadingWs line <> 21 -> jsMatch false re_qual line = None.
Proof.
  intros H.
  destruct (Nat.lt_ge_cases (leadingWs line) 21) as [L|L].
  - apply qualMatch_needs_21. exact L.
  - unfold re_qual. rewrite jsMatch_anchored.
    rewrite matchAt_none; [reflexivity|].
    cbn [exec atBol prev rest caps exactly plus].
    rewrite rep_exact by exact L.
    cbn [exec atBol prev rest caps exactly plus].
    destruct (skipn_in_run ws 21 line) as (c & s' & E & Hc);
      [unfold leadingWs in *; lia|].
    rewrite E. change (str "/") with [47%N].
    rewrite lit1_neq; [reflexivity|].
    intros <-. discriminate.
Qed.
